(** * PF watermark (watermark/pf/pf.py): shallow embedding and properties

    The file follows [src/watermark/pf/pf.py].  Tensors of one dimension are
    lists, batches are lists of rows, Python integers are [Z] (unbounded, as
    in Python), 64-bit tensor entries are [Z] with the wrap-around written
    out.  The generator [self.rng] is the only mutable state of a [PFUtils]
    instance; it is threaded through a state-and-exception monad.  torch,
    scipy and the tokenizer are collaborators: they are an interface
    ([Numeric], [Tokenizer]) and every theorem holds for any implementation
    of it. *)

From stdpp Require Import base numbers list fin_sets gmap sets strings.

Local Open Scope Z_scope.
Set Warnings "-clear-no-such-hyp".

(** ** Python exceptions and results *)

Inductive exn : Type :=
| AttributeError
| IndexError
| RuntimeError
| UnboundLocalError.

Inductive Res (A : Type) : Type :=
| Ok (a : A)
| Raise (e : exn).
Arguments Ok {A} a.
Arguments Raise {A} e.

Definition res_bind {A B} (r : Res A) (k : A → Res B) : Res B :=
  match r with
  | Ok a => k a
  | Raise e => Raise e
  end.

#[global] Instance res_ret : MRet Res := λ A a, Ok a.
#[global] Instance res_mbind : MBind Res := λ A B k r, res_bind r k.

Fixpoint res_mapM {A B} (f : A → Res B) (l : list A) : Res (list B) :=
  match l with
  | [] => Ok []
  | x :: l' => y ← f x; ys ← res_mapM f l'; Ok (y :: ys)
  end.

(** ** Python sequence primitives *)

(** Bounds of a slice [l[i:]] or [l[:i]] for a sequence of [n] items. *)
Definition clamp_index (n i : Z) : Z :=
  if i <? 0 then Z.max (i + n) 0 else Z.min i n.

(** [l[start:stop]]; [None] is an omitted bound. *)
Definition py_slice {A} (l : list A) (start stop : option Z) : list A :=
  let n := Z.of_nat (length l) in
  let a := from_option (clamp_index n) 0 start in
  let b := from_option (clamp_index n) n stop in
  take (Z.to_nat (b - a)) (drop (Z.to_nat a) l).

(** [l[i]], negative indices counting from the end. *)
Definition py_index {A} (l : list A) (i : Z) : Res A :=
  let j := if i <? 0 then i + Z.of_nat (length l) else i in
  if j <? 0 then Raise IndexError
  else match l !! Z.to_nat j with
       | Some x => Ok x
       | None => Raise IndexError
       end.

(** [range(start, stop)]. *)
Definition py_range (start stop : Z) : list Z := seqZ start (stop - start).

(** [t.roll(shift)] on a one-dimensional tensor:
    [out[(i + shift) mod n] = t[i]]. *)
Definition roll {A} (shift : Z) (t : list A) : list A :=
  let k := Z.to_nat ((- shift) `mod` Z.of_nat (length t)) in
  drop k t ++ take k t.

(** A signed 64-bit tensor entry. *)
Definition int64_wrap (x : Z) : Z := (x + 2 ^ 63) `mod` 2 ^ 64 - 2 ^ 63.

Definition int64_fits (x : Z) : bool := (- 2 ^ 63 <=? x) && (x <? 2 ^ 63).

(** ** The numeric collaborators: floats, torch, scipy *)

Class Numeric : Type := {
  F : Type;                         (* a float *)
  f_of_Z : Z → F;                   (* an int where a float is expected *)
  f_eps : F;                        (* the literal 1e-4 *)
  f_inf : F;                        (* float('inf') *)
  fadd : F → F → F;
  fsub : F → F → F;
  fdiv : F → F → F;
  fneg : F → F;
  flog : F → F;
  fgtb : F → F → bool;              (* x > y *)
  feqb : F → F → bool;              (* x == y *)
  softmax : list F → list F;        (* torch.softmax on a row *)
  sort_desc : list F → list F * list Z;  (* torch.sort(descending=True) *)
  cumsum : list F → list F;
  fsum : list F → F;                (* Tensor.sum on a row *)
  argmax : list F → Z;
  gamma_ppf : F → Z → F;            (* scipy gamma.ppf(q, a=k, scale=1) *)
  Gen : Type;                       (* the state of a torch.Generator *)
  gen_seed : Z → Gen;               (* the state manual_seed leaves *)
  gen_rand : Z → Gen → list F * Gen;       (* torch.rand(n, generator) *)
  gen_randperm : Z → Gen → list Z * Gen;   (* torch.randperm(n) *)
  fgtb_irrefl : ∀ x, fgtb x x = false;
  fgtb_inf : ∀ x, fgtb x f_inf = false;
  gen_rand_length : ∀ n g, 0 ≤ n → Z.of_nat (length (gen_rand n g).1) = n
}.

(** ** The tokenizer and the configuration *)

Record Tokenizer : Type := {
  encode : string → list Z;
  vocab_size : Z;
  pad_token_id : option Z;
  eos_token_id : Z
}.

Record PFConfig : Type := {
  payload : Z;
  salt_key : Z;
  ngram : Z;
  seed : Z;
  seeding : string;
  max_seq_len : Z;
  generation_tokenizer : Tokenizer
}.

Section PF.
Context `{Numeric}.

(** ** The monad of the methods that use [self.rng] *)

Definition M (A : Type) : Type := Gen → Res A * Gen.

Definition m_ret {A} (a : A) : M A := λ g, (Ok a, g).

Definition m_bind {A B} (m : M A) (k : A → M B) : M B :=
  λ g, match m g with
       | (Ok a, g') => k a g'
       | (Raise e, g') => (Raise e, g')
       end.

#[global] Instance M_ret : MRet M := λ A a, m_ret a.
#[global] Instance M_bind : MBind M := λ A B k m, m_bind m k.

(** A computation that does not touch the generator. *)
Definition lift {A} (r : Res A) : M A := λ g, (r, g).

(** [rng.manual_seed(s)]: torch accepts [-2^63 .. 2^64 - 1]. *)
Definition seed_ok (s : Z) : bool := (- 2 ^ 63 <=? s) && (s <? 2 ^ 64).

Definition manual_seed (s : Z) : M unit :=
  λ g, if seed_ok s then (Ok (), gen_seed s) else (Raise RuntimeError, g).

(** [torch.rand(n, generator=self.rng)]. *)
Definition rand (n : Z) : M (list F) :=
  λ g, if n <? 0 then (Raise RuntimeError, g)
       else let '(rs, g') := gen_rand n g in (Ok rs, g').

(** ** PFUtils *)

Record PFUtils : Type := {
  config : PFConfig;
  pad_id : Z;
  eos_id : Z;
  hashtable : list Z
}.

Definition table_size : Z := 1000003.

(** [PFUtils.__init__]: the first component of the state is the process-wide
    default generator of torch, from which [torch.randperm(1000003)] draws;
    the second is the generator [self.rng] of the new instance. *)
Definition PFUtils_init (cfg : PFConfig) (default_gen : Gen)
  : Res (PFUtils * Gen) * Gen :=
  let tok := generation_tokenizer cfg in
  let pad := match pad_token_id tok with
             | Some p => p
             | None => eos_token_id tok
             end in
  let drawn := gen_randperm table_size default_gen in
  let self := {| config := cfg; pad_id := pad; eos_id := eos_token_id tok;
                 hashtable := drawn.1 |} in
  if seed_ok (seed cfg) then (Ok (self, gen_seed (seed cfg)), drawn.2)
  else (Raise RuntimeError, drawn.2).

Section Methods.
Variable self : PFUtils.

Definition cfg : PFConfig := config self.
Definition V : Z := vocab_size (generation_tokenizer cfg).

(** [hashint] on a LongTensor. *)
Definition hashint (integer_tensor : list Z) : Res (list Z) :=
  res_mapM (λ x, py_index (hashtable self)
                          (x `mod` Z.of_nat (length (hashtable self))))
           integer_tensor.

(** The loop of the 'hash' strategy. *)
Fixpoint hash_loop (input_ids : list Z) (s : Z) : Z :=
  match input_ids with
  | [] => s
  | i :: rest => hash_loop rest ((s * salt_key cfg + i) `mod` (2 ^ 64 - 1))
  end.

(** [torch.min(t).item()]. *)
Definition tensor_min (t : list Z) : Res Z :=
  match t with
  | [] => Raise RuntimeError
  | x :: t' => Ok (foldl Z.min x t')
  end.

(** [get_seed_rng].  Under 'additive' and 'skip' the method passes a Python
    int to [hashint], which calls [.cpu()] on it: an int has no such
    attribute.  Under 'min' the product with [salt_key] is a product of
    64-bit tensor entries.  Any other strategy leaves [seed] unbound. *)
Definition get_seed_rng (input_ids : list Z) : Res Z :=
  if String.eqb (seeding cfg) "hash" then
    Ok (hash_loop input_ids (seed cfg))
  else if String.eqb (seeding cfg) "additive" then
    Raise AttributeError
  else if String.eqb (seeding cfg) "skip" then
    _ ← py_index input_ids 0; Raise AttributeError
  else if String.eqb (seeding cfg) "min" then
    if int64_fits (salt_key cfg) then
      hashed ← hashint (fmap (λ t, int64_wrap (salt_key cfg * t)) input_ids);
      tensor_min hashed
    else Raise RuntimeError
  else Raise UnboundLocalError.

(** [score_tok]. *)
Definition score_tok (ngram_tokens : list Z) (token_id : Z) : M (list F) :=
  s ← lift (get_seed_rng ngram_tokens);
  _ ← manual_seed s;
  rs ← rand V;
  let rs := fmap (λ r, if feqb r (f_of_Z 0) then f_eps else r) rs in
  mret (fneg <$> roll (- token_id) (flog <$> rs)).

(** The nucleus step of [sample_next] on one row of [probs]: the row
    [log_probs] in sorted order and the row of [probs_idx]. *)
Definition nucleus_row (temperature top_p : F) (row : list F)
  : list F * list Z :=
  let probs := softmax (fmap (λ x, fdiv x temperature) row) in
  let '(probs_sort, probs_idx) := sort_desc probs in
  let probs_sum := cumsum probs_sort in
  let probs_sort :=
    zip_with (λ s p, if fgtb (fsub s p) top_p then f_of_Z 0 else p)
             probs_sum probs_sort in
  let total := fsum probs_sort in
  (fmap (λ p, flog (fdiv p total)) probs_sort, probs_idx).

(** [a - b] on rows of the same size. *)
Definition tensor_sub (a b : list F) : Res (list F) :=
  if decide (length a = length b) then Ok (zip_with fsub a b)
  else Raise RuntimeError.

(** The loop of [sample_next] over the batch, from row [ii] on. *)
Fixpoint watermark_rows (rows : list (list Z)) (ii : Z)
    (probs_idx : list (list Z)) (log_probs : list (list F))
  : M (list (list F)) :=
  match rows with
  | [] => mret log_probs
  | ngram_tokens :: rows' =>
    s ← lift (get_seed_rng ngram_tokens);
    _ ← manual_seed s;
    rs ← rand V;
    let rs := roll (- payload cfg) rs in
    idx ← lift (py_index probs_idx ii);
    rs ← lift (res_mapM (py_index rs) idx);
    row ← lift (py_index log_probs ii);
    row' ← lift (tensor_sub row (flog <$> rs));
    watermark_rows rows' (ii + 1) probs_idx
                   (<[Z.to_nat ii := row']> log_probs)
  end.

(** [sample_next]; [logits] has one row per text of the batch. *)
Definition sample_next (logits : list (list F)) (ngram_tokens : list (list Z))
    (temperature top_p : F) : M (list Z) :=
  if fgtb temperature (f_of_Z 0) then
    let sorted := fmap (nucleus_row temperature top_p) logits in
    let log_probs := fst <$> sorted in
    let probs_idx := snd <$> sorted in
    log_probs ← watermark_rows ngram_tokens 0 probs_idx log_probs;
    let next_token := argmax <$> log_probs in
    lift (res_mapM (λ '(idx, j), py_index idx j) (zip probs_idx next_token))
  else
    mret (argmax <$> logits).

(** [get_threshold]. *)
Definition get_threshold (n_tokens : Z) (alpha : F) : F :=
  if n_tokens <=? ngram cfg then f_inf
  else
    let k := n_tokens - ngram cfg in
    gamma_ppf (fsub (f_of_Z 1) alpha) k.

(** The deduplication step of [get_scores_by_t] at one position: whether the
    position is skipped ([continue]) and the set [seen_ntuples] afterwards. *)
Definition dedup_step (scoring_method : string) (tokens ngram_tokens : list Z)
    (cur_pos : Z) (seen_ntuples : gset (list Z)) : bool * gset (list Z) :=
  if String.eqb scoring_method "v1" then
    let tup_for_unique := ngram_tokens in
    if decide (tup_for_unique ∈ seen_ntuples) then (true, seen_ntuples)
    else (false, seen_ntuples ∪ {[tup_for_unique]})
  else if String.eqb scoring_method "v2" then
    let tup_for_unique :=
      ngram_tokens ++ py_slice tokens (Some cur_pos) (Some (cur_pos + 1)) in
    if decide (tup_for_unique ∈ seen_ntuples) then (true, seen_ntuples)
    else (false, seen_ntuples ∪ {[tup_for_unique]})
  else (false, seen_ntuples).

(** The inner loop of [get_scores_by_t] over [cur_pos], with the list [rts]
    and the set [seen_ntuples] it updates. *)
Fixpoint score_positions (scoring_method : string) (payload_max : Z)
    (tokens : list Z) (positions : list Z)
    (seen_ntuples : gset (list Z)) (rts : list (list F)) : M (list (list F)) :=
  match positions with
  | [] => mret rts
  | cur_pos :: positions' =>
    let ngram_tokens :=
      py_slice tokens (Some (cur_pos - ngram cfg)) (Some cur_pos) in
    let '(skip, seen') :=
      dedup_step scoring_method tokens ngram_tokens cur_pos seen_ntuples in
    if skip then
      score_positions scoring_method payload_max tokens positions' seen' rts
    else
      token_id ← lift (py_index tokens cur_pos);
      rt ← score_tok ngram_tokens token_id;
      let rt := py_slice rt None (Some (payload_max + 1)) in
      score_positions scoring_method payload_max tokens positions' seen'
                      (rts ++ [rt])
  end.

(** The body of the loop over the texts, for one tokenized text. *)
Definition score_text (scoring_method : string) (payload_max : Z)
    (tokens : list Z) : M (list (list F)) :=
  let total_len := Z.of_nat (length tokens) in
  let start_pos := ngram cfg + 1 in
  score_positions scoring_method payload_max tokens
                  (py_range start_pos total_len) ∅ [].

Fixpoint m_mapM {A B} (f : A → M B) (l : list A) : M (list B) :=
  match l with
  | [] => mret []
  | x :: l' => y ← f x; ys ← m_mapM f l'; mret (y :: ys)
  end.

(** [get_scores_by_t]. *)
Definition get_scores_by_t (texts : list string) (scoring_method : string)
    (ntoks_max : option Z) (payload_max : Z) : M (list (list (list F))) :=
  let tokens_id := fmap (encode (generation_tokenizer cfg)) texts in
  let tokens_id :=
    match ntoks_max with
    | Some n => fmap (λ x, py_slice x None (Some n)) tokens_id
    | None => tokens_id
    end in
  m_mapM (score_text scoring_method payload_max) tokens_id.

End Methods.

(** ** Aggregation *)

(** What [get_scores] stores for a text: the int [0] or a tensor. *)
Inductive Score : Type :=
| SInt (z : Z)
| STensor (t : list F).

(** [acc + t] inside [sum(scores)], [t] a tensor.  Tensors of different
    sizes raise; the broadcasting of a one-element tensor is not modelled
    (the score vectors of a text all have the same size). *)
Definition score_add (acc : Score) (t : list F) : Res Score :=
  match acc with
  | SInt z => Ok (STensor (fmap (λ x, fadd x (f_of_Z z)) t))
  | STensor a =>
    if decide (length a = length t) then Ok (STensor (zip_with fadd a t))
    else Raise RuntimeError
  end.

(** [sum(scores)], from the start value [acc]. *)
Fixpoint py_sum (scores : list (list F)) (acc : Score) : Res Score :=
  match scores with
  | [] => Ok acc
  | t :: scores' => acc' ← score_add acc t; py_sum scores' acc'
  end.

(** [get_scores]. *)
Definition get_scores (score_lists : list (list (list F))) : Res (list Score) :=
  res_mapM (λ scores,
              if decide (length scores = 0%nat) then Ok (SInt 0)
              else py_sum scores (SInt 0))
           score_lists.

(** The truth value of [score > threshold]: a tensor has one only when it
    has exactly one entry. *)
Definition score_gt (score : Score) (threshold : F) : Res bool :=
  match score with
  | SInt z => Ok (fgtb (f_of_Z z) threshold)
  | STensor [x] => Ok (fgtb x threshold)
  | STensor _ => Raise RuntimeError
  end.

(** ** PF.detect_watermark *)

Definition detect_watermark (utils : PFUtils) (text : list string) (alpha : F)
    (scoring_method : string) (ntoks_max : option Z) : M Z :=
  scores ← get_scores_by_t utils text "none" ntoks_max 0;
  score ← lift (get_scores scores);
  scores0 ← lift (py_index scores 0);
  let threshold := get_threshold utils (Z.of_nat (length scores0)) alpha in
  score0 ← lift (py_index score 0);
  b ← lift (score_gt score0 threshold);
  mret (if b : bool then 1 else 0).

(** ** Specification-side definitions *)

(** The 'hash' strategy in the words of the specification: a left-to-right
    fold from the base seed. *)
Definition hash_seed_spec (base_seed salt : Z) (context : list Z) : Z :=
  fold_left (λ s t, (s * salt + t) `mod` (2 ^ 64 - 1)) context base_seed.

(** The same fold on unbounded integers, with no reduction at all. *)
Definition horner (salt : Z) (context : list Z) (s : Z) : Z :=
  fold_left (λ s t, s * salt + t) context s.

(** The context window of position [p]. *)
Definition window (utils : PFUtils) (tokens : list Z) (p : Z) : list Z :=
  py_slice tokens (Some (p - ngram (config utils))) (Some p).

(** The score vector drawn from a generator freshly seeded with [s]. *)
Definition seeded_scores (utils : PFUtils) (s token_id : Z) : list F :=
  let rs := (gen_rand (V utils) (gen_seed s)).1 in
  fneg <$> roll (- token_id)
    (flog <$> ((λ r, if feqb r (f_of_Z 0) then f_eps else r) <$> rs)).

(** The score vector of position [p] under the 'hash' strategy. *)
Definition score_at (utils : PFUtils) (payload_max : Z) (tokens : list Z)
    (p : Z) : list F :=
  match py_index tokens p with
  | Ok token_id =>
    py_slice
      (seeded_scores utils
         (hash_loop utils (window utils tokens p) (seed (config utils)))
         token_id)
      None (Some (payload_max + 1))
  | Raise _ => []
  end.

(** The positions that the deduplication does not skip. *)
Fixpoint kept (utils : PFUtils) (scoring_method : string) (tokens : list Z)
    (positions : list Z) (seen : gset (list Z)) : list Z :=
  match positions with
  | [] => []
  | p :: positions' =>
    let '(skip, seen') :=
      dedup_step scoring_method tokens (window utils tokens p) p seen in
    if skip then kept utils scoring_method tokens positions' seen'
    else p :: kept utils scoring_method tokens positions' seen'
  end.

(** The score vectors of a tokenized text under the 'hash' strategy. *)
Definition text_scores (utils : PFUtils) (scoring_method : string)
    (payload_max : Z) (tokens : list Z) : list (list F) :=
  score_at utils payload_max tokens <$>
    kept utils scoring_method tokens
         (py_range (ngram (config utils) + 1) (Z.of_nat (length tokens))) ∅.

(** The tokens of a text as [get_scores_by_t] sees them. *)
Definition text_tokens (utils : PFUtils) (ntoks_max : option Z)
    (text : string) : list Z :=
  let x := encode (generation_tokenizer (config utils)) text in
  match ntoks_max with
  | Some n => py_slice x None (Some n)
  | None => x
  end.

(** Aggregating the score vectors of one text and comparing the aggregate
    with a threshold. *)
Definition decide_with (scores : list (list F)) (threshold : F) : Res Z :=
  score ← (if decide (length scores = 0%nat) then Ok (SInt 0)
           else py_sum scores (SInt 0));
  b ← score_gt score threshold;
  Ok (if b : bool then 1 else 0).

(** Entry [j] of every score vector of a text, in the order of the
    positions. *)
Definition column (j : nat) (scores : list (list F)) : list F :=
  omap (λ v : list F, v !! j) scores.

(** The sum of a column as Python's [sum] forms it: the start value [0] is
    added to the first entry, then the entries follow from left to right. *)
Definition column_sum (j : nat) (scores : list (list F)) : option F :=
  match column j scores with
  | [] => None
  | x :: xs => Some (foldl fadd (fadd x (f_of_Z 0)) xs)
  end.

(** Whether the score vectors of a text all have the same size. *)
Definition same_size (scores : list (list F)) : bool :=
  match scores with
  | [] => true
  | v :: vs => forallb (λ w : list F, Nat.eqb (length w) (length v)) vs
  end.

(** The four-token phrase [a b c d] repeated ten times. *)
Definition repeated_phrase (a b c d : Z) : list Z :=
  concat (replicate 10 [a; b; c; d]).

(** The cyclic rotations of the phrase, as context windows. *)
Definition rotations (a b c d : Z) : gset (list Z) :=
  {[ [b; c; d; a]; [c; d; a; b]; [d; a; b; c]; [a; b; c; d] ]}.

End PF.

(** ** Shape conditions on the inputs of the sampler *)

Section Checks.
Context `{Numeric}.

(** Whether [get_seed_rng] gives, for a context, a seed that
    [manual_seed] accepts. *)
Definition seed_usable (utils : PFUtils) (context : list Z) : bool :=
  match get_seed_rng utils context with
  | Ok s => seed_ok s
  | Raise _ => false
  end.

(** Whether a row of [probs_idx] has the size of its row of [log_probs] and
    holds indices of a vocabulary of [v] entries. *)
Definition row_fits (v : Z) (idx : list Z) (lp : list F) : bool :=
  Nat.eqb (length idx) (length lp)
  && forallb (λ i, (0 <=? i) && (i <? v)) idx.

(** The same for a batch: one context, one row of [probs_idx] and one row
    of [log_probs] per text. *)
Definition batch_fits (v : Z) (rows idxs : list (list Z))
    (lps : list (list F)) : bool :=
  Nat.eqb (length rows) (length idxs)
  && Nat.eqb (length idxs) (length lps)
  && forallb (λ p : list Z * list F, row_fits v p.1 p.2) (zip idxs lps).

(** What the loop of [sample_next] makes of one row: entry [j] of
    [log_probs], which stands for the token [idx[j]], loses the logarithm of
    the uniform draw at index [(idx[j] + payload) mod V]. *)
Definition perturbed (utils : PFUtils) (s : Z) (idx : list Z) (lp : list F)
    (o : option (list F)) : Prop :=
  ∃ row, o = Some row
    ∧ length row = length lp
    ∧ ∀ (j : nat) (t : Z) (l : F),
        idx !! j = Some t → lp !! j = Some l →
        ∃ x, (gen_rand (V utils) (gen_seed s)).1
               !! Z.to_nat ((t + payload (config utils)) `mod` V utils)
             = Some x
             ∧ row !! j = Some (fsub l (flog x)).

End Checks.

(** ** PF.generate_watermarked_text *)

(** The language model, a collaborator: [forward input past] stands for
    [generation_model.forward(input, use_cache=True, past_key_values=past)],
    of which the code reads [logits[:, -1, :]] (one row of logits per
    sequence of the batch) and [past_key_values]. *)
Class Model `{Numeric} : Type := {
  Cache : Type;
  forward : list (list Z) → option Cache → list (list F) * Cache;
  forward_rows : ∀ input past, length (forward input past).1 = length input
}.

(** What the method raises: [ValueError] from [min] of an empty list, or an
    exception of the steps below. *)
Inductive gen_exn : Type :=
| ValueError
| Raised (e : exn).

(** [row[: len(t)] = torch.tensor(t)] on a row of the tensor [tokens].  A
    prompt longer than the row does not fit the slice; a one-element prompt
    is broadcast, into an empty slice. *)
Definition write_prompt (row t : list Z) : Res (list Z) :=
  let target := py_slice row None (Some (Z.of_nat (length t))) in
  if decide (length t = length target) then Ok (t ++ drop (length t) row)
  else if decide (length t = 1%nat) then Ok row
  else Raise RuntimeError.

(** [torch.full((bsz, total_len), pad_id)] and the loop that writes the
    prompts. *)
Definition init_tokens (pad total_len : Z) (prompt_tokens : list (list Z))
  : Res (list (list Z)) :=
  if total_len <? 0 then Raise RuntimeError
  else res_mapM (write_prompt (replicate (Z.to_nat total_len) pad))
                prompt_tokens.

(** One row of [torch.where(input_text_mask[:, c], tokens[:, c], next_toks)]
    written to column [c]. *)
Definition where_row (c : nat) (m : list bool) (row : list Z) (nx : Z)
  : list Z :=
  match m !! c with
  | Some true => row
  | _ => <[c := nx]> row
  end.

(** [tokens[:, cur_pos] = torch.where(...)]: [next_toks] has one entry per
    row, or a single entry for all rows. *)
Definition write_column (mask : list (list bool)) (tokens : list (list Z))
    (cur_pos : Z) (next_toks : list Z) : Res (list (list Z)) :=
  let bsz := length tokens in
  if decide (length next_toks = bsz) then
    Ok (zip_with (λ (p : list bool * list Z) nx,
                    where_row (Z.to_nat cur_pos) p.1 p.2 nx)
                 (zip mask tokens) next_toks)
  else
    match next_toks with
    | [nx] =>
      Ok (zip_with (λ m row, where_row (Z.to_nat cur_pos) m row nx)
                   mask tokens)
    | _ => Raise RuntimeError
    end.

(** [t[: n]] cut before the first [eos_id], if any. *)
Definition cut_row (eos n : Z) (t : list Z) : list Z :=
  let t := py_slice t None (Some n) in
  match list_find (λ x, x = eos) t with
  | Some (i, _) => take i t
  | None => t
  end.

Section Generation.
Context `{Numeric} `{!Model}.

(** [decode] of the tokenizer. *)
Variable decode : list Z → string.
Variable utils : PFUtils.

(** The decoding loop over [cur_pos], with the tensor [tokens], the last
    [outputs] of the model and [prev_pos]. *)
Fixpoint decode_loop (temperature top_p : F) (input_text_mask : list (list bool))
    (positions : list Z) (tokens : list (list Z)) (outputs : option Cache)
    (prev_pos : Z) : M (list (list Z)) :=
  match positions with
  | [] => mret tokens
  | cur_pos :: positions' =>
    let input :=
      fmap (λ row, py_slice row (Some prev_pos) (Some cur_pos)) tokens in
    let past := if 0 <? prev_pos then outputs else None in
    let out := forward input past in
    let ngram_tokens :=
      fmap (λ row, py_slice row (Some (cur_pos - ngram (config utils)))
                            (Some cur_pos)) tokens in
    next_toks ← sample_next utils out.1 ngram_tokens temperature top_p;
    tokens' ← lift (write_column input_text_mask tokens cur_pos next_toks);
    decode_loop temperature top_p input_text_mask positions' tokens'
                (Some out.2) cur_pos
  end.

(** [generate_watermarked_text]. *)
Definition generate_watermarked_text (prompts : list string)
    (max_gen_len : Z) (temperature top_p : F)
  : Gen → (gen_exn + list string) * Gen :=
  λ g,
  let prompt_tokens :=
    fmap (encode (generation_tokenizer (config utils))) prompts in
  match fmap (λ t : list Z, Z.of_nat (length t)) prompt_tokens with
  | [] => (inl ValueError, g)
  | n :: sizes =>
    let min_prompt_size := foldl Z.min n sizes in
    let max_prompt_size := foldl Z.max n sizes in
    let total_len :=
      Z.min (max_seq_len (config utils)) (max_gen_len + max_prompt_size) in
    let body : M (list string) :=
      tokens ← lift (A := list (list Z))
                 (init_tokens (pad_id utils) total_len prompt_tokens);
      let input_text_mask : list (list bool) :=
        fmap (M := list)
             (fmap (M := list) (λ x, bool_decide (x ≠ pad_id utils)))
             tokens in
      let start_pos := min_prompt_size in
      tokens ← decode_loop temperature top_p input_text_mask
                 (py_range start_pos total_len) tokens None 0;
      mret (zip_with
              (λ t p : list Z, decode (cut_row (eos_id utils)
                                (Z.of_nat (length p) + max_gen_len) t))
              tokens prompt_tokens) in
    match body g with
    | (Ok decoded, g') => (inr decoded, g')
    | (Raise e, g') => (inl (Raised e), g')
    end
  end.

End Generation.

(** Whether every prompt has at least one token and at most [max_seq_len]
    tokens. *)
Definition prompts_fit (utils : PFUtils) (prompts : list string) : bool :=
  forallb (λ x : string,
             let n := Z.of_nat (length (encode (generation_tokenizer
                                                  (config utils)) x)) in
             (1 <=? n) && (n <=? max_seq_len (config utils)))
          prompts.

(** Whether some prompt has fewer than [max_seq_len] tokens. *)
Definition prompts_leave_room (utils : PFUtils) (prompts : list string)
  : bool :=
  existsb (λ x : string,
             Z.of_nat (length (encode (generation_tokenizer (config utils))
                                      x))
             <? max_seq_len (config utils))
          prompts.

(** The rows of [tokens'] are those of [tokens] with some entries outside
    the mask rewritten. *)
Definition rewritten (mask : list (list bool)) (tokens tokens' : list (list Z))
  : Prop :=
  length tokens' = length tokens
  ∧ ∀ (i : nat) (row' : list Z), tokens' !! i = Some row' →
      ∃ (row : list Z) (m : list bool),
        tokens !! i = Some row ∧ mask !! i = Some m
        ∧ length row' = length row
        ∧ ∀ p : nat, m !! p = Some true → row' !! p = row !! p.

(** ** A small executable implementation of the collaborators

    Fixed-point numbers in thousandths with an infinity, a counter-based
    generator and a tokenizer that takes each character for a token.  It
    serves to run the definitions on concrete inputs. *)

Inductive toy_float : Type :=
| TFin (z : Z)
| TInf.

Definition toy_add (x y : toy_float) : toy_float :=
  match x, y with
  | TFin a, TFin b => TFin (a + b)
  | _, _ => TInf
  end.

Definition toy_sub (x y : toy_float) : toy_float :=
  match x, y with
  | TFin a, TFin b => TFin (a - b)
  | _, _ => TInf
  end.

Definition toy_div (x y : toy_float) : toy_float :=
  match x, y with
  | TFin a, TFin b => TFin (1000 * a / b)
  | TFin _, TInf => TFin 0
  | TInf, _ => TInf
  end.

Definition toy_neg (x : toy_float) : toy_float :=
  match x with
  | TFin a => TFin (- a)
  | TInf => TInf
  end.

(** About [1000 * ln (a / 1000)]. *)
Definition toy_log (x : toy_float) : toy_float :=
  match x with
  | TFin a => TFin (693 * (Z.log2 a - 10))
  | TInf => TInf
  end.

Definition toy_gtb (x y : toy_float) : bool :=
  match x, y with
  | TFin a, TFin b => b <? a
  | TInf, TFin _ => true
  | _, TInf => false
  end.

Definition toy_eqb (x y : toy_float) : bool :=
  match x, y with
  | TFin a, TFin b => a =? b
  | TInf, TInf => true
  | _, _ => false
  end.

Definition toy_sum (l : list toy_float) : toy_float := foldl toy_add (TFin 0) l.

Fixpoint toy_cumsum_from (acc : toy_float) (l : list toy_float)
  : list toy_float :=
  match l with
  | [] => []
  | x :: l' => toy_add acc x :: toy_cumsum_from (toy_add acc x) l'
  end.

(** The index of the first largest entry. *)
Fixpoint toy_argmax_from (l : list toy_float) (i best_i : Z)
    (best : toy_float) : Z :=
  match l with
  | [] => best_i
  | x :: l' =>
    if toy_gtb x best then toy_argmax_from l' (i + 1) i x
    else toy_argmax_from l' (i + 1) best_i best
  end.

Definition toy_argmax (l : list toy_float) : Z :=
  match l with
  | [] => 0
  | x :: l' => toy_argmax_from l' 1 0 x
  end.

Definition toy_uniform (g i : Z) : toy_float :=
  TFin (1 + (g * 7919 + i * 104729 + (g + i) * (g + i)) `mod` 999).

Definition toy_rand (n g : Z) : list toy_float * Z :=
  (toy_uniform g <$> seqZ 0 n, g + n).

Definition toy_randperm (n g : Z) : list Z * Z :=
  ((λ i, (i + g) `mod` n) <$> seqZ 0 n, g + 1).

#[local] Instance toy_numeric : Numeric.
Proof.
  refine {|
    F := toy_float;
    f_of_Z := λ z, TFin (1000 * z);
    f_eps := TFin 1;
    f_inf := TInf;
    fadd := toy_add;
    fsub := toy_sub;
    fdiv := toy_div;
    fneg := toy_neg;
    flog := toy_log;
    fgtb := toy_gtb;
    feqb := toy_eqb;
    softmax := λ l, l;
    sort_desc := λ l, (l, seqZ 0 (Z.of_nat (length l)));
    cumsum := toy_cumsum_from (TFin 0);
    fsum := toy_sum;
    argmax := toy_argmax;
    gamma_ppf := λ q k, TFin (1000 * k + 2330 * Z.sqrt k + 1000);
    Gen := Z;
    gen_seed := λ s, s;
    gen_rand := toy_rand;
    gen_randperm := toy_randperm
  |}.
  - intros [a|]; simpl; [apply Z.ltb_irrefl | reflexivity].
  - intros [a|]; reflexivity.
  - intros n g Hn. simpl. rewrite length_fmap, length_seqZ. lia.
Defined.

Definition toy_tokenizer : Tokenizer :=
  {| encode := λ s, (λ c, Z.of_nat (Ascii.nat_of_ascii c)) <$>
                      String.list_ascii_of_string s;
     vocab_size := 256;
     pad_token_id := None;
     eos_token_id := 0 |}.

Definition toy_config : PFConfig :=
  {| payload := 0;
     salt_key := 15485863;
     ngram := 4;
     seed := 42;
     seeding := "hash";
     max_seq_len := 1024;
     generation_tokenizer := toy_tokenizer |}.

Definition toy_utils : PFUtils :=
  {| config := toy_config; pad_id := 0; eos_id := 0; hashtable := [2; 0; 1] |}.

(** The instance that [PFUtils_init] builds when the default generator is
    in state [g]. *)
Definition toy_instance (cfg : PFConfig) (g : Z) : PFUtils :=
  {| config := cfg; pad_id := 0; eos_id := 0;
     hashtable := (toy_randperm table_size g).1 |}.

(** A second configuration, with another secret. *)
Definition toy_config' : PFConfig :=
  {| payload := 0;
     salt_key := 35317;
     ngram := 4;
     seed := 7;
     seeding := "min";
     max_seq_len := 1024;
     generation_tokenizer := toy_tokenizer |}.

(** The phrase [abcd], ten times. *)
Definition toy_phrase_text : string :=
  "abcdabcdabcdabcdabcdabcdabcdabcdabcdabcd".

(** ** More executable instances *)

Definition toy_config_with (strategy : string) : PFConfig :=
  {| payload := 0;
     salt_key := 15485863;
     ngram := 4;
     seed := 42;
     seeding := strategy;
     max_seq_len := 1024;
     generation_tokenizer := toy_tokenizer |}.

(** An instance with a table of seven entries. *)
Definition toy_utils_with (strategy : string) : PFUtils :=
  {| config := toy_config_with strategy; pad_id := 0; eos_id := 0;
     hashtable := [5; 3; 6; 1; 0; 2; 4] |}.

(** An executable model: eight logits per sequence, from the last token of
    the input and the number of calls so far. *)
Definition toy_forward (input : list (list Z)) (past : option Z)
  : list (list toy_float) * Z :=
  let calls := match past with Some c => c | None => 0 end in
  (fmap (λ row : list Z,
           fmap (λ j, TFin ((j * 37 + (1 + calls) * (default 0 (last row) + 5))
                            `mod` 13))
                (seqZ 0 8))
        input,
   calls + 1).

#[local] Instance toy_model : @Model toy_numeric.
Proof.
  refine (@Build_Model toy_numeric Z toy_forward _).
  intros input past. unfold toy_forward. simpl. apply length_fmap.
Defined.

(** Tokens below 32 are shown as the characters from ['0'] on. *)
Definition toy_decode (t : list Z) : string :=
  String.string_of_list_ascii
    ((λ x, Ascii.ascii_of_nat (Z.to_nat (if x <? 32 then x + 48 else x)))
       <$> t).

(** An instance whose pad and end-of-sequence tokens are [0] and [3]. *)
Definition toy_utils_gen : PFUtils :=
  {| config := toy_config; pad_id := 0; eos_id := 3; hashtable := [2; 0; 1] |}.

(** An instance with the same tokenizer, [max_seq_len], pad and
    end-of-sequence tokens, and another key, seed, window, payload, strategy
    and table. *)
Definition toy_utils_gen_additive : PFUtils :=
  {| config := {| payload := 3;
                  salt_key := 7;
                  ngram := 2;
                  seed := 1;
                  seeding := "additive";
                  max_seq_len := 1024;
                  generation_tokenizer := toy_tokenizer |};
     pad_id := 0; eos_id := 3; hashtable := [1; 0] |}.

(** ** Proof steps for the two monads *)

Ltac unfold_M := unfold mbind, M_bind, m_bind, mret, M_ret, m_ret, lift.
Ltac unfold_res := unfold mbind, res_mbind.

(** ** Sequence primitives *)

Lemma py_slice_length_same {A B} (l1 : list A) (l2 : list B) start stop :
  length l1 = length l2 →
  length (py_slice l1 start stop) = length (py_slice l2 start stop).
Proof.
  intros Hlen. unfold py_slice.
  rewrite !length_take, !length_drop, Hlen. reflexivity.
Qed.

Lemma py_slice_length_in {A} (l : list A) (a b : Z) :
  0 ≤ a → a ≤ b → b ≤ Z.of_nat (length l) →
  length (py_slice l (Some a) (Some b)) = Z.to_nat (b - a).
Proof.
  intros Ha Hab Hb. unfold py_slice, clamp_index. simpl.
  rewrite length_take, length_drop.
  destruct (Z.ltb_spec a 0), (Z.ltb_spec b 0); lia.
Qed.

Lemma py_slice_prefix_length {A} (l : list A) (n : Z) :
  0 ≤ n →
  length (py_slice l None (Some n)) = Nat.min (Z.to_nat n) (length l).
Proof.
  intros Hn. unfold py_slice, clamp_index. simpl.
  rewrite length_take, drop_0.
  destruct (Z.ltb_spec n 0); lia.
Qed.

Lemma py_index_in {A} (l : list A) (i : Z) :
  0 ≤ i → i < Z.of_nat (length l) → ∃ x, py_index l i = Ok x.
Proof.
  intros H0 Hlt. unfold py_index.
  assert ((i <? 0) = false) as Hi by lia. simpl. rewrite !Hi.
  destruct (l !! Z.to_nat i) as [x|] eqn:E; [by eexists|].
  apply lookup_ge_None in E. lia.
Qed.

Lemma py_index_0_cons {A} (x : A) (l : list A) : py_index (x :: l) 0 = Ok x.
Proof. reflexivity. Qed.

Lemma py_range_empty (start stop : Z) : stop ≤ start → py_range start stop = [].
Proof.
  intros Hle. unfold py_range. apply length_zero_iff_nil.
  rewrite length_seqZ. lia.
Qed.

Lemma py_range_length (start stop : Z) :
  length (py_range start stop) = Z.to_nat (stop - start).
Proof. unfold py_range. apply length_seqZ. Qed.

Lemma py_range_bounds (start stop : Z) :
  Forall (λ p, start ≤ p < stop) (py_range start stop).
Proof.
  unfold py_range. apply Forall_forall. intros p Hp.
  apply elem_of_seqZ in Hp. lia.
Qed.

Lemma roll_length {A} (shift : Z) (t : list A) : length (roll shift t) = length t.
Proof.
  unfold roll. rewrite length_app, length_drop, length_take. lia.
Qed.

(** ** The 'hash' seeding strategy *)

Section HashSeeding.
Variable utils : PFUtils.
Local Abbreviation k := (salt_key (config utils)).
Local Abbreviation MOD := (2 ^ 64 - 1).

Lemma hash_loop_spec (ids : list Z) (s : Z) :
  hash_loop utils ids s = hash_seed_spec s k ids.
Proof.
  revert s. induction ids as [|i ids IH]; intros s; [reflexivity|].
  simpl. apply IH.
Qed.

Lemma hash_loop_app (a b : list Z) (s : Z) :
  hash_loop utils (a ++ b) s = hash_loop utils b (hash_loop utils a s).
Proof.
  revert s. induction a as [|i a IH]; intros s; [reflexivity|].
  simpl. apply IH.
Qed.

Lemma hash_loop_range (ids : list Z) (s : Z) :
  ids ≠ [] → 0 ≤ hash_loop utils ids s < MOD.
Proof.
  destruct ids as [|i ids]; [done|]. intros _.
  revert i s. induction ids as [|j ids IH]; intros i s.
  - simpl. apply Z.mod_pos_bound. lia.
  - change (0 ≤ hash_loop utils (j :: ids) ((s * k + i) `mod` MOD) < MOD).
    apply IH.
Qed.

Lemma mod_step_congr (s s' i : Z) :
  s `mod` MOD = s' `mod` MOD →
  (s * k + i) `mod` MOD = (s' * k + i) `mod` MOD.
Proof.
  intros Hs.
  rewrite <- (Z.add_mod_idemp_l (s * k)), <- (Z.mul_mod_idemp_l s) by lia.
  rewrite Hs.
  rewrite Z.mul_mod_idemp_l, Z.add_mod_idemp_l by lia. reflexivity.
Qed.

Lemma hash_loop_horner_congr (ids : list Z) (s s' : Z) :
  s `mod` MOD = s' `mod` MOD →
  hash_loop utils ids s `mod` MOD = horner k ids s' `mod` MOD.
Proof.
  revert s s'. induction ids as [|i ids IH]; intros s s' Hs; [exact Hs|].
  simpl. apply IH. rewrite Z.mod_mod by lia. by apply mod_step_congr.
Qed.

(** For a non-empty context the seed is the exact polynomial value, computed
    on unbounded integers, reduced once modulo [2^64 - 1]. *)
Lemma hash_loop_horner (ids : list Z) (s : Z) :
  ids ≠ [] → hash_loop utils ids s = horner k ids s `mod` MOD.
Proof.
  intros Hne. rewrite <- (hash_loop_horner_congr ids s s eq_refl).
  symmetry. apply Z.mod_small. by apply hash_loop_range.
Qed.

Lemma mod_eq_iff_sub (x y : Z) :
  x `mod` MOD = y `mod` MOD ↔ (x - y) `mod` MOD = 0.
Proof.
  split; intros Hxy.
  - rewrite Zminus_mod, Hxy, Z.sub_diag. reflexivity.
  - replace x with (y + (x - y)) by lia.
    rewrite Z.add_mod, Hxy, Z.add_0_r, Z.mod_mod by lia. reflexivity.
Qed.

(** Exchanging the last two tokens of a context changes the seed, unless
    [(a - b) * (salt_key - 1)] is a multiple of the modulus. *)
Lemma hash_loop_swap (p : list Z) (a b s : Z) :
  hash_loop utils (p ++ [a; b]) s = hash_loop utils (p ++ [b; a]) s ↔
  ((a - b) * (k - 1)) `mod` MOD = 0.
Proof.
  rewrite !hash_loop_app. set (s' := hash_loop utils p s).
  change (hash_loop utils [a; b] s')
    with (((s' * k + a) `mod` MOD * k + b) `mod` MOD).
  change (hash_loop utils [b; a] s')
    with (((s' * k + b) `mod` MOD * k + a) `mod` MOD).
  rewrite <- (Z.add_mod_idemp_l (_ `mod` _ * k) b) by lia.
  rewrite <- (Z.add_mod_idemp_l (_ `mod` _ * k) a) by lia.
  rewrite !Z.mul_mod_idemp_l by lia.
  rewrite !Z.add_mod_idemp_l by lia.
  rewrite mod_eq_iff_sub.
  replace ((s' * k + a) * k + b - ((s' * k + b) * k + a))
    with ((a - b) * (k - 1)) by ring.
  reflexivity.
Qed.

End HashSeeding.

(** C7.  Under the 'hash' strategy the seed of a context window is the
    left-to-right fold from the base seed in which a token [t] turns the
    accumulator [s] into [(s * salt_key + t) mod (2^64 - 1)].  The arithmetic
    is exact: for a non-empty window the seed is the polynomial value computed
    on unbounded integers and reduced modulo [2^64 - 1].  The seed depends on
    the order of the window: exchanging its last two tokens [a] and [b]
    changes it, except when [(a - b) * (salt_key - 1)] is a multiple of
    [2^64 - 1]. *)
Theorem get_seed_rng_hash (utils : PFUtils) (context : list Z) :
  seeding (config utils) = "hash" →
  get_seed_rng utils context
    = Ok (hash_seed_spec (seed (config utils)) (salt_key (config utils)) context)
  ∧ (context ≠ [] →
     hash_seed_spec (seed (config utils)) (salt_key (config utils)) context
       = horner (salt_key (config utils)) context (seed (config utils))
           `mod` (2 ^ 64 - 1))
  ∧ (∀ (p : list Z) (a b : Z),
       get_seed_rng utils (p ++ [a; b]) = get_seed_rng utils (p ++ [b; a])
       ↔ ((a - b) * (salt_key (config utils) - 1)) `mod` (2 ^ 64 - 1) = 0).
Proof.
  intros Hhash.
  assert (∀ ids, get_seed_rng utils ids
                 = Ok (hash_loop utils ids (seed (config utils)))) as Heq.
  { intros ids. unfold get_seed_rng, cfg. rewrite Hhash. reflexivity. }
  split; [|split].
  - rewrite Heq, hash_loop_spec. reflexivity.
  - intros Hne. rewrite <- hash_loop_spec. by apply hash_loop_horner.
  - intros p a b. rewrite !Heq, <- hash_loop_swap.
    split; [by intros [= ->] | by intros ->].
Qed.

Lemma get_seed_rng_hash_witness :
  seeding (config toy_utils) = "hash"
  ∧ (get_seed_rng toy_utils [1; 2; 3; 4]
       = Ok (hash_seed_spec 42 15485863 [1; 2; 3; 4])
     ∧ ([1; 2; 3; 4] ≠ [] →
        hash_seed_spec 42 15485863 [1; 2; 3; 4]
          = horner 15485863 [1; 2; 3; 4] 42 `mod` (2 ^ 64 - 1))
     ∧ (∀ (p : list Z) (a b : Z),
          get_seed_rng toy_utils (p ++ [a; b])
            = get_seed_rng toy_utils (p ++ [b; a])
          ↔ ((a - b) * (15485863 - 1)) `mod` (2 ^ 64 - 1) = 0)).
Proof.
  split; [reflexivity|].
  apply (get_seed_rng_hash toy_utils [1; 2; 3; 4]). reflexivity.
Defined.

Example hash_seed_value_example :
  get_seed_rng toy_utils [1; 2; 3; 4] = Ok 4481735200407599065.
Proof. vm_compute. reflexivity. Qed.

Example hash_seed_order_example :
  get_seed_rng toy_utils [1; 2; 4; 3] ≠ get_seed_rng toy_utils [1; 2; 3; 4].
Proof. vm_compute. discriminate. Qed.

(** ** Scoring under the 'hash' strategy *)

Section ScoringHash.
Context `{Numeric}.
Variable utils : PFUtils.
Hypothesis Hhash : seeding (config utils) = "hash".
Hypothesis Hvocab : 0 ≤ V utils.

Lemma hash_seed_of_loop (ids : list Z) :
  get_seed_rng utils ids = Ok (hash_loop utils ids (seed (config utils))).
Proof. unfold get_seed_rng, cfg. rewrite Hhash. reflexivity. Qed.

Lemma seed_ok_hash_loop (ids : list Z) (s : Z) :
  ids ≠ [] → seed_ok (hash_loop utils ids s) = true.
Proof.
  intros Hne. pose proof (hash_loop_range utils ids s Hne) as Hr.
  unfold seed_ok. apply andb_true_intro. split; lia.
Qed.

Lemma score_tok_hash (ngram_tokens : list Z) (token_id : Z) (g : Gen) :
  ngram_tokens ≠ [] →
  score_tok utils ngram_tokens token_id g
    = (Ok (seeded_scores utils
             (hash_loop utils ngram_tokens (seed (config utils))) token_id),
       (gen_rand (V utils)
          (gen_seed (hash_loop utils ngram_tokens (seed (config utils))))).2).
Proof.
  intros Hne. unfold score_tok. unfold_M.
  rewrite hash_seed_of_loop. unfold manual_seed.
  rewrite seed_ok_hash_loop by done. unfold rand.
  assert ((V utils <? 0) = false) as -> by lia.
  unfold seeded_scores.
  destruct (gen_rand _ _) as [rs g']. reflexivity.
Qed.

Lemma seeded_scores_length (s token_id : Z) :
  length (seeded_scores utils s token_id) = Z.to_nat (V utils).
Proof.
  unfold seeded_scores. rewrite length_fmap, roll_length, !length_fmap.
  pose proof (gen_rand_length (V utils) (gen_seed s) Hvocab). lia.
Qed.

Lemma window_nonempty (tokens : list Z) (p : Z) :
  0 < ngram (config utils) →
  ngram (config utils) < p < Z.of_nat (length tokens) →
  window utils tokens p ≠ [].
Proof.
  intros Hn Hp Hnil. apply (f_equal length) in Hnil.
  unfold window in Hnil. rewrite py_slice_length_in in Hnil by lia.
  simpl in Hnil. lia.
Qed.

Lemma score_at_length (payload_max : Z) (tokens : list Z) (p : Z) :
  0 ≤ p < Z.of_nat (length tokens) →
  0 ≤ payload_max + 1 →
  length (score_at utils payload_max tokens p)
    = Nat.min (Z.to_nat (payload_max + 1)) (Z.to_nat (V utils)).
Proof.
  intros Hp Hpm. unfold score_at.
  destruct (py_index_in tokens p) as [t ->]; [lia..|].
  rewrite py_slice_prefix_length, seeded_scores_length by done. reflexivity.
Qed.

Lemma score_positions_hash (scoring_method : string) (payload_max : Z)
    (tokens positions : list Z) (seen : gset (list Z)) (rts : list (list F))
    (g : Gen) :
  0 < ngram (config utils) →
  Forall (λ p, ngram (config utils) < p < Z.of_nat (length tokens)) positions →
  ∃ g', score_positions utils scoring_method payload_max tokens positions
                        seen rts g
        = (Ok (rts ++ (score_at utils payload_max tokens <$>
                         kept utils scoring_method tokens positions seen)),
           g').
Proof.
  intros Hn. revert seen rts g.
  induction positions as [|p ps IH]; intros seen rts g Hall.
  - exists g. simpl. rewrite app_nil_r. reflexivity.
  - apply Forall_cons in Hall as [Hp Hall].
    cbn [score_positions kept]. unfold cfg.
    change (py_slice tokens (Some (p - ngram (config utils))) (Some p))
      with (window utils tokens p).
    destruct (dedup_step scoring_method tokens (window utils tokens p) p seen)
      as [[|] seen'].
    + by apply IH.
    + destruct (py_index_in tokens p) as [t Ht]; [lia..|].
      unfold_M. rewrite Ht.
      rewrite score_tok_hash by (apply window_nonempty; done).
      destruct (IH seen' (rts ++
                  [py_slice (seeded_scores utils
                     (hash_loop utils (window utils tokens p)
                        (seed (config utils))) t)
                     None (Some (payload_max + 1))])
                  (gen_rand (V utils)
                     (gen_seed (hash_loop utils (window utils tokens p)
                        (seed (config utils))))).2 Hall) as [g' Hg'].
      exists g'. rewrite Hg'. rewrite <- app_assoc. simpl.
      unfold score_at at 2. rewrite Ht. reflexivity.
Qed.

Lemma score_text_hash (scoring_method : string) (payload_max : Z)
    (tokens : list Z) (g : Gen) :
  0 < ngram (config utils) →
  ∃ g', score_text utils scoring_method payload_max tokens g
        = (Ok (text_scores utils scoring_method payload_max tokens), g').
Proof.
  intros Hn. unfold score_text, text_scores, cfg.
  destruct (score_positions_hash scoring_method payload_max tokens
              (py_range (ngram (config utils) + 1) (Z.of_nat (length tokens)))
              ∅ [] g Hn) as [g' Hg'].
  - eapply Forall_impl; [apply py_range_bounds|]. simpl. lia.
  - exists g'. rewrite Hg'. reflexivity.
Qed.

Lemma m_mapM_score_text (scoring_method : string) (payload_max : Z)
    (tokens_id : list (list Z)) (g : Gen) :
  0 < ngram (config utils) →
  ∃ g', m_mapM (score_text utils scoring_method payload_max) tokens_id g
        = (Ok (text_scores utils scoring_method payload_max <$> tokens_id), g').
Proof.
  intros Hn. revert g. induction tokens_id as [|x xs IH]; intros g.
  - exists g. reflexivity.
  - cbn [m_mapM]. unfold_M.
    destruct (score_text_hash scoring_method payload_max x g Hn) as [g1 ->].
    destruct (IH g1) as [g2 ->]. exists g2. reflexivity.
Qed.

Lemma get_scores_by_t_hash (texts : list string) (scoring_method : string)
    (ntoks_max : option Z) (payload_max : Z) (g : Gen) :
  0 < ngram (config utils) →
  ∃ g', get_scores_by_t utils texts scoring_method ntoks_max payload_max g
        = (Ok ((λ text, text_scores utils scoring_method payload_max
                          (text_tokens utils ntoks_max text)) <$> texts),
           g').
Proof.
  intros Hn. unfold get_scores_by_t, cfg.
  destruct (m_mapM_score_text scoring_method payload_max
              (match ntoks_max with
               | Some n => fmap (λ x, py_slice x None (Some n))
                             (fmap (encode (generation_tokenizer (config utils)))
                                texts)
               | None => fmap (encode (generation_tokenizer (config utils))) texts
               end) g Hn) as [g' Hg'].
  exists g'. rewrite Hg'. f_equal. f_equal.
  unfold text_tokens. destruct ntoks_max; rewrite <- ?list_fmap_compose; done.
Qed.

End ScoringHash.

(** ** The deduplication policies *)

Section Dedup.
Variable utils : PFUtils.

Lemma kept_none (tokens positions : list Z) (seen : gset (list Z)) :
  kept utils "none" tokens positions seen = positions.
Proof.
  revert seen. induction positions as [|p ps IH]; intros seen; [reflexivity|].
  cbn [kept]. unfold dedup_step. simpl. by rewrite IH.
Qed.

Lemma kept_Forall (P : Z → Prop) (scoring_method : string)
    (tokens positions : list Z) (seen : gset (list Z)) :
  Forall P positions →
  Forall P (kept utils scoring_method tokens positions seen).
Proof.
  revert seen. induction positions as [|p ps IH]; intros seen Hall; [done|].
  apply Forall_cons in Hall as [Hp Hall]. cbn [kept].
  destruct (dedup_step _ _ _ _ _) as [[|] seen']; [by apply IH|].
  apply Forall_cons. split; [done | by apply IH].
Qed.

(** Under 'v1' a position is scored exactly when its window is new: the
    scored positions are as many as the distinct windows not seen before. *)
Lemma kept_v1_length (tokens positions : list Z) (seen : gset (list Z)) :
  length (kept utils "v1" tokens positions seen)
    = size (list_to_set (window utils tokens <$> positions) ∖ seen).
Proof.
  revert seen. induction positions as [|p ps IH]; intros seen.
  - simpl. replace (∅ ∖ seen) with (∅ : gset (list Z)) by set_solver.
    by rewrite size_empty.
  - cbn [kept]. unfold dedup_step. simpl String.eqb. cbv iota.
    rewrite fmap_cons, list_to_set_cons.
    set (w := window utils tokens p).
    set (ws := list_to_set (window utils tokens <$> ps) : gset (list Z)).
    destruct (decide (w ∈ seen)) as [Hin|Hnin].
    + rewrite IH. fold ws. f_equal. set_solver.
    + cbn [length]. rewrite IH. fold ws.
      assert (({[w]} ∪ ws) ∖ seen = {[w]} ∪ ws ∖ (seen ∪ {[w]})) as ->.
      { apply set_eq. intros x. destruct (decide (x = w)); set_solver. }
      rewrite (size_union (C:=gset (list Z)) {[w]}) by set_solver.
      by rewrite size_singleton.
Qed.

End Dedup.

(** ** Aggregation *)

Section Aggregation.
Context `{Numeric}.

Lemma same_size_Forall (v : list F) (vs : list (list F)) :
  same_size (v :: vs) = true → Forall (λ w, length w = length v) vs.
Proof.
  simpl. intros Hall. apply Forall_forall. intros w Hw.
  rewrite forallb_forall in Hall.
  apply Nat.eqb_eq, Hall, list_elem_of_In, Hw.
Qed.

Lemma column_cons_Some (j : nat) (v : list F) (vs : list (list F)) (x : F) :
  v !! j = Some x → column j (v :: vs) = x :: column j vs.
Proof. intros Hx. unfold column. simpl. by rewrite Hx. Qed.

Lemma py_sum_tensor (vs : list (list F)) (a : list F) :
  Forall (λ w, length w = length a) vs →
  ∃ t, py_sum vs (STensor a) = Ok (STensor t)
       ∧ length t = length a
       ∧ ∀ j x, a !! j = Some x → t !! j = Some (foldl fadd x (column j vs)).
Proof.
  revert a. induction vs as [|w vs IH]; intros a Hall.
  - exists a. simpl. eauto.
  - apply Forall_cons in Hall as [Hw Hall].
    cbn [py_sum]. unfold mbind, res_mbind, res_bind, score_add.
    rewrite decide_True by done.
    assert (length (zip_with fadd a w) = length a) as Hlen.
    { rewrite length_zip_with. lia. }
    destruct (IH (zip_with fadd a w)) as (t & Ht & Hlt & Hcol).
    { eapply Forall_impl; [exact Hall|]. simpl. intros; congruence. }
    exists t. split; [exact Ht|]. split; [congruence|].
    intros j x Hx.
    destruct (lookup_lt_is_Some_2 w j) as [y Hy].
    { rewrite Hw. eapply lookup_lt_Some, Hx. }
    rewrite (column_cons_Some j w vs y Hy). simpl.
    apply Hcol. rewrite lookup_zip_with, Hx. simpl. by rewrite Hy.
Qed.

Lemma aggregate_text (scores : list (list F)) :
  same_size scores = true →
  ∃ sc, (if decide (length scores = 0%nat) then Ok (SInt 0)
         else py_sum scores (SInt 0)) = Ok sc
        ∧ match scores with
          | [] => sc = SInt 0
          | v :: _ =>
            ∃ t, sc = STensor t ∧ length t = length v
                 ∧ ∀ j, (j < length v)%nat → t !! j = column_sum j scores
          end.
Proof.
  intros Hsame. destruct scores as [|v vs].
  - exists (SInt 0). split; reflexivity.
  - apply same_size_Forall in Hsame.
    rewrite decide_False by done.
    cbn [py_sum]. unfold mbind, res_mbind, res_bind, score_add.
    destruct (py_sum_tensor vs ((λ x, fadd x (f_of_Z 0)) <$> v))
      as (t & Ht & Hlt & Hcol).
    { eapply Forall_impl; [exact Hsame|]. simpl. intros w ->.
      by rewrite length_fmap. }
    rewrite length_fmap in Hlt.
    exists (STensor t). split; [exact Ht|].
    exists t. split; [reflexivity|]. split; [exact Hlt|].
    intros j Hj. destruct (lookup_lt_is_Some_2 v j Hj) as [x Hx].
    unfold column_sum. rewrite (column_cons_Some j v vs x Hx).
    apply Hcol. rewrite list_lookup_fmap, Hx. reflexivity.
Qed.

(** C8.  [get_scores] raises no error and returns one aggregate per text:
    the integer [0] for a text with no scored position, and otherwise the
    tensor whose entry [j] is the left-to-right sum of the entries [j] of the
    score vectors of the text. *)
Theorem get_scores_elementwise (score_lists : list (list (list F))) :
  forallb same_size score_lists = true →
  ∃ test_scores,
    get_scores score_lists = Ok test_scores
    ∧ length test_scores = length score_lists
    ∧ ∀ (i : nat) (scores : list (list F)),
        score_lists !! i = Some scores →
        match scores with
        | [] => test_scores !! i = Some (SInt 0)
        | v :: _ =>
          ∃ t, test_scores !! i = Some (STensor t)
               ∧ length t = length v
               ∧ ∀ j, (j < length v)%nat → t !! j = column_sum j scores
        end.
Proof.
  unfold get_scores.
  induction score_lists as [|s ss IH]; intros Hall.
  - exists []. split; [reflexivity|]. split; [reflexivity|].
    intros i scores Hi. by rewrite lookup_nil in Hi.
  - simpl in Hall. apply andb_prop in Hall as [Hs Hss].
    destruct (aggregate_text s Hs) as (sc & Hsc & Hshape).
    destruct (IH Hss) as (out & Hout & Hlen & Hrest).
    exists (sc :: out). cbn [res_mapM].
    unfold mbind, res_mbind, res_bind at 1. rewrite Hsc.
    unfold res_bind at 1. rewrite Hout.
    split; [reflexivity|]. split; [simpl; congruence|].
    intros [|i] scores Hi.
    + injection Hi as <-. destruct s as [|v vs]; simpl.
      * by rewrite Hshape.
      * destruct Hshape as (t & -> & Ht). by exists t.
    + apply (Hrest i scores Hi).
Qed.

End Aggregation.

Lemma get_scores_elementwise_witness :
  forallb same_size
    [[]; [[TFin 1; TFin 2]; [TFin 10; TFin 20]; [TFin 100; TFin 200]]] = true
  ∧ ∃ test_scores,
      get_scores
        [[]; [[TFin 1; TFin 2]; [TFin 10; TFin 20]; [TFin 100; TFin 200]]]
        = Ok test_scores
      ∧ length test_scores
        = length [[]; [[TFin 1; TFin 2]; [TFin 10; TFin 20];
                       [TFin 100; TFin 200]]]
      ∧ ∀ (i : nat) (scores : list (list F)),
          [[]; [[TFin 1; TFin 2]; [TFin 10; TFin 20]; [TFin 100; TFin 200]]]
            !! i = Some scores →
          match scores with
          | [] => test_scores !! i = Some (SInt 0)
          | v :: _ =>
            ∃ t, test_scores !! i = Some (STensor t)
                 ∧ length t = length v
                 ∧ ∀ j, (j < length v)%nat → t !! j = column_sum j scores
          end.
Proof.
  split; [reflexivity|].
  apply (get_scores_elementwise (H:=toy_numeric)
           [[]; [[TFin 1; TFin 2]; [TFin 10; TFin 20]; [TFin 100; TFin 200]]]).
  reflexivity.
Defined.

Example get_scores_value :
  get_scores [[]; [[TFin 1; TFin 2]; [TFin 10; TFin 20]; [TFin 100; TFin 200]]]
  = Ok [SInt 0; STensor [TFin 111; TFin 222]].
Proof. vm_compute. reflexivity. Qed.


(** ** Detection under the 'hash' strategy *)

Section DetectionHash.
Context `{Numeric}.
Variable utils : PFUtils.
Hypothesis Hhash : seeding (config utils) = "hash".
Hypothesis Hvocab : 0 ≤ V utils.
Hypothesis Hngram : 0 < ngram (config utils).

Lemma get_scores_total (score_lists : list (list (list F))) :
  forallb same_size score_lists = true →
  ∃ test_scores, get_scores score_lists = Ok test_scores.
Proof.
  unfold get_scores. induction score_lists as [|s ss IH]; intros Hall.
  - by exists [].
  - simpl in Hall. apply andb_prop in Hall as [Hs Hss].
    destruct (aggregate_text s Hs) as (sc & Hsc & _).
    destruct (IH Hss) as (out & Hout).
    exists (sc :: out). cbn [res_mapM].
    unfold mbind, res_mbind, res_bind at 1. rewrite Hsc.
    unfold res_bind at 1. by rewrite Hout.
Qed.

Lemma text_scores_positions (scoring_method : string) (tokens : list Z) :
  Forall (λ p, 0 ≤ p < Z.of_nat (length tokens))
    (kept utils scoring_method tokens
       (py_range (ngram (config utils) + 1) (Z.of_nat (length tokens))) ∅).
Proof.
  apply kept_Forall. eapply Forall_impl; [apply py_range_bounds|].
  simpl. lia.
Qed.

Lemma text_scores_entry_length (scoring_method : string) (tokens : list Z)
    (v : list F) :
  v ∈ text_scores utils scoring_method 0 tokens →
  length v = Nat.min 1 (Z.to_nat (V utils)).
Proof.
  unfold text_scores. intros Hv.
  apply list_elem_of_fmap in Hv as (p & -> & Hp).
  pose proof (text_scores_positions scoring_method tokens) as Hall.
  rewrite Forall_forall in Hall.
  rewrite (score_at_length utils Hvocab 0 tokens p); [done| by apply Hall |lia].
Qed.

Lemma text_scores_same_size (scoring_method : string) (tokens : list Z) :
  same_size (text_scores utils scoring_method 0 tokens) = true.
Proof.
  pose proof (text_scores_entry_length scoring_method tokens) as Hlen.
  destruct (text_scores utils scoring_method 0 tokens) as [|v vs];
    [reflexivity|].
  simpl. apply forallb_forall. intros w Hw. apply Nat.eqb_eq.
  rewrite (Hlen w), (Hlen v); [done|by left|].
  right. by apply list_elem_of_In.
Qed.

Lemma all_text_scores_same_size (scoring_method : string)
    (tokens_id : list (list Z)) :
  forallb same_size (text_scores utils scoring_method 0 <$> tokens_id) = true.
Proof.
  induction tokens_id as [|x xs IH]; [reflexivity|].
  rewrite fmap_cons. simpl. by rewrite text_scores_same_size, IH.
Qed.

(** What [detect_watermark] returns on a non-empty list of texts: the
    decision for the first text, with the number of its score vectors in the
    place of [n_tokens]. *)
Lemma detect_watermark_hash (t : string) (rest : list string) (alpha : F)
    (scoring_method : string) (ntoks_max : option Z) (g : Gen) :
  (detect_watermark utils (t :: rest) alpha scoring_method ntoks_max g).1
    = let scores0 :=
        text_scores utils "none" 0 (text_tokens utils ntoks_max t) in
      decide_with scores0
        (get_threshold utils (Z.of_nat (length scores0)) alpha).
Proof.
  unfold detect_watermark, mbind, M_bind, m_bind.
  destruct (get_scores_by_t_hash utils Hhash Hvocab (t :: rest) "none"
              ntoks_max 0 g Hngram) as [g' ->].
  rewrite fmap_cons.
  set (scores0 := text_scores utils "none" 0 (text_tokens utils ntoks_max t)).
  set (others := (λ text, text_scores utils "none" 0
                            (text_tokens utils ntoks_max text)) <$> rest).
  destruct (get_scores_total others) as [ys Hys].
  { replace others with (text_scores utils "none" 0 <$>
                           (text_tokens utils ntoks_max <$> rest))
      by (by rewrite <- list_fmap_compose).
    apply all_text_scores_same_size. }
  unfold lift, decide_with, get_scores in *. cbn [res_mapM].
  unfold mbind, res_mbind.
  destruct (if decide (length scores0 = 0%nat) then Ok (SInt 0)
            else py_sum scores0 (SInt 0)) as [y|e]; [|reflexivity].
  unfold res_bind at 1 2. rewrite Hys. cbn [res_bind]. cbn zeta.
  rewrite !py_index_0_cons.
  unfold res_bind.
  destruct (score_gt y _) as [b|e]; reflexivity.
Qed.

Lemma decide_with_text_scores (tokens : list Z) (threshold : F) :
  1 ≤ V utils →
  ∃ d, (d = 0 ∨ d = 1)
       ∧ decide_with (text_scores utils "none" 0 tokens) threshold = Ok d.
Proof.
  intros HV.
  pose proof (text_scores_entry_length "none" tokens) as Hlen.
  destruct (aggregate_text _ (text_scores_same_size "none" tokens))
    as (sc & Hsc & Hshape).
  unfold decide_with, mbind, res_mbind. rewrite Hsc. cbn [res_bind].
  destruct (text_scores utils "none" 0 tokens) as [|v vs].
  - subst sc. simpl.
    destruct (fgtb _ _); eexists; (split; [|reflexivity]); auto.
  - destruct Hshape as (t & -> & Ht & _).
    rewrite (Hlen v) in Ht by apply list_elem_of_here.
    assert (length t = 1%nat) as Ht1 by lia.
    destruct t as [|x [|]]; [done| |done].
    simpl. destruct (fgtb _ _); eexists; (split; [|reflexivity]); auto.
Qed.

End DetectionHash.

(** ** The generator state does not enter the scores *)

Section StateFree.
Context `{Numeric}.
Variable utils : PFUtils.

(** [score_tok] seeds the generator before it draws: a call that returns
    leaves the same result and the same state whatever the state before,
    and a call that raises raises the same exception. *)
Lemma score_tok_state_free (ngram_tokens : list Z) (token_id : Z)
    (g1 g2 : Gen) :
  (score_tok utils ngram_tokens token_id g1).1
    = (score_tok utils ngram_tokens token_id g2).1
  ∧ (∀ v, (score_tok utils ngram_tokens token_id g1).1 = Ok v →
          score_tok utils ngram_tokens token_id g1
          = score_tok utils ngram_tokens token_id g2).
Proof.
  unfold score_tok. unfold_M.
  destruct (get_seed_rng utils ngram_tokens) as [s|e]; [|by split].
  unfold manual_seed. destruct (seed_ok s); by split.
Qed.

Lemma score_positions_state_free (scoring_method : string) (payload_max : Z)
    (tokens positions : list Z) (seen : gset (list Z)) (rts : list (list F))
    (g1 g2 : Gen) :
  (score_positions utils scoring_method payload_max tokens positions
                   seen rts g1).1
  = (score_positions utils scoring_method payload_max tokens positions
                     seen rts g2).1.
Proof.
  revert seen rts g1 g2.
  induction positions as [|p ps IH]; intros seen rts g1 g2; [reflexivity|].
  cbn [score_positions].
  destruct (dedup_step _ _ _ _ _) as [[|] seen']; [apply IH|].
  unfold_M.
  destruct (py_index tokens p) as [t|e]; [|reflexivity].
  destruct (score_tok_state_free
              (py_slice tokens (Some (p - ngram (cfg utils))) (Some p))
              t g1 g2) as [Hres Hsame].
  destruct (score_tok utils _ t g1) as [[v|e] g1'] eqn:E1.
  - rewrite <- (Hsame v eq_refl). reflexivity.
  - destruct (score_tok utils _ t g2) as [[v|e'] g2']; simpl in Hres;
      [discriminate | by injection Hres as <-].
Qed.

Lemma score_text_state_free (scoring_method : string) (payload_max : Z)
    (tokens : list Z) (g1 g2 : Gen) :
  (score_text utils scoring_method payload_max tokens g1).1
  = (score_text utils scoring_method payload_max tokens g2).1.
Proof. apply score_positions_state_free. Qed.

Lemma get_scores_by_t_tokens (texts : list string) (scoring_method : string)
    (ntoks_max : option Z) (payload_max : Z) :
  get_scores_by_t utils texts scoring_method ntoks_max payload_max
  = m_mapM (score_text utils scoring_method payload_max)
           (text_tokens utils ntoks_max <$> texts).
Proof.
  unfold get_scores_by_t, text_tokens, cfg. f_equal.
  destruct ntoks_max; [|reflexivity].
  by rewrite <- list_fmap_compose.
Qed.

(** Whenever [detect_watermark] returns on a list of texts, under any
    seeding strategy, the value is [0] or [1] and is the one it returns on
    the first text alone, from any state of the generator. *)
Lemma detect_watermark_later_texts (t : string) (rest : list string)
    (alpha : F) (scoring_method : string) (ntoks_max : option Z)
    (g g' : Gen) (d : Z) :
  (detect_watermark utils (t :: rest) alpha scoring_method ntoks_max g).1
    = Ok d →
  (d = 0 ∨ d = 1)
  ∧ (detect_watermark utils [t] alpha scoring_method ntoks_max g').1 = Ok d.
Proof.
  unfold detect_watermark. rewrite !get_scores_by_t_tokens.
  rewrite !fmap_cons, fmap_nil. cbn [m_mapM].
  unfold_M.
  pose proof (score_text_state_free "none" 0
                (text_tokens utils ntoks_max t) g g') as Hfree.
  destruct (score_text utils "none" 0 (text_tokens utils ntoks_max t) g)
    as [[s0|e] g0]; [|by intros [=]].
  destruct (score_text utils "none" 0 (text_tokens utils ntoks_max t) g')
    as [[s0'|e] g0']; simpl in Hfree; [|discriminate].
  injection Hfree as <-.
  destruct (m_mapM _ _ g0) as [[ss|e] g1]; [|by intros [=]].
  unfold get_scores. cbn [res_mapM].
  unfold mbind, res_mbind.
  destruct (if decide (length s0 = 0%nat) then Ok (SInt 0)
            else py_sum s0 (SInt 0)) as [y|e]; [|by intros [=]].
  cbn [res_bind].
  destruct (res_mapM _ ss) as [ys|e]; [|by intros [=]].
  cbn [res_bind]. rewrite !py_index_0_cons.
  destruct (score_gt y _) as [[|]|e]; simpl; [| |by intros [=]];
    intros [= <-]; auto.
Qed.

End StateFree.

(** ** Properties of detection *)

(** C1, as the code has it.  On a non-empty list of texts [detect_watermark]
    returns one decision, [0] or [1], and not one per text: it is the decision
    for the first text, computed from the scores of the first text alone, and
    the texts that follow have no influence on it. *)
Theorem detect_watermark_first_text {N : Numeric} (utils : PFUtils) (t : string)
    (alpha : F) (ntoks_max : option Z) :
  seeding (config utils) = "hash" →
  0 < ngram (config utils) →
  1 ≤ V utils →
  ∃ d : Z,
    (d = 0 ∨ d = 1)
    ∧ decide_with
        (text_scores utils "none" 0 (text_tokens utils ntoks_max t))
        (get_threshold utils
           (Z.of_nat (length (text_scores utils "none" 0
                                (text_tokens utils ntoks_max t))))
           alpha) = Ok d
    ∧ ∀ (rest : list string) (scoring_method : string) (g : Gen),
        (detect_watermark utils (t :: rest) alpha scoring_method ntoks_max g).1
          = Ok d.
Proof.
  intros Hhash Hngram HV.
  assert (0 ≤ V utils) as Hvocab by lia.
  destruct (decide_with_text_scores utils Hvocab Hngram
              (text_tokens utils ntoks_max t)
              (get_threshold utils
                 (Z.of_nat (length (text_scores utils "none" 0
                                      (text_tokens utils ntoks_max t))))
                 alpha) HV) as (d & Hd & Hdec).
  exists d. split; [exact Hd|]. split; [exact Hdec|].
  intros rest scoring_method g.
  rewrite (detect_watermark_hash utils Hhash Hvocab Hngram). exact Hdec.
Qed.

Lemma detect_watermark_first_text_witness :
  seeding (config toy_utils) = "hash"
  ∧ 0 < ngram (config toy_utils)
  ∧ 1 ≤ V toy_utils
  ∧ ∃ d : Z,
      (d = 0 ∨ d = 1)
      ∧ decide_with
          (text_scores toy_utils "none" 0
             (text_tokens toy_utils None "abcdefghij"))
          (get_threshold toy_utils
             (Z.of_nat (length (text_scores toy_utils "none" 0
                                  (text_tokens toy_utils None "abcdefghij"))))
             (TFin 10)) = Ok d
      ∧ ∀ (rest : list string) (scoring_method : string) (g : Gen),
          (detect_watermark toy_utils ("abcdefghij" :: rest) (TFin 10)
                            scoring_method None g).1 = Ok d.
Proof.
  split; [reflexivity|]. split; [reflexivity|]. split; [vm_compute; discriminate|].
  apply (detect_watermark_first_text (N:=toy_numeric) toy_utils "abcdefghij" (TFin 10) None);
    [reflexivity | reflexivity | vm_compute; discriminate].
Defined.

(** The claim C1 fails on two texts: the value returned is the single
    decision [0] of the first text.  The second text, which [detect_watermark]
    decides as [1] when it comes alone, gets no decision, and another second
    text, decided as [0] alone, gives the same value. *)
Lemma detect_watermark_per_text_counterexample :
  (detect_watermark toy_utils ["abc"; "abcdefghij"] (TFin 10) "none" None 0).1
    = Ok 0
  ∧ (detect_watermark toy_utils ["abcdefghij"] (TFin 10) "none" None 0).1
    = Ok 1
  ∧ (detect_watermark toy_utils ["abc"; "abcdefghi"] (TFin 10) "none" None 0).1
    = Ok 0
  ∧ (detect_watermark toy_utils ["abcdefghi"] (TFin 10) "none" None 0).1
    = Ok 0.
Proof. vm_compute. auto. Qed.

(** C2, as the code has it.  The count that [detect_watermark] passes to
    [get_threshold] is the number of score vectors of the first text,
    [max 0 (n_tokens - ngram - 1)], and not [n_tokens]: the threshold is
    infinite up to [n_tokens = 2 * ngram + 1] and is the Gamma quantile of
    shape [n_tokens - 2 * ngram - 1] beyond. *)
Theorem detect_watermark_threshold {N : Numeric} (utils : PFUtils) (t : string)
    (rest : list string) (alpha : F) (scoring_method : string)
    (ntoks_max : option Z) (g : Gen) :
  seeding (config utils) = "hash" →
  0 < ngram (config utils) →
  0 ≤ V utils →
  let n_tokens := Z.of_nat (length (text_tokens utils ntoks_max t)) in
  let scores0 := text_scores utils "none" 0 (text_tokens utils ntoks_max t) in
  Z.of_nat (length scores0) = Z.max 0 (n_tokens - ngram (config utils) - 1)
  ∧ (detect_watermark utils (t :: rest) alpha scoring_method ntoks_max g).1
    = decide_with scores0
        (if n_tokens <=? 2 * ngram (config utils) + 1 then f_inf
         else gamma_ppf (fsub (f_of_Z 1) alpha)
                        (n_tokens - 2 * ngram (config utils) - 1)).
Proof.
  intros Hhash Hngram Hvocab n_tokens scores0.
  assert (Z.of_nat (length scores0)
          = Z.max 0 (n_tokens - ngram (config utils) - 1)) as Hlen.
  { subst scores0 n_tokens. unfold text_scores.
    rewrite length_fmap, kept_none, py_range_length. lia. }
  split; [exact Hlen|].
  rewrite (detect_watermark_hash utils Hhash Hvocab Hngram). cbn zeta.
  fold scores0. rewrite Hlen. f_equal.
  unfold get_threshold, cfg.
  destruct (Z.leb_spec (Z.max 0 (n_tokens - ngram (config utils) - 1))
                       (ngram (config utils)));
    destruct (Z.leb_spec n_tokens (2 * ngram (config utils) + 1));
    try lia; [reflexivity|].
  f_equal. lia.
Qed.

Lemma detect_watermark_threshold_witness :
  seeding (config toy_utils) = "hash"
  ∧ 0 < ngram (config toy_utils)
  ∧ 0 ≤ V toy_utils
  ∧ (let n_tokens :=
       Z.of_nat (length (text_tokens toy_utils None "abcdefghij")) in
     let scores0 :=
       text_scores toy_utils "none" 0
                   (text_tokens toy_utils None "abcdefghij") in
     Z.of_nat (length scores0)
       = Z.max 0 (n_tokens - ngram (config toy_utils) - 1)
     ∧ (detect_watermark toy_utils ["abcdefghij"] (TFin 10) "none" None 0).1
       = decide_with scores0
           (if n_tokens <=? 2 * ngram (config toy_utils) + 1 then f_inf
            else gamma_ppf (fsub (f_of_Z 1) (TFin 10))
                           (n_tokens - 2 * ngram (config toy_utils) - 1))).
Proof.
  split; [reflexivity|]. split; [reflexivity|]. split; [vm_compute; discriminate|].
  apply (detect_watermark_threshold (N:=toy_numeric) toy_utils "abcdefghij" [] (TFin 10)
           "none" None 0);
    [reflexivity | reflexivity | vm_compute; discriminate].
Defined.

(** Ten tokens with [ngram = 4]: five score vectors, so the shape in use is
    [5 - 4 = 1] where the claim has [10 - 4 = 6]; here the text passes the
    threshold of shape 1 and would not pass the one of shape 6. *)
Example ten_tokens_threshold_example :
  let scores0 :=
    text_scores toy_utils "none" 0 (text_tokens toy_utils None "abcdefghij") in
  length (text_tokens toy_utils None "abcdefghij") = 10%nat
  ∧ length scores0 = 5%nat
  ∧ get_threshold toy_utils 5 (TFin 10)
    = gamma_ppf (fsub (f_of_Z 1) (TFin 10)) 1
  ∧ (detect_watermark toy_utils ["abcdefghij"] (TFin 10) "none" None 0).1
    = Ok 1
  ∧ decide_with scores0 (gamma_ppf (fsub (f_of_Z 1) (TFin 10)) 1) = Ok 1
  ∧ decide_with scores0 (gamma_ppf (fsub (f_of_Z 1) (TFin 10)) 6) = Ok 0.
Proof. vm_compute. auto 10. Qed.

(** Nine tokens with [ngram = 4]: more tokens than [ngram], and yet the
    threshold in use is infinite. *)
Example nine_tokens_threshold_example :
  length (text_tokens toy_utils None "abcdefghi") = 9%nat
  ∧ get_threshold toy_utils
      (Z.of_nat (length (text_scores toy_utils "none" 0
                           (text_tokens toy_utils None "abcdefghi"))))
      (TFin 10) = f_inf.
Proof. vm_compute. auto. Qed.

(** C6.  A text with at most [ngram] tokens is never flagged: no position is
    scored, the aggregate is the integer [0], the threshold is infinite,
    which no score exceeds, and [detect_watermark] returns [0] without raising
    and without touching the generator, under every seeding strategy.  The
    same decision comes out when other texts follow it in the list (under
    the 'hash' strategy, where scoring them cannot raise). *)
Theorem detect_watermark_short_text {N : Numeric} (utils : PFUtils)
    (t : string) (alpha : F) (scoring_method : string) (ntoks_max : option Z)
    (g : Gen) :
  Z.of_nat (length (text_tokens utils ntoks_max t)) ≤ ngram (config utils) →
  detect_watermark utils [t] alpha scoring_method ntoks_max g = (Ok 0, g)
  ∧ get_threshold utils
      (Z.of_nat (length (text_tokens utils ntoks_max t))) alpha = f_inf
  ∧ get_threshold utils 0 alpha = f_inf
  ∧ (∀ score : F, fgtb score f_inf = false)
  ∧ (seeding (config utils) = "hash" → 0 < ngram (config utils) →
     0 ≤ V utils →
     ∀ (rest : list string) (g' : Gen),
       (detect_watermark utils (t :: rest) alpha scoring_method ntoks_max g').1
         = Ok 0).
Proof.
  intros Hshort.
  assert (0 ≤ ngram (config utils)) as Hn0 by lia.
  assert (get_scores_by_t utils [t] "none" ntoks_max 0 g = (Ok [[]], g))
    as Hscores.
  { unfold get_scores_by_t, cfg.
    assert ((match ntoks_max with
             | Some n => fmap (λ x, py_slice x None (Some n))
                           (fmap (encode (generation_tokenizer (config utils)))
                              [t])
             | None => fmap (encode (generation_tokenizer (config utils))) [t]
             end) = [text_tokens utils ntoks_max t]) as ->.
    { unfold text_tokens. by destruct ntoks_max. }
    cbn [m_mapM]. unfold mbind, M_bind, m_bind, score_text, cfg.
    rewrite py_range_empty by lia. reflexivity. }
  assert (∀ n, n ≤ ngram (config utils) → get_threshold utils n alpha = f_inf)
    as Hthr.
  { intros n Hle. unfold get_threshold, cfg.
    destruct (Z.leb_spec n (ngram (config utils))); [reflexivity | lia]. }
  split; [|split; [|split; [|split]]].
  - unfold detect_watermark, mbind, M_bind, m_bind. rewrite Hscores.
    unfold lift. simpl. rewrite Hthr by done. simpl.
    by rewrite fgtb_inf.
  - by apply Hthr.
  - by apply Hthr.
  - apply fgtb_inf.
  - intros Hhash Hngram Hvocab rest g'.
    rewrite (detect_watermark_hash utils Hhash Hvocab Hngram). cbn zeta.
    unfold text_scores. rewrite py_range_empty by lia. simpl.
    unfold decide_with. simpl. rewrite Hthr by done. simpl.
    by rewrite fgtb_inf.
Qed.

Lemma detect_watermark_short_text_witness :
  Z.of_nat (length (text_tokens toy_utils None "abcd"))
    ≤ ngram (config toy_utils)
  ∧ (detect_watermark toy_utils ["abcd"] (TFin 10) "none" None 0 = (Ok 0, 0)
     ∧ get_threshold toy_utils
         (Z.of_nat (length (text_tokens toy_utils None "abcd"))) (TFin 10)
       = f_inf
     ∧ get_threshold toy_utils 0 (TFin 10) = f_inf
     ∧ (∀ score : F, fgtb score f_inf = false)
     ∧ (seeding (config toy_utils) = "hash" → 0 < ngram (config toy_utils) →
        0 ≤ V toy_utils →
        ∀ (rest : list string) (g' : Gen),
          (detect_watermark toy_utils ("abcd" :: rest) (TFin 10) "none"
                            None g').1 = Ok 0)).
Proof.
  split; [vm_compute; discriminate|].
  apply (detect_watermark_short_text (N:=toy_numeric) toy_utils "abcd"
           (TFin 10) "none" None 0).
  vm_compute; discriminate.
Defined.

(** C10.  The argument [scoring_method] of [detect_watermark] has no effect:
    the call to [get_scores_by_t] does not pass it on, so the scores are
    those of the default policy 'none' whatever its value. *)
Theorem detect_watermark_scoring_method {N : Numeric} (utils : PFUtils)
    (text : list string) (alpha : F) (m1 m2 : string) (ntoks_max : option Z)
    (g : Gen) :
  detect_watermark utils text alpha m1 ntoks_max g
    = detect_watermark utils text alpha m2 ntoks_max g
  ∧ detect_watermark utils text alpha m1 ntoks_max g
    = (scores ← get_scores_by_t utils text "none" ntoks_max 0;
       score ← lift (get_scores scores);
       scores0 ← lift (py_index scores 0);
       score0 ← lift (py_index score 0);
       b ← lift (score_gt score0
                   (get_threshold utils (Z.of_nat (length scores0)) alpha));
       mret (if b : bool then 1 else 0)) g.
Proof. split; reflexivity. Qed.

(** The policy matters to the scoring routine itself: on the repeated phrase
    the scores under 'v1' would give the decision [0], and
    [detect_watermark] called with 'v1' returns [1], the decision under
    'none'. *)
Example detect_watermark_ignores_v1 :
  let text := toy_phrase_text in
  let scores_v1 :=
    text_scores toy_utils "v1" 0 (text_tokens toy_utils None text) in
  (get_scores_by_t toy_utils [text] "v1" None 0 0).1 = Ok [scores_v1]
  ∧ decide_with scores_v1
      (get_threshold toy_utils (Z.of_nat (length scores_v1)) (TFin 10)) = Ok 0
  ∧ (detect_watermark toy_utils [text] (TFin 10) "v1" None 0).1 = Ok 1
  ∧ (detect_watermark toy_utils [text] (TFin 10) "none" None 0).1 = Ok 1.
Proof. vm_compute. auto. Qed.

(** ** Determinism of the context hasher and of the scorer *)

(** C5.  For a given instance, the context hasher is a function of the
    context window alone: it neither reads nor changes the generator.  The
    score vector of a context and an observed token is the same whatever
    state the generator is in when [score_tok] is called, in particular on
    a second call right after the first, because [score_tok] seeds the
    generator anew before it draws. *)
Theorem score_tok_deterministic {N : Numeric} (utils : PFUtils)
    (ngram_tokens : list Z) (token_id : Z) (g1 g2 : Gen) :
  lift (get_seed_rng utils ngram_tokens) g1 = (get_seed_rng utils ngram_tokens, g1)
  ∧ (lift (get_seed_rng utils ngram_tokens) g1).1
    = (lift (get_seed_rng utils ngram_tokens) g2).1
  ∧ (score_tok utils ngram_tokens token_id g1).1
    = (score_tok utils ngram_tokens token_id g2).1
  ∧ (score_tok utils ngram_tokens token_id
       (score_tok utils ngram_tokens token_id g1).2).1
    = (score_tok utils ngram_tokens token_id g1).1.
Proof.
  assert (∀ a b, (score_tok utils ngram_tokens token_id a).1
                 = (score_tok utils ngram_tokens token_id b).1) as Hdet.
  { intros a b. unfold score_tok. unfold_M.
    destruct (get_seed_rng utils ngram_tokens) as [s|e]; [|reflexivity].
    unfold manual_seed. destruct (seed_ok s); reflexivity. }
  split; [reflexivity|]. split; [reflexivity|]. split; apply Hdet.
Qed.

(** ** The sampler at temperature zero *)

(** C9.  At temperature [0] [sample_next] returns [argmax] of each row of
    [logits]: the generator is left as it was (nothing is seeded or drawn),
    and neither the instance (payload, secret, seeding strategy), nor the
    context windows, nor [top_p] enter the result. *)
Theorem sample_next_greedy {N : Numeric} (utils utils' : PFUtils)
    (logits : list (list F)) (ngram_tokens ngram_tokens' : list (list Z))
    (top_p top_p' : F) (g : Gen) :
  sample_next utils logits ngram_tokens (f_of_Z 0) top_p g
    = (Ok (argmax <$> logits), g)
  ∧ sample_next utils' logits ngram_tokens' (f_of_Z 0) top_p' g
    = sample_next utils logits ngram_tokens (f_of_Z 0) top_p g.
Proof.
  assert (∀ u nt tp, sample_next u logits nt (f_of_Z 0) tp g
                     = (Ok (argmax <$> logits), g)) as Hgreedy.
  { intros u nt tp. unfold sample_next. rewrite fgtb_irrefl. reflexivity. }
  split; [apply Hgreedy|]. by rewrite !Hgreedy.
Qed.

(** At a positive temperature the same logits give a token that depends on
    the context window, and the generator is seeded from it; at temperature
    [0] both contexts give [argmax] and the generator stays as it was. *)
Example sample_next_positive_temperature :
  let logits := [[TFin 3000; TFin 3000; TFin 3000]] in
  sample_next toy_utils logits [[1; 2; 3; 4]] (TFin 1000) (TFin 1000000) 77
    = (Ok [1], 4481735200407599321)
  ∧ sample_next toy_utils logits [[1; 2; 3; 6]] (TFin 1000) (TFin 1000000) 77
    = (Ok [0], 4481735200407599323)
  ∧ sample_next toy_utils logits [[1; 2; 3; 4]] (f_of_Z 0) (TFin 1000000) 77
    = (Ok [0], 77)
  ∧ sample_next toy_utils logits [[1; 2; 3; 6]] (f_of_Z 0) (TFin 1000000) 77
    = (Ok [0], 77).
Proof. vm_compute. auto. Qed.


(** ** The repeated phrase *)

Section RepeatedPhrase.
Variables a b c d : Z.

Lemma rotations_list :
  rotations a b c d
  = list_to_set [[b; c; d; a]; [c; d; a; b]; [d; a; b; c]; [a; b; c; d]].
Proof. unfold rotations. set_solver. Qed.

Lemma size_list_to_set_le (l : list (list Z)) :
  (size (list_to_set l : gset (list Z)) ≤ length l)%nat.
Proof.
  induction l as [|x l IH].
  - rewrite list_to_set_nil, size_empty. done.
  - rewrite list_to_set_cons, size_union_alt, size_singleton. cbn [length].
    pose proof (subseteq_size (C:=gset (list Z))
                  (list_to_set l ∖ {[x]}) (list_to_set l)) as Hsub.
    etrans; [|apply le_n_S, IH].
    apply le_n_S, Hsub. set_solver.
Qed.

Lemma rotations_size_bounds : (1 ≤ size (rotations a b c d) ≤ 4)%nat.
Proof.
  split.
  - assert (size (rotations a b c d) ≠ 0%nat) as Hpos.
    { apply size_non_empty_iff. unfold rotations. set_solver. }
    revert Hpos. generalize (size (rotations a b c d)). intros n Hn. lia.
  - rewrite rotations_list. apply size_list_to_set_le.
Qed.

Lemma rotations_size_one :
  size (rotations a b c d) = 1%nat ↔ a = b ∧ b = c ∧ c = d.
Proof.
  unfold rotations. split.
  - intros Hone.
    assert ([b; c; d; a] = [a; b; c; d]) as Heq.
    { eapply (size_singleton_inv _ _ _ Hone); set_solver. }
    injection Heq as -> -> ->. done.
  - intros (-> & -> & ->).
    assert (({[ [d; d; d; d]; [d; d; d; d]; [d; d; d; d]; [d; d; d; d] ]}
               : gset (list Z)) = {[ [d; d; d; d] ]}) as -> by set_solver.
    apply size_singleton.
Qed.

Lemma rotations_size_distinct :
  NoDup [a; b; c; d] → size (rotations a b c d) = 4%nat.
Proof.
  intros Hnd.
  assert (a ≠ b ∧ a ≠ c ∧ a ≠ d ∧ b ≠ c ∧ b ≠ d ∧ c ≠ d) as Hne.
  { rewrite !NoDup_cons in Hnd. set_solver. }
  destruct Hne as (Hab & Hac & Had & Hbc & Hbd & Hcd).
  rewrite rotations_list.
  rewrite size_list_to_set; [reflexivity|].
  rewrite !NoDup_cons, !elem_of_cons. repeat split; try apply NoDup_nil_2;
    try (rewrite elem_of_nil); intuition congruence.
Qed.

Lemma repeated_phrase_length : length (repeated_phrase a b c d) = 40%nat.
Proof. reflexivity. Qed.

End RepeatedPhrase.

Lemma windows_repeated_phrase (utils : PFUtils) (a b c d : Z) :
  ngram (config utils) = 4 →
  list_to_set (window utils (repeated_phrase a b c d) <$>
                 py_range (ngram (config utils) + 1) 40)
  = rotations a b c d.
Proof.
  destruct utils as [[pl sk ng sd sg ms tk] pad eos table]. simpl.
  intros ->.
  set (ws := window _ _ <$> _). vm_compute in ws. subst ws.
  unfold rotations. set_solver.
Qed.

(** C3, as the code has it.  On the four-token phrase repeated ten times,
    with [ngram = 4], the policy 'v1' scores one position for each distinct
    context window, and the windows are the cyclic rotations of the phrase:
    between one and four positions, four when the four tokens differ from
    each other, and one only when the four tokens are the same.  The policy
    'none' scores every position from [ngram + 1] on, 35 in all. *)
Theorem get_scores_by_t_repeated_phrase {N : Numeric} (utils : PFUtils)
    (text : string) (a b c d : Z) (payload_max : Z) (g : Gen) :
  seeding (config utils) = "hash" →
  ngram (config utils) = 4 →
  0 ≤ V utils →
  encode (generation_tokenizer (config utils)) text = repeated_phrase a b c d →
  ∃ (scores_v1 scores_none : list (list F)) (g1 g2 : Gen),
    get_scores_by_t utils [text] "v1" None payload_max g
      = (Ok [scores_v1], g1)
    ∧ get_scores_by_t utils [text] "none" None payload_max g
      = (Ok [scores_none], g2)
    ∧ length scores_v1 = size (rotations a b c d)
    ∧ (1 ≤ length scores_v1 ≤ 4)%nat
    ∧ (length scores_v1 = 1%nat ↔ a = b ∧ b = c ∧ c = d)
    ∧ (NoDup [a; b; c; d] → length scores_v1 = 4%nat)
    ∧ length scores_none = 35%nat
    ∧ length scores_none
      = length (py_range (ngram (config utils) + 1)
                         (Z.of_nat (length (repeated_phrase a b c d)))).
Proof.
  intros Hhash Hng Hvocab Henc.
  assert (0 < ngram (config utils)) as Hngram by lia.
  destruct (get_scores_by_t_hash utils Hhash Hvocab [text] "v1" None
              payload_max g Hngram) as [g1 H1].
  destruct (get_scores_by_t_hash utils Hhash Hvocab [text] "none" None
              payload_max g Hngram) as [g2 H2].
  simpl in H1, H2. unfold text_tokens in H1, H2. rewrite Henc in H1, H2.
  eexists _, _, g1, g2. split; [exact H1|]. split; [exact H2|].
  assert (length (text_scores utils "v1" payload_max (repeated_phrase a b c d))
          = size (rotations a b c d)) as Hv1.
  { unfold text_scores. rewrite length_fmap, kept_v1_length.
    rewrite repeated_phrase_length.
    change (Z.of_nat 40) with 40.
    rewrite (windows_repeated_phrase utils a b c d Hng).
    f_equal. set_solver. }
  assert (length (text_scores utils "none" payload_max
                    (repeated_phrase a b c d))
          = length (py_range (ngram (config utils) + 1)
                      (Z.of_nat (length (repeated_phrase a b c d))))) as Hnone.
  { unfold text_scores. by rewrite length_fmap, kept_none. }
  rewrite Hv1. split; [reflexivity|].
  split; [apply rotations_size_bounds|].
  split; [apply rotations_size_one|].
  split; [apply rotations_size_distinct|].
  split; [|exact Hnone].
  rewrite Hnone, py_range_length, repeated_phrase_length, Hng. reflexivity.
Qed.

Lemma get_scores_by_t_repeated_phrase_witness :
  seeding (config toy_utils) = "hash"
  ∧ ngram (config toy_utils) = 4
  ∧ 0 ≤ V toy_utils
  ∧ encode (generation_tokenizer (config toy_utils)) toy_phrase_text
    = repeated_phrase 97 98 99 100
  ∧ ∃ (scores_v1 scores_none : list (list F)) (g1 g2 : Gen),
      get_scores_by_t toy_utils [toy_phrase_text] "v1" None 0 0 = (Ok [scores_v1], g1)
      ∧ get_scores_by_t toy_utils [toy_phrase_text] "none" None 0 0
        = (Ok [scores_none], g2)
      ∧ length scores_v1 = size (rotations 97 98 99 100)
      ∧ (1 ≤ length scores_v1 ≤ 4)%nat
      ∧ (length scores_v1 = 1%nat ↔ 97 = 98 ∧ 98 = 99 ∧ 99 = 100)
      ∧ (NoDup [97; 98; 99; 100] → length scores_v1 = 4%nat)
      ∧ length scores_none = 35%nat
      ∧ length scores_none
        = length (py_range (ngram (config toy_utils) + 1)
                           (Z.of_nat (length (repeated_phrase 97 98 99 100)))).
Proof.
  split; [reflexivity|]. split; [reflexivity|].
  split; [vm_compute; discriminate|]. split; [reflexivity|].
  apply (get_scores_by_t_repeated_phrase (N:=toy_numeric) toy_utils
           toy_phrase_text 97 98 99 100 0 0);
    [reflexivity | reflexivity | vm_compute; discriminate | reflexivity].
Defined.

(** The claim C3 fails on the phrase [a b c d] of four different tokens:
    'v1' scores four positions, one for each rotation of the phrase, and
    not one. *)
Lemma get_scores_by_t_v1_counterexample :
  match (get_scores_by_t toy_utils [toy_phrase_text] "v1" None 0 0).1 with
  | Ok [scores] => length scores = 4%nat ∧ length scores ≠ 1%nat
  | _ => False
  end.
Proof. vm_compute. split; [reflexivity | discriminate]. Qed.

(** ** The permutation table *)

(** C4, as the code has it.  The table is what [torch.randperm] draws from
    the process-wide default generator in the state it is in when the
    instance is built: the constructor sets no seed for it.  The table does
    not depend on the configuration, so not on the watermark secret either:
    two constructions that start from the same state of the default
    generator, with the same or with different configurations, have the same
    table and the same hash outputs.  Every construction leaves the default
    generator in the state that follows the draw. *)
Theorem PFUtils_init_hashtable {N : Numeric} (cfg1 cfg2 : PFConfig)
    (default_gen : Gen) (u1 u2 : PFUtils) (r1 r2 : Gen) :
  (PFUtils_init cfg1 default_gen).1 = Ok (u1, r1) →
  (PFUtils_init cfg2 default_gen).1 = Ok (u2, r2) →
  hashtable u1 = (gen_randperm table_size default_gen).1
  ∧ hashtable u1 = hashtable u2
  ∧ (∀ integer_tensor, hashint u1 integer_tensor = hashint u2 integer_tensor)
  ∧ (PFUtils_init cfg1 default_gen).2
    = (gen_randperm table_size default_gen).2.
Proof.
  unfold PFUtils_init. intros H1 H2.
  destruct (seed_ok (seed cfg1)); [|discriminate].
  destruct (seed_ok (seed cfg2)); [|discriminate].
  simpl in H1, H2. injection H1 as <- <-. injection H2 as <- <-.
  repeat split.
Qed.

Lemma PFUtils_init_hashtable_witness :
  (PFUtils_init toy_config 0).1 = Ok (toy_instance toy_config 0, 42)
  ∧ (PFUtils_init toy_config' 0).1 = Ok (toy_instance toy_config' 0, 7)
  ∧ hashtable (toy_instance toy_config 0) = (gen_randperm table_size 0).1
  ∧ hashtable (toy_instance toy_config 0)
    = hashtable (toy_instance toy_config' 0)
  ∧ (∀ integer_tensor,
       hashint (toy_instance toy_config 0) integer_tensor
       = hashint (toy_instance toy_config' 0) integer_tensor)
  ∧ (PFUtils_init toy_config 0).2 = (gen_randperm table_size 0).2.
Proof.
  split; [reflexivity|]. split; [reflexivity|].
  apply (PFUtils_init_hashtable (N:=toy_numeric) toy_config toy_config' 0
           (toy_instance toy_config 0) (toy_instance toy_config' 0) 42 7);
    reflexivity.
Defined.

Lemma toy_randperm_head (g : Z) :
  0 ≤ g < table_size → (toy_randperm table_size g).1 !! 0%nat = Some g.
Proof.
  intros Hg. unfold toy_randperm. cbn [fst].
  rewrite list_lookup_fmap, lookup_seqZ_lt by (unfold table_size; lia).
  cbn [fmap option_fmap option_map]. f_equal.
  apply Z.mod_small. lia.
Qed.

Lemma toy_randperm_length (g : Z) :
  Z.of_nat (length (toy_randperm table_size g).1) = table_size.
Proof.
  unfold toy_randperm. cbn [fst]. rewrite length_fmap, length_seqZ.
  unfold table_size. lia.
Qed.

Lemma toy_instance_hashint_0 (cfg : PFConfig) (g : Z) :
  0 ≤ g < table_size → hashint (toy_instance cfg g) [0] = Ok [g].
Proof.
  intros Hg. unfold hashint, toy_instance. cbn [hashtable res_mapM].
  rewrite toy_randperm_length.
  change (0 `mod` table_size) with 0.
  unfold py_index. change (0 <? 0) with false. cbv iota.
  change (Z.to_nat 0) with 0%nat. rewrite toy_randperm_head by done.
  reflexivity.
Qed.

(** The claim C4 fails on two constructions with the same configuration,
    one after the other in the same process: the second draws its table from
    the state in which the first has left the default generator, and the two
    tables, and the hashes of [0], are different. *)
Lemma PFUtils_init_table_counterexample :
  (PFUtils_init toy_config 0).1 = Ok (toy_instance toy_config 0, 42)
  ∧ (PFUtils_init toy_config (PFUtils_init toy_config 0).2).1
    = Ok (toy_instance toy_config 1, 42)
  ∧ hashtable (toy_instance toy_config 0)
    ≠ hashtable (toy_instance toy_config 1)
  ∧ hashint (toy_instance toy_config 0) [0] = Ok [0]
  ∧ hashint (toy_instance toy_config 1) [0] = Ok [1].
Proof.
  split; [reflexivity|]. split; [reflexivity|].
  split; [|split; apply toy_instance_hashint_0; unfold table_size; lia].
  unfold toy_instance. cbn [hashtable]. intros Heq.
  apply (f_equal (λ l : list Z, l !! 0%nat)) in Heq.
  rewrite !toy_randperm_head in Heq by (unfold table_size; lia).
  discriminate.
Qed.

(** * Further properties of the code *)

(** ** Cyclic shifts *)

Lemma roll_lookup {A} (shift : Z) (t : list A) (j : nat) :
  (j < length t)%nat →
  roll shift t !! j
  = t !! Z.to_nat ((Z.of_nat j - shift) `mod` Z.of_nat (length t)).
Proof.
  intros Hj. unfold roll.
  set (n := Z.of_nat (length t)).
  assert (0 < n) as Hn by (unfold n; lia).
  pose proof (Z.mod_pos_bound (- shift) n Hn) as Hm.
  set (m := (- shift) `mod` n) in *.
  assert ((Z.of_nat j - shift) `mod` n = (Z.of_nat j + m) `mod` n) as ->.
  { unfold m. rewrite Z.add_mod_idemp_r by lia. f_equal; lia. }
  destruct (decide (Z.of_nat j + m < n)) as [Hlt|Hge].
  - rewrite Z.mod_small by lia.
    rewrite lookup_app_l by (rewrite length_drop; lia).
    rewrite lookup_drop. f_equal. lia.
  - replace (Z.of_nat j + m) with ((Z.of_nat j + m - n) + 1 * n) by lia.
    rewrite Z.mod_add, Z.mod_small by lia.
    rewrite lookup_app_r by (rewrite length_drop; lia).
    rewrite length_drop, lookup_take_lt by lia. f_equal. lia.
Qed.

(** ** The entries of a score vector *)

Lemma score_tok_value {N : Numeric} (utils : PFUtils) (ngram_tokens : list Z)
    (token_id s : Z) (g : Gen) :
  get_seed_rng utils ngram_tokens = Ok s →
  seed_ok s = true →
  0 ≤ V utils →
  score_tok utils ngram_tokens token_id g
  = (Ok (seeded_scores utils s token_id),
     (gen_rand (V utils) (gen_seed s)).2).
Proof.
  intros Hs Hok HV. unfold score_tok. unfold_M.
  rewrite Hs. unfold manual_seed. rewrite Hok. unfold rand.
  assert ((V utils <? 0) = false) as -> by lia.
  unfold seeded_scores. destruct (gen_rand _ _) as [rs g']. reflexivity.
Qed.

Lemma seeded_scores_size {N : Numeric} (utils : PFUtils) (s token_id : Z) :
  0 ≤ V utils → Z.of_nat (length (seeded_scores utils s token_id)) = V utils.
Proof.
  intros HV. unfold seeded_scores.
  rewrite length_fmap, roll_length, !length_fmap.
  apply gen_rand_length, HV.
Qed.

Lemma seeded_scores_lookup {N : Numeric} (utils : PFUtils) (s token_id j : Z) :
  0 ≤ j < V utils →
  seeded_scores utils s token_id !! Z.to_nat j
  = (λ r, fneg (flog (if feqb r (f_of_Z 0) then f_eps else r))) <$>
      ((gen_rand (V utils) (gen_seed s)).1
         !! Z.to_nat ((j + token_id) `mod` V utils)).
Proof.
  intros Hj. unfold seeded_scores.
  pose proof (gen_rand_length (V utils) (gen_seed s)) as Hlen.
  rewrite list_lookup_fmap, roll_lookup by (rewrite !length_fmap; lia).
  rewrite !length_fmap, Hlen, !list_lookup_fmap by lia.
  replace (Z.of_nat (Z.to_nat j) - - token_id) with (j + token_id) by lia.
  by destruct (_ !! _).
Qed.

(** X1.  When the generator accepts the seed of the context, [score_tok]
    returns one score per entry of the vocabulary: entry [j] is minus the
    logarithm of the uniform draw of index [(j + token_id) mod V], a draw equal
    to zero being replaced by [1e-4] first.  The draws are those of the
    generator seeded from the context, and [self.rng] is left in the state
    that follows them. *)
Theorem score_tok_entries {N : Numeric} (utils : PFUtils)
    (ngram_tokens : list Z) (token_id s : Z) (g : Gen) :
  get_seed_rng utils ngram_tokens = Ok s →
  seed_ok s = true →
  0 ≤ V utils →
  ∃ scores,
    score_tok utils ngram_tokens token_id g
      = (Ok scores, (gen_rand (V utils) (gen_seed s)).2)
    ∧ Z.of_nat (length scores) = V utils
    ∧ ∀ j, 0 ≤ j < V utils →
        scores !! Z.to_nat j
        = (λ r, fneg (flog (if feqb r (f_of_Z 0) then f_eps else r))) <$>
            ((gen_rand (V utils) (gen_seed s)).1
               !! Z.to_nat ((j + token_id) `mod` V utils)).
Proof.
  intros Hs Hok HV. exists (seeded_scores utils s token_id).
  split; [by apply score_tok_value|].
  split; [by apply seeded_scores_size|].
  intros j Hj. by apply seeded_scores_lookup.
Qed.

Lemma score_tok_entries_witness :
  get_seed_rng toy_utils [1; 2; 3; 4] = Ok 4481735200407599065
  ∧ seed_ok 4481735200407599065 = true
  ∧ 0 ≤ V toy_utils
  ∧ ∃ scores,
      score_tok toy_utils [1; 2; 3; 4] 300 0
        = (Ok scores, (gen_rand (V toy_utils) (gen_seed 4481735200407599065)).2)
      ∧ Z.of_nat (length scores) = V toy_utils
      ∧ ∀ j, 0 ≤ j < V toy_utils →
          scores !! Z.to_nat j
          = (λ r, fneg (flog (if feqb r (f_of_Z 0) then f_eps else r))) <$>
              ((gen_rand (V toy_utils) (gen_seed 4481735200407599065)).1
                 !! Z.to_nat ((j + 300) `mod` V toy_utils)).
Proof.
  split; [vm_compute; reflexivity|]. split; [reflexivity|].
  split; [vm_compute; discriminate|].
  apply (score_tok_entries (N:=toy_numeric) toy_utils [1; 2; 3; 4] 300
           4481735200407599065 0);
    [vm_compute; reflexivity | reflexivity | vm_compute; discriminate].
Defined.

(** ** The perturbation of the log-probabilities *)

Lemma res_mapM_Ok {A B} (f : A → Res B) (l : list A) :
  (∀ x, x ∈ l → ∃ y, f x = Ok y) →
  ∃ ys, res_mapM f l = Ok ys
        ∧ length ys = length l
        ∧ ∀ (j : nat) (x : A), l !! j = Some x →
            ∃ y, f x = Ok y ∧ ys !! j = Some y.
Proof.
  induction l as [|x l IH]; intros Hall.
  - exists []. split; [reflexivity|]. split; [reflexivity|].
    intros j x Hx. by rewrite lookup_nil in Hx.
  - destruct (Hall x) as [y Hy]; [by left|].
    destruct IH as (ys & Hys & Hlen & Hlook).
    { intros z Hz. apply Hall. by right. }
    exists (y :: ys). cbn [res_mapM]. unfold_res. rewrite Hy. cbn [res_bind].
    rewrite Hys. cbn [res_bind].
    split; [reflexivity|]. split; [simpl; congruence|].
    intros [|j] z Hz; simpl in *.
    + injection Hz as <-. eauto.
    + by apply Hlook.
Qed.

Lemma py_index_lookup {A} (l : list A) (i : Z) (x : A) :
  0 ≤ i → py_index l i = Ok x ↔ l !! Z.to_nat i = Some x.
Proof.
  intros Hi. unfold py_index.
  assert ((i <? 0) = false) as Hneg by lia. simpl. rewrite !Hneg.
  destruct (l !! Z.to_nat i) as [y|]; split; intros [= ->]; reflexivity.
Qed.

Section Perturbation.
Context `{Numeric}.
Variable utils : PFUtils.
Hypothesis Hvocab : 0 ≤ V utils.

Lemma gather_rolled (s : Z) (idx : list Z) :
  forallb (λ i, (0 <=? i) && (i <? V utils)) idx = true →
  ∃ rs, res_mapM (py_index (roll (- payload (config utils))
                              (gen_rand (V utils) (gen_seed s)).1)) idx
        = Ok rs
        ∧ length rs = length idx
        ∧ ∀ (j : nat) (t : Z), idx !! j = Some t →
            ∃ x, (gen_rand (V utils) (gen_seed s)).1
                   !! Z.to_nat ((t + payload (config utils)) `mod` V utils)
                 = Some x
                 ∧ rs !! j = Some x.
Proof.
  intros Hidx. rewrite forallb_forall in Hidx.
  pose proof (gen_rand_length (V utils) (gen_seed s) Hvocab) as Hlen.
  set (r := (gen_rand (V utils) (gen_seed s)).1) in *.
  assert (∀ t, t ∈ idx → 0 ≤ t < V utils) as Hrange.
  { intros t Ht. apply list_elem_of_In, Hidx in Ht.
    apply andb_prop in Ht as [? ?]. lia. }
  assert (∀ t, 0 ≤ t < V utils →
            roll (- payload (config utils)) r !! Z.to_nat t
            = r !! Z.to_nat ((t + payload (config utils)) `mod` V utils))
    as Hroll.
  { intros t Ht. rewrite roll_lookup by lia. rewrite Hlen.
    replace (Z.of_nat (Z.to_nat t) - - payload (config utils))
      with (t + payload (config utils)) by lia.
    reflexivity. }
  destruct (res_mapM_Ok (py_index (roll (- payload (config utils)) r)) idx)
    as (rs & Hrs & Hlrs & Hlook).
  { intros t Ht. apply py_index_in; [|rewrite roll_length]; 
      specialize (Hrange t Ht); lia. }
  exists rs. split; [exact Hrs|]. split; [exact Hlrs|].
  intros j t Ht.
  destruct (Hlook j t Ht) as (x & Hx & Hj).
  assert (0 ≤ t < V utils) as Hr by (eapply Hrange, list_elem_of_lookup_2, Ht).
  apply py_index_lookup in Hx; [|lia]. rewrite Hroll in Hx by done.
  eauto.
Qed.

Lemma watermark_rows_from (n : nat) (rows idxs : list (list Z))
    (lps : list (list F)) (g : Gen) :
  forallb (seed_usable utils) rows = true →
  (∀ (k : nat) (ctx : list Z), rows !! k = Some ctx →
     ∃ idx lp, idxs !! (n + k)%nat = Some idx ∧ lps !! (n + k)%nat = Some lp
               ∧ row_fits (V utils) idx lp = true) →
  ∃ out g',
    watermark_rows utils rows (Z.of_nat n) idxs lps g = (Ok out, g')
    ∧ length out = length lps
    ∧ (∀ i : nat, (i < n)%nat → out !! i = lps !! i)
    ∧ (∀ (k : nat) (ctx idx : list Z) (lp : list F) (s : Z),
         rows !! k = Some ctx → idxs !! (n + k)%nat = Some idx →
         lps !! (n + k)%nat = Some lp → get_seed_rng utils ctx = Ok s →
         perturbed utils s idx lp (out !! (n + k)%nat))
    ∧ (∀ (ctx : list Z) (s : Z),
         last rows = Some ctx → get_seed_rng utils ctx = Ok s →
         g' = (gen_rand (V utils) (gen_seed s)).2)
    ∧ (rows = [] → g' = g).
Proof.
  revert n lps g. induction rows as [|ctx rows IH]; intros n lps g Hseed Hfit.
  - exists lps, g. cbn [watermark_rows]. split; [reflexivity|].
    split; [reflexivity|]. split; [done|]. split.
    + intros k ? ? ? ? Hk. by rewrite lookup_nil in Hk.
    + split; [by intros|done].
  - simpl in Hseed. apply andb_prop in Hseed as [Hctx Hseed].
    destruct (Hfit 0%nat ctx eq_refl) as (idx & lp & Hidx & Hlp & Hrow).
    rewrite Nat.add_0_r in Hidx, Hlp.
    unfold seed_usable in Hctx.
    destruct (get_seed_rng utils ctx) as [s|] eqn:Hs; [|discriminate].
    unfold row_fits in Hrow. apply andb_prop in Hrow as [Hsize Hrange].
    apply Nat.eqb_eq in Hsize.
    destruct (gather_rolled s idx Hrange) as (rs & Hrs & Hlrs & Hgather).
    cbn [watermark_rows]. unfold_M. rewrite Hs.
    unfold manual_seed. rewrite Hctx. unfold rand.
    assert ((V utils <? 0) = false) as -> by lia.
    unfold cfg.
    destruct (gen_rand _ (gen_seed s)) as [r g1] eqn:Hr. cbn [fst snd] in *.
    rewrite (proj2 (py_index_lookup idxs (Z.of_nat n) idx ltac:(lia)))
      by (by rewrite Nat2Z.id).
    rewrite Hrs.
    rewrite (proj2 (py_index_lookup lps (Z.of_nat n) lp ltac:(lia)))
      by (by rewrite Nat2Z.id).
    unfold tensor_sub. rewrite decide_True by (rewrite length_fmap; lia).
    rewrite Nat2Z.id.
    set (row' := zip_with fsub lp (flog <$> rs)).
    destruct (IH (S n) (<[n := row']> lps) g1 Hseed) as
      (out & g' & Hout & Hlen & Hbefore & Hrows & Hlast & Hnil).
    { intros k c Hk. destruct (Hfit (S k) c Hk) as (i' & l' & Hi' & Hl' & Hf).
      exists i', l'. rewrite list_lookup_insert_ne by lia.
      replace (S n + k)%nat with (n + S k)%nat by lia. done. }
    exists out, g'.
    replace (Z.of_nat n + 1) with (Z.of_nat (S n)) by lia.
    split; [exact Hout|]. split; [by rewrite Hlen, length_insert|].
    split; [|split; [|split]].
    + intros i Hi. rewrite Hbefore by lia.
      by rewrite list_lookup_insert_ne by lia.
    + intros [|k] c idx' lp' s' Hk Hidx' Hlp' Hs'.
      * rewrite Nat.add_0_r in *. injection Hk as <-.
        rewrite Hidx in Hidx'. rewrite Hlp in Hlp'.
        injection Hidx' as <-. injection Hlp' as <-.
        rewrite Hs in Hs'. injection Hs' as <-.
        rewrite Hbefore by lia.
        rewrite list_lookup_insert_eq by (eapply lookup_lt_Some, Hlp).
        exists row'. split; [reflexivity|]. split.
        { unfold row'. rewrite length_zip_with, length_fmap. lia. }
        intros j t l Ht Hl. destruct (Hgather j t Ht) as (x & Hx & Hj).
        exists x. rewrite Hr. split; [exact Hx|].
        unfold row'. rewrite lookup_zip_with, Hl, list_lookup_fmap, Hj.
        reflexivity.
      * replace (n + S k)%nat with (S n + k)%nat in * by lia.
        apply (Hrows k c idx' lp' s' Hk Hidx'); [|done].
        by rewrite list_lookup_insert_ne by lia.
    + intros c s' Hc Hs'. destruct rows as [|c' rows'].
      * simpl in Hc. injection Hc as <-. rewrite Hs in Hs'.
        injection Hs' as <-. rewrite Hnil by done. by rewrite Hr.
      * apply (Hlast c s'); [|done]. exact Hc.
    + discriminate.
Qed.

End Perturbation.

Section PerturbationBatch.
Context `{Numeric}.
Variable utils : PFUtils.

Lemma batch_fits_rows (rows idxs : list (list Z)) (lps : list (list F)) :
  batch_fits (V utils) rows idxs lps = true →
  length rows = length idxs ∧ length idxs = length lps
  ∧ ∀ (k : nat) (ctx : list Z), rows !! k = Some ctx →
      ∃ idx lp, idxs !! (0 + k)%nat = Some idx ∧ lps !! (0 + k)%nat = Some lp
                ∧ row_fits (V utils) idx lp = true.
Proof.
  unfold batch_fits. intros Hfit.
  apply andb_prop in Hfit as [Hfit Hall].
  apply andb_prop in Hfit as [H1%Nat.eqb_eq H2%Nat.eqb_eq].
  split; [done|]. split; [done|].
  intros k ctx Hk. simpl.
  destruct (lookup_lt_is_Some_2 idxs k) as [idx Hidx].
  { rewrite <- H1. eapply lookup_lt_Some, Hk. }
  destruct (lookup_lt_is_Some_2 lps k) as [lp Hlp].
  { rewrite <- H2. eapply lookup_lt_Some, Hidx. }
  exists idx, lp. split; [done|]. split; [done|].
  rewrite forallb_forall in Hall.
  apply (Hall (idx, lp)), list_elem_of_In.
  apply (list_elem_of_lookup_2 _ k). rewrite lookup_zip_with, Hidx, Hlp.
  reflexivity.
Qed.

Lemma watermark_rows_batch (rows idxs : list (list Z)) (lps : list (list F))
    (g : Gen) :
  0 ≤ V utils →
  forallb (seed_usable utils) rows = true →
  batch_fits (V utils) rows idxs lps = true →
  ∃ out g',
    watermark_rows utils rows 0 idxs lps g = (Ok out, g')
    ∧ length out = length lps
    ∧ (∀ (k : nat) (ctx idx : list Z) (lp : list F) (s : Z),
         rows !! k = Some ctx → idxs !! k = Some idx →
         lps !! k = Some lp → get_seed_rng utils ctx = Ok s →
         perturbed utils s idx lp (out !! k))
    ∧ (∀ (ctx : list Z) (s : Z),
         last rows = Some ctx → get_seed_rng utils ctx = Ok s →
         g' = (gen_rand (V utils) (gen_seed s)).2)
    ∧ (rows = [] → g' = g).
Proof.
  intros HV Hseed Hfit.
  destruct (batch_fits_rows rows idxs lps Hfit) as (_ & _ & Hrows).
  destruct (watermark_rows_from utils HV 0 rows idxs lps g Hseed Hrows)
    as (out & g' & Hout & Hlen & _ & Hspec & Hlast & Hnil).
  exists out, g'. change (Z.of_nat 0) with 0 in Hout. eauto 10.
Qed.

End PerturbationBatch.

(** X2.  At a positive temperature, when the seed of every context of the
    batch is usable and the sorted indices fit the vocabulary, [sample_next]
    returns in every row the token whose perturbed log-probability is the
    largest: in row [k], taken in sorted order, the entry that stands for the
    token [t] loses the logarithm of the draw of index [(t + payload) mod V]
    of the generator seeded from the context [k].  The generator is left in
    the state reached from the seed of the last context. *)
Theorem sample_next_perturbed {N : Numeric} (utils : PFUtils)
    (logits : list (list F)) (ngram_tokens : list (list Z))
    (temperature top_p : F) (g : Gen) :
  fgtb temperature (f_of_Z 0) = true →
  0 ≤ V utils →
  forallb (seed_usable utils) ngram_tokens = true →
  batch_fits (V utils) ngram_tokens
    (snd <$> (nucleus_row temperature top_p <$> logits))
    (fst <$> (nucleus_row temperature top_p <$> logits)) = true →
  ∃ (log_probs : list (list F)) (g' : Gen),
    sample_next utils logits ngram_tokens temperature top_p g
      = (res_mapM (λ '(idx, j), py_index idx j)
           (zip (snd <$> (nucleus_row temperature top_p <$> logits))
                (argmax <$> log_probs)),
         g')
    ∧ length log_probs = length logits
    ∧ (∀ (k : nat) (ctx : list Z) (row : list F) (s : Z),
         ngram_tokens !! k = Some ctx → logits !! k = Some row →
         get_seed_rng utils ctx = Ok s →
         perturbed utils s (nucleus_row temperature top_p row).2
                   (nucleus_row temperature top_p row).1 (log_probs !! k))
    ∧ (∀ (ctx : list Z) (s : Z),
         last ngram_tokens = Some ctx → get_seed_rng utils ctx = Ok s →
         g' = (gen_rand (V utils) (gen_seed s)).2).
Proof.
  intros Htemp HV Hseed Hfit.
  destruct (watermark_rows_batch utils ngram_tokens _ _ g HV Hseed Hfit)
    as (out & g' & Hout & Hlen & Hspec & Hlast & _).
  exists out, g'. unfold sample_next. rewrite Htemp. cbn zeta.
  unfold_M. rewrite Hout.
  split; [reflexivity|].
  split; [by rewrite Hlen, !length_fmap|].
  split; [|exact Hlast].
  intros k ctx row s Hk Hrow Hs.
  apply (Hspec k ctx _ _ s Hk); [| |exact Hs];
    by rewrite !list_lookup_fmap, Hrow.
Qed.

Lemma sample_next_perturbed_witness :
  fgtb (TFin 1000) (f_of_Z 0) = true
  ∧ 0 ≤ V toy_utils
  ∧ forallb (seed_usable toy_utils) [[1; 2; 3; 4]; [4; 3; 2; 1]] = true
  ∧ batch_fits (V toy_utils) [[1; 2; 3; 4]; [4; 3; 2; 1]]
      (snd <$> (nucleus_row (TFin 1000) (TFin 1000000) <$>
                  [[TFin 3000; TFin 3000; TFin 3000];
                   [TFin 1000; TFin 2000; TFin 4000]]))
      (fst <$> (nucleus_row (TFin 1000) (TFin 1000000) <$>
                  [[TFin 3000; TFin 3000; TFin 3000];
                   [TFin 1000; TFin 2000; TFin 4000]])) = true
  ∧ ∃ (log_probs : list (list F)) (g' : Gen),
      sample_next toy_utils
        [[TFin 3000; TFin 3000; TFin 3000]; [TFin 1000; TFin 2000; TFin 4000]]
        [[1; 2; 3; 4]; [4; 3; 2; 1]] (TFin 1000) (TFin 1000000) 77
        = (res_mapM (λ '(idx, j), py_index idx j)
             (zip (snd <$> (nucleus_row (TFin 1000) (TFin 1000000) <$>
                              [[TFin 3000; TFin 3000; TFin 3000];
                               [TFin 1000; TFin 2000; TFin 4000]]))
                  (argmax <$> log_probs)),
           g')
      ∧ length log_probs
        = length [[TFin 3000; TFin 3000; TFin 3000];
                  [TFin 1000; TFin 2000; TFin 4000]]
      ∧ (∀ (k : nat) (ctx : list Z) (row : list F) (s : Z),
           [[1; 2; 3; 4]; [4; 3; 2; 1]] !! k = Some ctx →
           [[TFin 3000; TFin 3000; TFin 3000];
            [TFin 1000; TFin 2000; TFin 4000]] !! k = Some row →
           get_seed_rng toy_utils ctx = Ok s →
           perturbed toy_utils s
             (nucleus_row (TFin 1000) (TFin 1000000) row).2
             (nucleus_row (TFin 1000) (TFin 1000000) row).1 (log_probs !! k))
      ∧ (∀ (ctx : list Z) (s : Z),
           last [[1; 2; 3; 4]; [4; 3; 2; 1]] = Some ctx →
           get_seed_rng toy_utils ctx = Ok s →
           g' = (gen_rand (V toy_utils) (gen_seed s)).2).
Proof.
  split; [reflexivity|]. split; [vm_compute; discriminate|].
  split; [vm_compute; reflexivity|]. split; [vm_compute; reflexivity|].
  apply (sample_next_perturbed (N:=toy_numeric) toy_utils);
    [reflexivity | vm_compute; discriminate | vm_compute; reflexivity
    | vm_compute; reflexivity].
Defined.

(** X3.  The sampler and the scorer read the same draw.  The entry of a row
    of [log_probs] that stands for the token [t] is lowered by [log x], and
    [x] is the draw that [score_tok], on the same context and the token [t],
    turns into its entry of index [payload mod V] (a zero draw being replaced
    by [1e-4] there). *)
Theorem generation_detection_alignment {N : Numeric} (utils : PFUtils)
    (context idx : list Z) (lp : list F) (s : Z) (g g' : Gen) :
  0 < V utils →
  get_seed_rng utils context = Ok s →
  seed_ok s = true →
  row_fits (V utils) idx lp = true →
  ∃ (row : list F) (g1 : Gen),
    watermark_rows utils [context] 0 [idx] [lp] g = (Ok [row], g1)
    ∧ ∀ (j : nat) (t : Z) (l : F),
        idx !! j = Some t → lp !! j = Some l →
        ∃ (x : F) (scores : list F) (g2 : Gen),
          row !! j = Some (fsub l (flog x))
          ∧ score_tok utils context t g' = (Ok scores, g2)
          ∧ scores !! Z.to_nat (payload (config utils) `mod` V utils)
            = Some (fneg (flog (if feqb x (f_of_Z 0) then f_eps else x))).
Proof.
  intros HV Hs Hok Hfit.
  assert (0 ≤ V utils) as HV0 by lia.
  destruct (watermark_rows_batch utils [context] [idx] [lp] g HV0)
    as (out & g1 & Hout & Hlen & Hspec & _).
  { simpl. unfold seed_usable. by rewrite Hs, Hok. }
  { unfold batch_fits. simpl. by rewrite Hfit. }
  destruct (Hspec 0%nat context idx lp s eq_refl eq_refl eq_refl Hs)
    as (row & Hrow & Hsize & Hentries).
  destruct out as [|o [|]]; simpl in Hlen; try lia.
  simpl in Hrow. injection Hrow as ->.
  exists row, g1. split; [exact Hout|].
  intros j t l Ht Hl. destruct (Hentries j t l Ht Hl) as (x & Hx & Hj).
  exists x, (seeded_scores utils s t), (gen_rand (V utils) (gen_seed s)).2.
  split; [exact Hj|]. split; [by apply score_tok_value|].
  rewrite seeded_scores_lookup by (apply Z.mod_pos_bound; lia).
  rewrite Z.add_mod_idemp_l by lia.
  replace (payload (config utils) + t) with (t + payload (config utils))
    by lia.
  by rewrite Hx.
Qed.

Lemma generation_detection_alignment_witness :
  0 < V toy_utils
  ∧ get_seed_rng toy_utils [1; 2; 3; 4] = Ok 4481735200407599065
  ∧ seed_ok 4481735200407599065 = true
  ∧ row_fits (V toy_utils) [2; 0; 1] [TFin 5; TFin 6; TFin 7] = true
  ∧ ∃ (row : list F) (g1 : Gen),
      watermark_rows toy_utils [[1; 2; 3; 4]] 0 [[2; 0; 1]]
                     [[TFin 5; TFin 6; TFin 7]] 0 = (Ok [row], g1)
      ∧ ∀ (j : nat) (t : Z) (l : F),
          [2; 0; 1] !! j = Some t → [TFin 5; TFin 6; TFin 7] !! j = Some l →
          ∃ (x : F) (scores : list F) (g2 : Gen),
            row !! j = Some (fsub l (flog x))
            ∧ score_tok toy_utils [1; 2; 3; 4] t 9 = (Ok scores, g2)
            ∧ scores !! Z.to_nat (payload (config toy_utils) `mod` V toy_utils)
              = Some (fneg (flog (if feqb x (f_of_Z 0) then f_eps else x))).
Proof.
  split; [reflexivity|]. split; [vm_compute; reflexivity|].
  split; [reflexivity|]. split; [reflexivity|].
  apply (generation_detection_alignment (N:=toy_numeric) toy_utils
           [1; 2; 3; 4] [2; 0; 1] [TFin 5; TFin 6; TFin 7]
           4481735200407599065 0 9);
    [reflexivity | vm_compute; reflexivity | reflexivity | reflexivity].
Defined.

(** ** The 'additive' and 'skip' strategies *)

Lemma py_range_cons (start stop : Z) :
  start < stop → py_range start stop = start :: py_range (start + 1) stop.
Proof.
  intros Hlt. unfold py_range. rewrite seqZ_cons by lia.
  f_equal. f_equal; lia.
Qed.

Lemma dedup_step_fresh (scoring_method : string) (tokens w : list Z) (p : Z) :
  (dedup_step scoring_method tokens w p ∅).1 = false.
Proof.
  unfold dedup_step.
  destruct (String.eqb scoring_method "v1");
    [|destruct (String.eqb scoring_method "v2")];
    try reflexivity; by rewrite decide_False by set_solver.
Qed.

Section Unusable.
Context `{Numeric}.
Variable utils : PFUtils.
Hypothesis Hseeding :
  seeding (config utils) = "additive" ∨ seeding (config utils) = "skip".
Hypothesis Hngram : 0 < ngram (config utils).

Lemma get_seed_rng_unusable (context : list Z) :
  context ≠ [] → get_seed_rng utils context = Raise AttributeError.
Proof.
  intros Hne. unfold get_seed_rng, cfg.
  destruct Hseeding as [-> | ->]; [reflexivity|].
  destruct context as [|t context]; [done|]. reflexivity.
Qed.

Lemma score_text_short (scoring_method : string) (payload_max : Z)
    (tokens : list Z) (g : Gen) :
  Z.of_nat (length tokens) ≤ ngram (config utils) + 1 →
  score_text utils scoring_method payload_max tokens g = (Ok [], g).
Proof.
  intros Hshort. unfold score_text, cfg.
  by rewrite py_range_empty by lia.
Qed.

Lemma score_text_unusable (scoring_method : string) (payload_max : Z)
    (tokens : list Z) (g : Gen) :
  ngram (config utils) + 1 < Z.of_nat (length tokens) →
  score_text utils scoring_method payload_max tokens g
  = (Raise AttributeError, g).
Proof.
  intros Hlong. unfold score_text, cfg.
  rewrite py_range_cons by lia. cbn [score_positions]. unfold cfg.
  pose proof (dedup_step_fresh scoring_method tokens
                (py_slice tokens
                   (Some (ngram (config utils) + 1 - ngram (config utils)))
                   (Some (ngram (config utils) + 1)))
                (ngram (config utils) + 1)) as Hfresh.
  destruct (dedup_step _ _ _ _ _) as [skip seen']. simpl in Hfresh. subst skip.
  destruct (py_index_in tokens (ngram (config utils) + 1)) as [t Ht];
    [lia..|].
  unfold_M. rewrite Ht. unfold score_tok. unfold_M.
  rewrite get_seed_rng_unusable; [reflexivity|].
  intros Hnil. apply (f_equal length) in Hnil.
  rewrite py_slice_length_in in Hnil by lia. simpl in Hnil. lia.
Qed.

Lemma get_scores_by_t_unusable (texts : list string) (scoring_method : string)
    (ntoks_max : option Z) (payload_max : Z) (g : Gen) :
  existsb (λ text, ngram (config utils) + 1
                   <? Z.of_nat (length (text_tokens utils ntoks_max text)))
          texts = true →
  get_scores_by_t utils texts scoring_method ntoks_max payload_max g
  = (Raise AttributeError, g).
Proof.
  rewrite get_scores_by_t_tokens.
  induction texts as [|t texts IH]; [discriminate|].
  intros Hlong. rewrite fmap_cons. cbn [m_mapM]. unfold_M.
  destruct (Z.ltb_spec (ngram (config utils) + 1)
              (Z.of_nat (length (text_tokens utils ntoks_max t))))
    as [Hl|Hs].
  - by rewrite score_text_unusable.
  - rewrite score_text_short by done.
    simpl in Hlong.
    assert ((ngram (config utils) + 1
             <? Z.of_nat (length (text_tokens utils ntoks_max t))) = false)
      as Hf by lia.
    rewrite Hf in Hlong. simpl in Hlong.
    unfold_M. unfold mbind, M_bind, m_bind in IH. by rewrite IH.
Qed.

End Unusable.

(** X4.  Under the 'additive' and 'skip' strategies scoring cannot run: as
    soon as one text has more than [ngram + 1] tokens, [get_scores_by_t] and
    [detect_watermark] raise AttributeError, the seed reaching [hashint] as a
    Python integer, under every scoring method, and the generator is left
    untouched. *)
Theorem scoring_raises_additive_skip {N : Numeric} (utils : PFUtils)
    (texts : list string) (alpha : F) (scoring_method : string)
    (ntoks_max : option Z) (payload_max : Z) (g : Gen) :
  seeding (config utils) = "additive" ∨ seeding (config utils) = "skip" →
  0 < ngram (config utils) →
  existsb (λ text, ngram (config utils) + 1
                   <? Z.of_nat (length (text_tokens utils ntoks_max text)))
          texts = true →
  get_scores_by_t utils texts scoring_method ntoks_max payload_max g
    = (Raise AttributeError, g)
  ∧ detect_watermark utils texts alpha scoring_method ntoks_max g
    = (Raise AttributeError, g).
Proof.
  intros Hseeding Hngram Hlong. split.
  - by apply get_scores_by_t_unusable.
  - unfold detect_watermark. unfold_M.
    by rewrite (get_scores_by_t_unusable utils Hseeding Hngram).
Qed.

Lemma scoring_raises_additive_skip_witness :
  (seeding (config (toy_utils_with "additive")) = "additive"
   ∨ seeding (config (toy_utils_with "additive")) = "skip")
  ∧ 0 < ngram (config (toy_utils_with "additive"))
  ∧ existsb (λ text, ngram (config (toy_utils_with "additive")) + 1
                     <? Z.of_nat (length (text_tokens
                                            (toy_utils_with "additive")
                                            None text)))
            ["abc"; "abcdefghij"] = true
  ∧ get_scores_by_t (toy_utils_with "additive") ["abc"; "abcdefghij"]
                    "none" None 0 0
    = (Raise AttributeError, 0)
  ∧ detect_watermark (toy_utils_with "additive") ["abc"; "abcdefghij"]
                     (TFin 10) "none" None 0
    = (Raise AttributeError, 0).
Proof.
  split; [left; reflexivity|]. split; [reflexivity|].
  split; [vm_compute; reflexivity|].
  apply (scoring_raises_additive_skip (N:=toy_numeric)
           (toy_utils_with "additive") ["abc"; "abcdefghij"] (TFin 10)
           "none" None 0 0);
    [left; reflexivity | reflexivity | vm_compute; reflexivity].
Defined.

(** X5.  Under the 'additive' and 'skip' strategies, at a positive
    temperature, [sample_next] raises AttributeError at the first row of the
    batch when its context is not empty, and leaves the generator
    untouched. *)
Theorem sample_next_raises_additive_skip {N : Numeric} (utils : PFUtils)
    (logits : list (list F)) (context : list Z) (rest : list (list Z))
    (temperature top_p : F) (g : Gen) :
  seeding (config utils) = "additive" ∨ seeding (config utils) = "skip" →
  fgtb temperature (f_of_Z 0) = true →
  context ≠ [] →
  sample_next utils logits (context :: rest) temperature top_p g
  = (Raise AttributeError, g).
Proof.
  intros Hseeding Htemp Hne. unfold sample_next. rewrite Htemp. cbn zeta.
  cbn [watermark_rows]. unfold_M.
  assert (get_seed_rng utils context = Raise AttributeError) as ->; [|done].
  unfold get_seed_rng, cfg.
  destruct Hseeding as [-> | ->]; [reflexivity|].
  destruct context as [|t context]; [done|]. reflexivity.
Qed.

Lemma sample_next_raises_additive_skip_witness :
  (seeding (config (toy_utils_with "skip")) = "additive"
   ∨ seeding (config (toy_utils_with "skip")) = "skip")
  ∧ fgtb (TFin 1000) (f_of_Z 0) = true
  ∧ [1; 2; 3; 4] ≠ []
  ∧ sample_next (toy_utils_with "skip") [[TFin 3000; TFin 1000]]
                ([1; 2; 3; 4] :: []) (TFin 1000) (TFin 900) 5
    = (Raise AttributeError, 5).
Proof.
  split; [right; reflexivity|]. split; [reflexivity|]. split; [discriminate|].
  apply (sample_next_raises_additive_skip (N:=toy_numeric)
           (toy_utils_with "skip"));
    [right; reflexivity | reflexivity | discriminate].
Defined.

(** ** The table lookup and the 'min' strategy *)

Lemma res_mapM_elem_of {A B} (f : A → Res B) (l : list A) (ys : list B) :
  res_mapM f l = Ok ys →
  ∀ y, y ∈ ys ↔ ∃ x, x ∈ l ∧ f x = Ok y.
Proof.
  revert ys. induction l as [|x l IH]; intros ys.
  - intros [= <-] y. split; [by intros ?%elem_of_nil|].
    by intros (? & ?%elem_of_nil & _).
  - cbn [res_mapM]. unfold_res.
    destruct (f x) as [y0|] eqn:Hx; [|discriminate]. cbn [res_bind].
    destruct (res_mapM f l) as [ys0|]; [|discriminate]. cbn [res_bind].
    intros [= <-] y. rewrite elem_of_cons, (IH ys0 eq_refl). split.
    + intros [-> | (z & Hz & Hfz)]; [exists x | exists z];
        (split; [|done]); [by left | by right].
    + intros (z & [-> | Hz]%elem_of_cons & Hfz).
      * left. congruence.
      * right. eauto.
Qed.

Lemma tensor_min_spec (l : list Z) (m : Z) :
  tensor_min l = Ok m ↔ m ∈ l ∧ ∀ y, y ∈ l → m ≤ y.
Proof.
  destruct l as [|x l].
  - split; [discriminate | by intros [?%elem_of_nil _]].
  - cbn [tensor_min].
    assert (∀ a, foldl Z.min a l ∈ a :: l
                 ∧ ∀ y, y ∈ a :: l → foldl Z.min a l ≤ y) as Hfold.
    { induction l as [|z l IH]; intros a.
      - split; [by left|].
        intros y [->|?%elem_of_nil]%elem_of_cons; [simpl; lia|done].
      - cbn [foldl]. destruct (IH (Z.min a z)) as [Hin Hle]. split.
        + apply elem_of_cons in Hin as [Heq|Hin].
          * rewrite Heq. destruct (Z.min_spec a z) as [[_ ->]|[_ ->]];
              [by left | right; by left].
          * right. by right.
        + intros y Hy.
          assert (foldl Z.min (Z.min a z) l ≤ Z.min a z) by (apply Hle; by left).
          apply elem_of_cons in Hy as [->|[->|Hy]%elem_of_cons]; [lia|lia|].
          apply Hle. by right. }
    destruct (Hfold x) as [Hin Hle]. split.
    + by intros [= <-].
    + intros [Hm Hmin]. f_equal.
      specialize (Hmin _ Hin). specialize (Hle _ Hm). lia.
Qed.

Section Table.
Variable utils : PFUtils.
Hypothesis Htable : hashtable utils ≠ [].

Lemma hashint_entry (x : Z) :
  ∃ y, py_index (hashtable utils)
                (x `mod` Z.of_nat (length (hashtable utils))) = Ok y
       ∧ y ∈ hashtable utils.
Proof.
  assert (0 < Z.of_nat (length (hashtable utils))) as Hlen.
  { destruct (hashtable utils); [done|simpl; lia]. }
  pose proof (Z.mod_pos_bound x _ Hlen) as Hbound.
  destruct (py_index_in (hashtable utils)
              (x `mod` Z.of_nat (length (hashtable utils)))) as [y Hy];
    [lia..|].
  exists y. split; [done|].
  apply py_index_lookup in Hy; [|lia]. by eapply list_elem_of_lookup_2.
Qed.

Lemma hashint_Ok (integer_tensor : list Z) :
  ∃ out, hashint utils integer_tensor = Ok out
         ∧ length out = length integer_tensor
         ∧ ∀ y, y ∈ out ↔
             ∃ x, x ∈ integer_tensor
                  ∧ py_index (hashtable utils)
                      (x `mod` Z.of_nat (length (hashtable utils))) = Ok y.
Proof.
  unfold hashint.
  destruct (res_mapM_Ok
              (λ x, py_index (hashtable utils)
                      (x `mod` Z.of_nat (length (hashtable utils))))
              integer_tensor) as (out & Hout & Hlen & _).
  { intros x _. destruct (hashint_entry x) as (y & Hy & _). eauto. }
  exists out. split; [done|]. split; [done|].
  by apply res_mapM_elem_of.
Qed.

End Table.

(** X6.  With a non-empty table [hashint] raises nothing and returns one
    entry of the table per integer of its argument, and it has the period of
    the size of the table: adding a multiple of that size to every integer
    changes nothing. *)
Theorem hashint_in_table (utils : PFUtils) (integer_tensor : list Z) (k : Z) :
  hashtable utils ≠ [] →
  ∃ out,
    hashint utils integer_tensor = Ok out
    ∧ length out = length integer_tensor
    ∧ (∀ y, y ∈ out → y ∈ hashtable utils)
    ∧ hashint utils
        ((λ x, x + k * Z.of_nat (length (hashtable utils))) <$> integer_tensor)
      = Ok out.
Proof.
  intros Htable.
  destruct (hashint_Ok utils Htable integer_tensor) as (out & Hout & Hlen & Hin).
  exists out. split; [done|]. split; [done|]. split.
  - intros y (x & _ & Hy)%Hin.
    destruct (hashint_entry utils Htable x) as (y' & Hy' & Hmem). congruence.
  - rewrite <- Hout. unfold hashint. clear.
    induction integer_tensor as [|x l IH]; [reflexivity|].
    rewrite fmap_cons. cbn [res_mapM]. rewrite IH.
    assert (length (hashtable utils) ≠ 0%nat ∨ length (hashtable utils) = 0%nat)
      as [Hne|Hz] by lia.
    + by rewrite Z.mod_add by lia.
    + rewrite Hz. simpl. by rewrite Z.mul_0_r, Z.add_0_r.
Qed.

Lemma hashint_in_table_witness :
  hashtable (toy_utils_with "min") ≠ []
  ∧ ∃ out,
      hashint (toy_utils_with "min") [10; -3; 0] = Ok out
      ∧ length out = length [10; -3; 0]
      ∧ (∀ y, y ∈ out → y ∈ hashtable (toy_utils_with "min"))
      ∧ hashint (toy_utils_with "min")
          ((λ x, x + 2 * Z.of_nat (length (hashtable (toy_utils_with "min"))))
             <$> [10; -3; 0])
        = Ok out.
Proof.
  split; [discriminate|].
  apply (hashint_in_table (toy_utils_with "min") [10; -3; 0] 2). discriminate.
Defined.

(** X7.  Under the 'min' strategy, with a key that fits 64 bits and a
    non-empty table, the seed of a non-empty context is an entry of the table,
    and it depends on the set of the tokens of the context only: neither
    their order nor their repetitions enter it. *)
Theorem get_seed_rng_min (utils : PFUtils) (context : list Z) :
  seeding (config utils) = "min" →
  int64_fits (salt_key (config utils)) = true →
  hashtable utils ≠ [] →
  context ≠ [] →
  ∃ m,
    get_seed_rng utils context = Ok m
    ∧ m ∈ hashtable utils
    ∧ ∀ context', (∀ t, t ∈ context' ↔ t ∈ context) →
        get_seed_rng utils context' = Ok m.
Proof.
  intros Hmin Hfits Htable Hne.
  assert (∀ ctx, get_seed_rng utils ctx
                 = (hashed ← hashint utils
                      ((λ t, int64_wrap (salt_key (config utils) * t)) <$> ctx);
                    tensor_min hashed)) as Heq.
  { intros ctx. unfold get_seed_rng, cfg. rewrite Hmin, Hfits. reflexivity. }
  assert (∀ ctx, ctx ≠ [] →
            ∃ m, get_seed_rng utils ctx = Ok m
                 ∧ m ∈ hashtable utils
                 ∧ ∀ out, hashint utils
                            ((λ t, int64_wrap (salt_key (config utils) * t))
                               <$> ctx) = Ok out →
                          tensor_min out = Ok m) as Hget.
  { intros ctx Hctx. rewrite Heq.
    destruct (hashint_Ok utils Htable
                ((λ t, int64_wrap (salt_key (config utils) * t)) <$> ctx))
      as (out & Hout & Hlen & Hin).
    rewrite Hout. unfold_res. cbn [res_bind].
    destruct out as [|y out].
    { rewrite length_fmap in Hlen. by destruct ctx. }
    exists (foldl Z.min y out). split; [reflexivity|]. split.
    - assert (tensor_min (y :: out) = Ok (foldl Z.min y out)) as Hm
        by reflexivity.
      apply tensor_min_spec in Hm as [Hm _].
      apply Hin in Hm as (x & _ & Hx).
      destruct (hashint_entry utils Htable x) as (y' & Hy' & Hmem). congruence.
    - by intros ? [= <-]. }
  destruct (Hget context Hne) as (m & Hm & Hmem & Hmin_out).
  exists m. split; [done|]. split; [done|].
  intros context' Hsame.
  assert (context' ≠ []) as Hne'.
  { destruct context as [|t ?]; [done|]. intros ->.
    by apply (elem_of_nil t), Hsame; left. }
  destruct (Hget context' Hne') as (m' & Hm' & _ & Hmin_out').
  rewrite Hm'. f_equal.
  destruct (hashint_Ok utils Htable
              ((λ t, int64_wrap (salt_key (config utils) * t)) <$> context))
    as (out & Hout & _ & Hin).
  destruct (hashint_Ok utils Htable
              ((λ t, int64_wrap (salt_key (config utils) * t)) <$> context'))
    as (out' & Hout' & _ & Hin').
  pose proof (Hmin_out out Hout) as H1. pose proof (Hmin_out' out' Hout') as H2.
  apply tensor_min_spec in H1 as [H1in H1le].
  apply tensor_min_spec in H2 as [H2in H2le].
  assert (∀ y, y ∈ out ↔ y ∈ out') as Hsets.
  { intros y. rewrite Hin, Hin'. split; intros (x & Hx & Hy); exists x;
      (split; [|done]); apply list_elem_of_fmap in Hx as (t & -> & Ht);
      apply list_elem_of_fmap; exists t; (split; [done|]); by apply Hsame. }
  apply Hsets in H1in. apply Hsets in H2in.
  specialize (H1le _ H2in). specialize (H2le _ H1in). lia.
Qed.

Lemma get_seed_rng_min_witness :
  seeding (config (toy_utils_with "min")) = "min"
  ∧ int64_fits (salt_key (config (toy_utils_with "min"))) = true
  ∧ hashtable (toy_utils_with "min") ≠ []
  ∧ [9; 2; 2; 7] ≠ []
  ∧ ∃ m,
      get_seed_rng (toy_utils_with "min") [9; 2; 2; 7] = Ok m
      ∧ m ∈ hashtable (toy_utils_with "min")
      ∧ ∀ context', (∀ t, t ∈ context' ↔ t ∈ [9; 2; 2; 7]) →
          get_seed_rng (toy_utils_with "min") context' = Ok m.
Proof.
  split; [reflexivity|]. split; [reflexivity|]. split; [discriminate|].
  split; [discriminate|].
  apply (get_seed_rng_min (toy_utils_with "min") [9; 2; 2; 7]);
    [reflexivity | reflexivity | discriminate | discriminate].
Defined.

(** ** The deduplication policies compared *)

Section Policies.
Variable utils : PFUtils.
Hypothesis Hngram : 0 ≤ ngram (config utils).

Lemma kept_other (scoring_method : string) (tokens positions : list Z)
    (seen : gset (list Z)) :
  scoring_method ≠ "v1" → scoring_method ≠ "v2" →
  kept utils scoring_method tokens positions seen = positions.
Proof.
  intros H1%String.eqb_neq H2%String.eqb_neq. revert seen.
  induction positions as [|p ps IH]; intros seen; [reflexivity|].
  cbn [kept]. unfold dedup_step. rewrite H1, H2. by rewrite IH.
Qed.

Lemma kept_sublist (scoring_method : string) (tokens positions : list Z)
    (seen : gset (list Z)) :
  kept utils scoring_method tokens positions seen `sublist_of` positions.
Proof.
  revert seen. induction positions as [|p ps IH]; intros seen; [constructor|].
  cbn [kept]. destruct (dedup_step _ _ _ _ _) as [[|] seen'].
  - apply sublist_cons, IH.
  - apply sublist_skip, IH.
Qed.

Lemma window_length (tokens : list Z) (p : Z) :
  ngram (config utils) ≤ p ≤ Z.of_nat (length tokens) →
  length (window utils tokens p) = Z.to_nat (ngram (config utils)).
Proof.
  intros Hp. unfold window. rewrite py_slice_length_in by lia. f_equal. lia.
Qed.

Lemma kept_v1_sublist_v2 (tokens positions : list Z)
    (seen1 seen2 : gset (list Z)) :
  Forall (λ p, ngram (config utils) ≤ p ≤ Z.of_nat (length tokens))
         positions →
  (∀ u, u ∈ seen2 → take (Z.to_nat (ngram (config utils))) u ∈ seen1) →
  kept utils "v1" tokens positions seen1
    `sublist_of` kept utils "v2" tokens positions seen2.
Proof.
  revert seen1 seen2.
  induction positions as [|p ps IH]; intros seen1 seen2 Hall Hinv;
    [constructor|].
  apply Forall_cons in Hall as [Hp Hall].
  cbn [kept]. unfold dedup_step. simpl String.eqb. cbv iota.
  set (w := window utils tokens p).
  set (tup := w ++ py_slice tokens (Some p) (Some (p + 1))).
  assert (take (Z.to_nat (ngram (config utils))) tup = w) as Htake.
  { unfold tup.
    rewrite take_app_length' by (symmetry; by apply window_length). done. }
  destruct (decide (w ∈ seen1)) as [Hw|Hw];
    destruct (decide (tup ∈ seen2)) as [Ht|Ht].
  - by apply IH.
  - apply sublist_cons, IH; [done|].
    intros u [Hu| ->%elem_of_singleton]%elem_of_union; [by apply Hinv|].
    by rewrite Htake.
  - exfalso. apply Hw. rewrite <- Htake. by apply Hinv.
  - apply sublist_skip, IH; [done|].
    intros u [Hu| ->%elem_of_singleton]%elem_of_union.
    + apply elem_of_union. left. by apply Hinv.
    + rewrite Htake. apply elem_of_union. right. by apply elem_of_singleton.
Qed.

(** Under 'v2' the scored positions are as many as the distinct tuples
    (window, observed token) not seen before. *)
Lemma kept_v2_length (tokens positions : list Z) (seen : gset (list Z)) :
  length (kept utils "v2" tokens positions seen)
  = size (list_to_set
            ((λ p, window utils tokens p
                   ++ py_slice tokens (Some p) (Some (p + 1))) <$> positions)
          ∖ seen).
Proof.
  revert seen. induction positions as [|p ps IH]; intros seen.
  - simpl. replace (∅ ∖ seen) with (∅ : gset (list Z)) by set_solver.
    by rewrite size_empty.
  - cbn [kept]. unfold dedup_step. simpl String.eqb. cbv iota.
    rewrite fmap_cons, list_to_set_cons.
    set (w := window utils tokens p ++ py_slice tokens (Some p) (Some (p + 1))).
    set (ws := list_to_set _ : gset (list Z)).
    destruct (decide (w ∈ seen)) as [Hin|Hnin].
    + rewrite IH. fold ws. f_equal. set_solver.
    + cbn [length]. rewrite IH. fold ws.
      assert (({[w]} ∪ ws) ∖ seen = {[w]} ∪ ws ∖ (seen ∪ {[w]})) as ->.
      { apply set_eq. intros x. destruct (decide (x = w)); set_solver. }
      rewrite (size_union (C:=gset (list Z)) {[w]}) by set_solver.
      by rewrite size_singleton.
Qed.

End Policies.

(** X8.  Under the 'hash' strategy, with a scoring method other than 'v1' and
    'v2', [get_scores_by_t] returns one list per text, holding
    [max 0 (n - ngram - 1)] score vectors for a text of [n] tokens (counted
    after the truncation to [ntoks_max]), each of [min (payload_max + 1) V]
    entries. *)
Theorem get_scores_by_t_shape {N : Numeric} (utils : PFUtils)
    (texts : list string) (scoring_method : string) (ntoks_max : option Z)
    (payload_max : Z) (g : Gen) :
  seeding (config utils) = "hash" →
  0 < ngram (config utils) →
  0 ≤ V utils →
  -1 ≤ payload_max →
  scoring_method ≠ "v1" →
  scoring_method ≠ "v2" →
  ∃ (score_lists : list (list (list F))) (g' : Gen),
    get_scores_by_t utils texts scoring_method ntoks_max payload_max g
      = (Ok score_lists, g')
    ∧ length score_lists = length texts
    ∧ ∀ (i : nat) (text : string), texts !! i = Some text →
        ∃ scores,
          score_lists !! i = Some scores
          ∧ Z.of_nat (length scores)
            = Z.max 0 (Z.of_nat (length (text_tokens utils ntoks_max text))
                       - ngram (config utils) - 1)
          ∧ ∀ v, v ∈ scores →
              Z.of_nat (length v) = Z.min (payload_max + 1) (V utils).
Proof.
  intros Hhash Hngram HV Hpm Hv1 Hv2.
  destruct (get_scores_by_t_hash utils Hhash HV texts scoring_method
              ntoks_max payload_max g Hngram) as [g' Hg'].
  eexists _, g'. split; [exact Hg'|]. split; [by rewrite length_fmap|].
  intros i text Hi. rewrite list_lookup_fmap, Hi. simpl.
  eexists. split; [reflexivity|].
  unfold text_scores. rewrite kept_other by done. split.
  - rewrite length_fmap, py_range_length. lia.
  - intros v (p & -> & Hp)%list_elem_of_fmap.
    pose proof (py_range_bounds (ngram (config utils) + 1)
                  (Z.of_nat (length (text_tokens utils ntoks_max text))))
      as Hall.
    rewrite Forall_forall in Hall. specialize (Hall p Hp).
    rewrite (score_at_length utils HV) by lia. lia.
Qed.

Lemma get_scores_by_t_shape_witness :
  seeding (config toy_utils) = "hash"
  ∧ 0 < ngram (config toy_utils)
  ∧ 0 ≤ V toy_utils
  ∧ -1 ≤ 2
  ∧ "none" ≠ "v1"
  ∧ "none" ≠ "v2"
  ∧ ∃ (score_lists : list (list (list F))) (g' : Gen),
      get_scores_by_t toy_utils ["abc"; "abcdefghij"] "none" None 2 0
        = (Ok score_lists, g')
      ∧ length score_lists = length ["abc"; "abcdefghij"]
      ∧ ∀ (i : nat) (text : string),
          ["abc"; "abcdefghij"] !! i = Some text →
          ∃ scores,
            score_lists !! i = Some scores
            ∧ Z.of_nat (length scores)
              = Z.max 0 (Z.of_nat (length (text_tokens toy_utils None text))
                         - ngram (config toy_utils) - 1)
            ∧ ∀ v, v ∈ scores →
                Z.of_nat (length v) = Z.min (2 + 1) (V toy_utils).
Proof.
  split; [reflexivity|]. split; [reflexivity|].
  split; [vm_compute; discriminate|]. split; [lia|].
  split; [discriminate|]. split; [discriminate|].
  apply (get_scores_by_t_shape (N:=toy_numeric) toy_utils
           ["abc"; "abcdefghij"] "none" None 2 0);
    [reflexivity | reflexivity | vm_compute; discriminate | lia
    | discriminate | discriminate].
Defined.

(** X9.  The scoring methods are ordered.  On the same text the score
    vectors kept by 'v1' are a subsequence of those kept by 'v2', which are a
    subsequence of those of 'none'. *)
Theorem scoring_policies_ordered {N : Numeric} (utils : PFUtils)
    (text : string) (ntoks_max : option Z) (payload_max : Z) (g : Gen) :
  seeding (config utils) = "hash" →
  0 < ngram (config utils) →
  0 ≤ V utils →
  ∃ (scores_v1 scores_v2 scores_none : list (list F)) (g1 g2 g0 : Gen),
    get_scores_by_t utils [text] "v1" ntoks_max payload_max g
      = (Ok [scores_v1], g1)
    ∧ get_scores_by_t utils [text] "v2" ntoks_max payload_max g
      = (Ok [scores_v2], g2)
    ∧ get_scores_by_t utils [text] "none" ntoks_max payload_max g
      = (Ok [scores_none], g0)
    ∧ scores_v1 `sublist_of` scores_v2
    ∧ scores_v2 `sublist_of` scores_none.
Proof.
  intros Hhash Hngram HV.
  destruct (get_scores_by_t_hash utils Hhash HV [text] "v1" ntoks_max
              payload_max g Hngram) as [g1 H1].
  destruct (get_scores_by_t_hash utils Hhash HV [text] "v2" ntoks_max
              payload_max g Hngram) as [g2 H2].
  destruct (get_scores_by_t_hash utils Hhash HV [text] "none" ntoks_max
              payload_max g Hngram) as [g0 H0].
  eexists _, _, _, g1, g2, g0.
  split; [exact H1|]. split; [exact H2|]. split; [exact H0|].
  unfold text_scores. split; apply fmap_sublist.
  - apply kept_v1_sublist_v2; [lia| |set_solver].
    eapply Forall_impl; [apply py_range_bounds|]. simpl. lia.
  - rewrite kept_none. apply kept_sublist.
Qed.

Lemma scoring_policies_ordered_witness :
  seeding (config toy_utils) = "hash"
  ∧ 0 < ngram (config toy_utils)
  ∧ 0 ≤ V toy_utils
  ∧ ∃ (scores_v1 scores_v2 scores_none : list (list F)) (g1 g2 g0 : Gen),
      get_scores_by_t toy_utils ["abcdabcdabcxabcdabcdabcx"] "v1" None 0 0
        = (Ok [scores_v1], g1)
      ∧ get_scores_by_t toy_utils ["abcdabcdabcxabcdabcdabcx"] "v2" None 0 0
        = (Ok [scores_v2], g2)
      ∧ get_scores_by_t toy_utils ["abcdabcdabcxabcdabcdabcx"] "none" None 0 0
        = (Ok [scores_none], g0)
      ∧ scores_v1 `sublist_of` scores_v2
      ∧ scores_v2 `sublist_of` scores_none.
Proof.
  split; [reflexivity|]. split; [reflexivity|].
  split; [vm_compute; discriminate|].
  apply (scoring_policies_ordered (N:=toy_numeric) toy_utils
           "abcdabcdabcxabcdabcdabcx" None 0 0);
    [reflexivity | reflexivity | vm_compute; discriminate].
Defined.

Lemma py_slice_app {A} (l : list A) (a b c : Z) :
  0 ≤ a → a ≤ b → b ≤ c → c ≤ Z.of_nat (length l) →
  py_slice l (Some a) (Some b) ++ py_slice l (Some b) (Some c)
  = py_slice l (Some a) (Some c).
Proof.
  intros Ha Hab Hbc Hc. unfold py_slice, clamp_index. simpl.
  assert ((a <? 0) = false) as -> by lia.
  assert ((b <? 0) = false) as -> by lia.
  assert ((c <? 0) = false) as -> by lia.
  rewrite !Z.min_l by lia.
  replace (Z.to_nat b) with (Z.to_nat a + Z.to_nat (b - a))%nat by lia.
  rewrite <- drop_drop, take_take_drop. f_equal. lia.
Qed.

(** X10.  What the two deduplicating methods count.  'v1' keeps as many score
    vectors as there are distinct windows [tokens[p - ngram : p]] over the
    scored positions [p], and 'v2' as many as there are distinct windows
    extended by their token, [tokens[p - ngram : p + 1]]. *)
Theorem scoring_counts_distinct {N : Numeric} (utils : PFUtils)
    (text : string) (ntoks_max : option Z) (payload_max : Z) (g : Gen) :
  seeding (config utils) = "hash" →
  0 < ngram (config utils) →
  0 ≤ V utils →
  let tokens := text_tokens utils ntoks_max text in
  let positions :=
    py_range (ngram (config utils) + 1) (Z.of_nat (length tokens)) in
  ∃ (scores_v1 scores_v2 : list (list F)) (g1 g2 : Gen),
    get_scores_by_t utils [text] "v1" ntoks_max payload_max g
      = (Ok [scores_v1], g1)
    ∧ get_scores_by_t utils [text] "v2" ntoks_max payload_max g
      = (Ok [scores_v2], g2)
    ∧ length scores_v1
      = size (list_to_set
                ((λ p, py_slice tokens (Some (p - ngram (config utils)))
                                (Some p)) <$> positions) : gset (list Z))
    ∧ length scores_v2
      = size (list_to_set
                ((λ p, py_slice tokens (Some (p - ngram (config utils)))
                                (Some (p + 1))) <$> positions)
              : gset (list Z)).
Proof.
  intros Hhash Hngram HV tokens positions.
  destruct (get_scores_by_t_hash utils Hhash HV [text] "v1" ntoks_max
              payload_max g Hngram) as [g1 H1].
  destruct (get_scores_by_t_hash utils Hhash HV [text] "v2" ntoks_max
              payload_max g Hngram) as [g2 H2].
  eexists _, _, g1, g2. split; [exact H1|]. split; [exact H2|].
  unfold text_scores. fold tokens. fold positions.
  rewrite !length_fmap, kept_v1_length, kept_v2_length by lia. split.
  - f_equal. set_solver.
  - f_equal.
    assert (((λ p, window utils tokens p
                   ++ py_slice tokens (Some p) (Some (p + 1))) <$> positions)
            = ((λ p, py_slice tokens (Some (p - ngram (config utils)))
                              (Some (p + 1))) <$> positions)) as ->;
      [|set_solver].
    apply list_eq. intros i. rewrite !list_lookup_fmap.
    destruct (positions !! i) as [p|] eqn:Hp; [|reflexivity]. simpl. f_equal.
    pose proof (py_range_bounds (ngram (config utils) + 1)
                  (Z.of_nat (length tokens))) as Hall.
    rewrite Forall_forall in Hall.
    specialize (Hall p (list_elem_of_lookup_2 _ _ _ Hp)).
    unfold window. apply py_slice_app; lia.
Qed.

Lemma scoring_counts_distinct_witness :
  seeding (config toy_utils) = "hash"
  ∧ 0 < ngram (config toy_utils)
  ∧ 0 ≤ V toy_utils
  ∧ (let tokens := text_tokens toy_utils None "abcdabcdabcxabcdabcdabcx" in
     let positions :=
       py_range (ngram (config toy_utils) + 1) (Z.of_nat (length tokens)) in
     ∃ (scores_v1 scores_v2 : list (list F)) (g1 g2 : Gen),
       get_scores_by_t toy_utils ["abcdabcdabcxabcdabcdabcx"] "v1" None 0 0
         = (Ok [scores_v1], g1)
       ∧ get_scores_by_t toy_utils ["abcdabcdabcxabcdabcdabcx"] "v2" None 0 0
         = (Ok [scores_v2], g2)
       ∧ length scores_v1
         = size (list_to_set
                   ((λ p, py_slice tokens
                            (Some (p - ngram (config toy_utils)))
                            (Some p)) <$> positions) : gset (list Z))
       ∧ length scores_v2
         = size (list_to_set
                   ((λ p, py_slice tokens
                            (Some (p - ngram (config toy_utils)))
                            (Some (p + 1))) <$> positions)
                 : gset (list Z))).
Proof.
  split; [reflexivity|]. split; [reflexivity|].
  split; [vm_compute; discriminate|].
  apply (scoring_counts_distinct (N:=toy_numeric) toy_utils
           "abcdabcdabcxabcdabcdabcx" None 0 0);
    [reflexivity | reflexivity | vm_compute; discriminate].
Defined.

(** ** Truncation to [ntoks_max] *)

Lemma py_slice_prefix_take {A} (l : list A) (n : Z) :
  py_slice l None (Some n)
  = take (Z.to_nat (clamp_index (Z.of_nat (length l)) n)) l.
Proof.
  unfold py_slice. simpl. rewrite drop_0. f_equal. lia.
Qed.

Lemma py_slice_take {A} (l : list A) (k : nat) (a b : Z) :
  0 ≤ a → a ≤ b → b ≤ Z.of_nat (length (take k l)) →
  py_slice (take k l) (Some a) (Some b) = py_slice l (Some a) (Some b).
Proof.
  intros Ha Hab Hb. rewrite length_take in Hb.
  unfold py_slice, clamp_index. simpl. rewrite length_take.
  assert ((a <? 0) = false) as -> by lia.
  assert ((b <? 0) = false) as -> by lia.
  rewrite !Z.min_l by lia.
  rewrite (take_drop_commute l (Z.to_nat (b - a)) (Z.to_nat a)).
  rewrite (take_drop_commute (take k l) (Z.to_nat (b - a)) (Z.to_nat a)).
  rewrite take_take. do 2 f_equal. lia.
Qed.

Lemma py_index_take {A} (l : list A) (k : nat) (p : Z) :
  0 ≤ p < Z.of_nat (length (take k l)) →
  py_index (take k l) p = py_index l p.
Proof.
  intros Hp. rewrite length_take in Hp. unfold py_index.
  assert ((p <? 0) = false) as Hneg by lia. simpl. rewrite !Hneg.
  by rewrite lookup_take_lt by lia.
Qed.

Section Truncation.
Context `{Numeric}.
Variable utils : PFUtils.
Hypothesis Hngram : 0 < ngram (config utils).

Lemma kept_prefix (scoring_method : string) (tokens ps1 ps2 : list Z)
    (seen : gset (list Z)) :
  kept utils scoring_method tokens ps1 seen
    `prefix_of` kept utils scoring_method tokens (ps1 ++ ps2) seen.
Proof.
  revert seen. induction ps1 as [|p ps1 IH]; intros seen.
  - apply prefix_nil.
  - cbn [app kept]. destruct (dedup_step _ _ _ _ _) as [[|] seen'];
      [apply IH | apply prefix_cons, IH].
Qed.

Lemma kept_take (scoring_method : string) (tokens : list Z) (k : nat)
    (positions : list Z) (seen : gset (list Z)) :
  Forall (λ p, ngram (config utils) < p < Z.of_nat (length (take k tokens)))
         positions →
  kept utils scoring_method (take k tokens) positions seen
  = kept utils scoring_method tokens positions seen.
Proof.
  revert seen. induction positions as [|p ps IH]; intros seen Hall;
    [reflexivity|].
  apply Forall_cons in Hall as [Hp Hall]. cbn [kept].
  unfold window, dedup_step.
  rewrite !py_slice_take by lia.
  destruct (String.eqb scoring_method "v1");
    [|destruct (String.eqb scoring_method "v2")];
    repeat case_decide; rewrite ?IH by done; reflexivity.
Qed.

Lemma score_at_take (payload_max : Z) (tokens : list Z) (k : nat) (p : Z) :
  ngram (config utils) < p < Z.of_nat (length (take k tokens)) →
  score_at utils payload_max (take k tokens) p
  = score_at utils payload_max tokens p.
Proof.
  intros Hp. unfold score_at, window.
  by rewrite py_index_take, py_slice_take by lia.
Qed.

Lemma text_scores_take (scoring_method : string) (payload_max : Z)
    (tokens : list Z) (k : nat) :
  text_scores utils scoring_method payload_max (take k tokens)
    `prefix_of` text_scores utils scoring_method payload_max tokens.
Proof.
  unfold text_scores.
  set (m := Z.of_nat (length (take k tokens))).
  assert (m ≤ Z.of_nat (length tokens)) as Hm
    by (unfold m; rewrite length_take; lia).
  destruct (decide (ngram (config utils) + 1 ≤ m)) as [Hle|Hgt].
  - assert (py_range (ngram (config utils) + 1) (Z.of_nat (length tokens))
            = py_range (ngram (config utils) + 1) m
              ++ py_range m (Z.of_nat (length tokens))) as ->.
    { unfold py_range.
      replace (Z.of_nat (length tokens) - (ngram (config utils) + 1))
        with ((m - (ngram (config utils) + 1))
              + (Z.of_nat (length tokens) - m)) by lia.
      rewrite seqZ_app by lia. do 2 f_equal. lia. }
    pose proof (py_range_bounds (ngram (config utils) + 1) m) as Hall.
    assert (Forall (λ p, ngram (config utils) < p < m)
              (py_range (ngram (config utils) + 1) m)) as Hall'.
    { eapply Forall_impl; [exact Hall|]. simpl. lia. }
    rewrite kept_take by exact Hall'.
    destruct (kept_prefix scoring_method tokens
                (py_range (ngram (config utils) + 1) m)
                (py_range m (Z.of_nat (length tokens))) ∅) as [rest ->].
    rewrite fmap_app. apply prefix_app_r.
    assert (Forall (λ p, ngram (config utils) < p < m)
              (kept utils scoring_method tokens
                 (py_range (ngram (config utils) + 1) m) ∅)) as Hkept
      by (by apply kept_Forall).
    induction (kept utils scoring_method tokens
                 (py_range (ngram (config utils) + 1) m) ∅) as [|p ps IH];
      [done|].
    apply Forall_cons in Hkept as [Hp Hkept]. rewrite !fmap_cons.
    rewrite score_at_take by exact Hp. by apply prefix_cons, IH.
  - rewrite py_range_empty by lia. apply prefix_nil.
Qed.

End Truncation.

(** X11.  Truncating the text with [ntoks_max = n], for [n] of either sign,
    yields a prefix of the scores of the whole text, under every scoring
    method. *)
Theorem get_scores_by_t_truncation {N : Numeric} (utils : PFUtils)
    (text : string) (scoring_method : string) (n : Z) (payload_max : Z)
    (g : Gen) :
  seeding (config utils) = "hash" →
  0 < ngram (config utils) →
  0 ≤ V utils →
  ∃ (scores_cut scores_full : list (list F)) (g1 g2 : Gen),
    get_scores_by_t utils [text] scoring_method (Some n) payload_max g
      = (Ok [scores_cut], g1)
    ∧ get_scores_by_t utils [text] scoring_method None payload_max g
      = (Ok [scores_full], g2)
    ∧ scores_cut `prefix_of` scores_full.
Proof.
  intros Hhash Hngram HV.
  destruct (get_scores_by_t_hash utils Hhash HV [text] scoring_method
              (Some n) payload_max g Hngram) as [g1 H1].
  destruct (get_scores_by_t_hash utils Hhash HV [text] scoring_method
              None payload_max g Hngram) as [g2 H2].
  eexists _, _, g1, g2. split; [exact H1|]. split; [exact H2|].
  unfold text_tokens. rewrite py_slice_prefix_take.
  by apply text_scores_take.
Qed.

Lemma get_scores_by_t_truncation_witness :
  seeding (config toy_utils) = "hash"
  ∧ 0 < ngram (config toy_utils)
  ∧ 0 ≤ V toy_utils
  ∧ ∃ (scores_cut scores_full : list (list F)) (g1 g2 : Gen),
      get_scores_by_t toy_utils ["abcdabcdabcxabcdabcdabcx"] "v2" (Some 12) 0 0
        = (Ok [scores_cut], g1)
      ∧ get_scores_by_t toy_utils ["abcdabcdabcxabcdabcdabcx"] "v2" None 0 0
        = (Ok [scores_full], g2)
      ∧ scores_cut `prefix_of` scores_full.
Proof.
  split; [reflexivity|]. split; [reflexivity|].
  split; [vm_compute; discriminate|].
  apply (get_scores_by_t_truncation (N:=toy_numeric) toy_utils
           "abcdabcdabcxabcdabcdabcx" "v2" 12 0 0);
    [reflexivity | reflexivity | vm_compute; discriminate].
Defined.

(** ** The detection statistic *)

Section Statistic.
Context `{Numeric}.
Variable utils : PFUtils.
Hypothesis Hhash : seeding (config utils) = "hash".
Hypothesis Hngram : 0 < ngram (config utils).
Hypothesis Hvocab : 0 < V utils.

Lemma score_at_single (tokens : list Z) (p : Z) :
  ngram (config utils) < p < Z.of_nat (length tokens) →
  ∃ (tok : Z) (x : F),
    tokens !! Z.to_nat p = Some tok
    ∧ (gen_rand (V utils)
         (gen_seed (hash_seed_spec (seed (config utils))
                      (salt_key (config utils))
                      (py_slice tokens (Some (p - ngram (config utils)))
                                (Some p))))).1
        !! Z.to_nat (tok `mod` V utils) = Some x
    ∧ score_at utils 0 tokens p
      = [fneg (flog (if feqb x (f_of_Z 0) then f_eps else x))].
Proof.
  intros Hp. unfold score_at, window.
  destruct (py_index_in tokens p) as [tok Htok]; [lia..|].
  rewrite Htok. apply py_index_lookup in Htok; [|lia].
  rewrite hash_loop_spec.
  set (s := hash_seed_spec _ _ _).
  pose proof (gen_rand_length (V utils) (gen_seed s) ltac:(lia)) as Hlen.
  pose proof (Z.mod_pos_bound tok (V utils) Hvocab) as Hmod.
  destruct (lookup_lt_is_Some_2 (gen_rand (V utils) (gen_seed s)).1
              (Z.to_nat (tok `mod` V utils))) as [x Hx]; [lia|].
  exists tok, x. split; [done|]. split; [done|].
  pose proof (seeded_scores_lookup utils s tok 0 ltac:(lia)) as H0.
  rewrite Z.add_0_l, Hx in H0. simpl in H0.
  pose proof (seeded_scores_size utils s tok ltac:(lia)) as Hsize.
  rewrite py_slice_prefix_take. unfold clamp_index.
  change (0 + 1 <? 0) with false. cbv iota.
  rewrite Z.min_l by lia. change (Z.to_nat (0 + 1)) with 1%nat.
  destruct (seeded_scores utils s tok) as [|y ys]; [discriminate|].
  simpl in H0. injection H0 as ->. reflexivity.
Qed.

Lemma column_singletons (scores : list (list F)) :
  Forall (λ v, length v = 1%nat) scores →
  scores = (λ e, [e]) <$> column 0 scores.
Proof.
  induction 1 as [|v vs Hv _ IH]; [reflexivity|].
  destruct v as [|e [|]]; try discriminate.
  unfold column. simpl. f_equal. exact IH.
Qed.

End Statistic.

(** X12.  The statistic of [detect_watermark] under the 'hash' strategy, on a
    text of more than [ngram + 1] tokens.  There is one score per position
    from [ngram + 1] on; the score of the position [ngram + 1 + i] is minus
    the logarithm of the draw of index [tok mod V], [tok] being the token at
    the position, of the generator seeded with the hash of the [ngram] tokens
    before it (a zero draw being replaced by [1e-4]); the statistic is the
    left-to-right sum of the scores, started as [e0 + 0]; and the decision is
    [1] exactly when the sum exceeds [get_threshold] of the number of
    scores. *)
Theorem detection_statistic {N : Numeric} (utils : PFUtils) (text : string)
    (alpha : F) (scoring_method : string) (ntoks_max : option Z) (g : Gen) :
  seeding (config utils) = "hash" →
  0 < ngram (config utils) →
  0 < V utils →
  ngram (config utils) + 1
    < Z.of_nat (length (text_tokens utils ntoks_max text)) →
  let tokens := text_tokens utils ntoks_max text in
  ∃ (e0 : F) (es : list F) (g' : Gen),
    get_scores_by_t utils [text] "none" ntoks_max 0 g
      = (Ok [(λ e, [e]) <$> e0 :: es], g')
    ∧ get_scores [(λ e, [e]) <$> e0 :: es]
      = Ok [STensor [foldl fadd (fadd e0 (f_of_Z 0)) es]]
    ∧ (detect_watermark utils [text] alpha scoring_method ntoks_max g).1
      = Ok (if fgtb (foldl fadd (fadd e0 (f_of_Z 0)) es)
                    (get_threshold utils (Z.of_nat (length (e0 :: es))) alpha)
            then 1 else 0)
    ∧ Z.of_nat (length (e0 :: es))
      = Z.of_nat (length tokens) - ngram (config utils) - 1
    ∧ ∀ (i : nat) (e : F), (e0 :: es) !! i = Some e →
        ∃ (tok : Z) (x : F),
          tokens !! Z.to_nat (ngram (config utils) + 1 + Z.of_nat i) = Some tok
          ∧ (gen_rand (V utils)
               (gen_seed
                  (hash_seed_spec (seed (config utils))
                     (salt_key (config utils))
                     (py_slice tokens (Some (1 + Z.of_nat i))
                        (Some (ngram (config utils) + 1 + Z.of_nat i)))))).1
              !! Z.to_nat (tok `mod` V utils) = Some x
          ∧ e = fneg (flog (if feqb x (f_of_Z 0) then f_eps else x)).
Proof.
  intros Hhash Hngram HV Hlong tokens. fold tokens in Hlong.
  assert (0 ≤ V utils) as HV0 by lia.
  destruct (get_scores_by_t_hash utils Hhash HV0 [text] "none" ntoks_max 0 g
              Hngram) as [g' Hg'].
  simpl in Hg'. fold tokens in Hg'.
  pose proof (detect_watermark_hash utils Hhash HV0 Hngram text [] alpha
                scoring_method ntoks_max g) as Hdet.
  cbn zeta in Hdet. fold tokens in Hdet.
  set (scores := text_scores utils "none" 0 tokens) in *.
  assert (Forall (λ v, length v = 1%nat) scores) as Hones.
  { apply Forall_forall. intros v Hv.
    rewrite (text_scores_entry_length utils HV0 Hngram "none" tokens v Hv).
    lia. }
  assert (Z.of_nat (length scores)
          = Z.of_nat (length tokens) - ngram (config utils) - 1) as Hcount.
  { unfold scores, text_scores.
    rewrite length_fmap, kept_none, py_range_length. lia. }
  pose proof (column_singletons scores Hones) as Hcol.
  assert (∀ (i : nat) (e : F), column 0 scores !! i = Some e →
            ∃ (tok : Z) (x : F),
              tokens !! Z.to_nat (ngram (config utils) + 1 + Z.of_nat i)
                = Some tok
              ∧ (gen_rand (V utils)
                   (gen_seed
                      (hash_seed_spec (seed (config utils))
                         (salt_key (config utils))
                         (py_slice tokens (Some (1 + Z.of_nat i))
                            (Some (ngram (config utils) + 1 + Z.of_nat i)))))).1
                  !! Z.to_nat (tok `mod` V utils) = Some x
              ∧ e = fneg (flog (if feqb x (f_of_Z 0) then f_eps else x)))
    as Hentries.
  { intros i e Hi.
    assert (scores !! i = Some [e]) as Hsi
      by (by rewrite Hcol, list_lookup_fmap, Hi).
    unfold scores, text_scores in Hsi.
    rewrite kept_none, list_lookup_fmap in Hsi.
    destruct (py_range _ _ !! i) as [p|] eqn:Hp; [|discriminate].
    simpl in Hsi. injection Hsi as Hsi.
    unfold py_range in Hp. apply lookup_seqZ in Hp as [-> Hi'].
    destruct (score_at_single utils Hngram HV tokens
                (ngram (config utils) + 1 + Z.of_nat i))
      as (tok & x & Htok & Hx & Hscore); [lia|].
    rewrite Hscore in Hsi. injection Hsi as <-.
    exists tok, x. split; [done|]. split; [|done].
    replace (1 + Z.of_nat i)
      with (ngram (config utils) + 1 + Z.of_nat i - ngram (config utils))
      by lia.
    exact Hx. }
  destruct (column 0 scores) as [|e0 es] eqn:Hes.
  { rewrite Hcol in Hcount. simpl in Hcount. lia. }
  exists e0, es, g'. rewrite <- Hcol.
  assert (py_sum scores (SInt 0)
          = Ok (STensor [foldl fadd (fadd e0 (f_of_Z 0)) es])) as Hsum.
  { destruct (aggregate_text scores
                (text_scores_same_size utils HV0 Hngram "none" tokens))
      as (sc & Hsc & Hshape).
    rewrite decide_False in Hsc by (rewrite Hcol; done).
    rewrite Hsc. f_equal.
    destruct scores as [|v vs]; [by rewrite Hcol in Hcount|].
    destruct Hshape as (t & -> & Ht & Hsumt).
    apply Forall_cons in Hones as [Hv _]. rewrite Hv in Ht, Hsumt.
    specialize (Hsumt 0%nat ltac:(lia)).
    unfold column_sum in Hsumt. rewrite Hes in Hsumt.
    destruct t as [|y [|]]; try discriminate.
    simpl in Hsumt. by injection Hsumt as ->. }
  split; [exact Hg'|]. split; [|split; [|split]].
  - unfold get_scores. cbn [res_mapM]. unfold_res.
    rewrite decide_False by (rewrite Hcol; done).
    by rewrite Hsum.
  - rewrite Hdet. unfold decide_with. unfold_res.
    rewrite decide_False by (rewrite Hcol; done).
    rewrite Hsum. cbn [res_bind score_gt].
    by rewrite Hcol, length_fmap.
  - by rewrite <- Hcount, Hcol, length_fmap.
  - exact Hentries.
Qed.

Lemma detection_statistic_witness :
  seeding (config toy_utils) = "hash"
  ∧ 0 < ngram (config toy_utils)
  ∧ 0 < V toy_utils
  ∧ ngram (config toy_utils) + 1
    < Z.of_nat (length (text_tokens toy_utils None "abcdefghij"))
  ∧ (let tokens := text_tokens toy_utils None "abcdefghij" in
     ∃ (e0 : F) (es : list F) (g' : Gen),
       get_scores_by_t toy_utils ["abcdefghij"] "none" None 0 0
         = (Ok [(λ e, [e]) <$> e0 :: es], g')
       ∧ get_scores [(λ e, [e]) <$> e0 :: es]
         = Ok [STensor [foldl fadd (fadd e0 (f_of_Z 0)) es]]
       ∧ (detect_watermark toy_utils ["abcdefghij"] (TFin 10) "none" None 0).1
         = Ok (if fgtb (foldl fadd (fadd e0 (f_of_Z 0)) es)
                       (get_threshold toy_utils
                          (Z.of_nat (length (e0 :: es))) (TFin 10))
               then 1 else 0)
       ∧ Z.of_nat (length (e0 :: es))
         = Z.of_nat (length tokens) - ngram (config toy_utils) - 1
       ∧ ∀ (i : nat) (e : F), (e0 :: es) !! i = Some e →
           ∃ (tok : Z) (x : F),
             tokens !! Z.to_nat (ngram (config toy_utils) + 1 + Z.of_nat i)
               = Some tok
             ∧ (gen_rand (V toy_utils)
                  (gen_seed
                     (hash_seed_spec (seed (config toy_utils))
                        (salt_key (config toy_utils))
                        (py_slice tokens (Some (1 + Z.of_nat i))
                           (Some (ngram (config toy_utils) + 1
                                  + Z.of_nat i)))))).1
                 !! Z.to_nat (tok `mod` V toy_utils) = Some x
             ∧ e = fneg (flog (if feqb x (f_of_Z 0) then f_eps else x))).
Proof.
  split; [reflexivity|]. split; [reflexivity|]. split; [reflexivity|].
  split; [reflexivity|].
  apply (detection_statistic (N:=toy_numeric) toy_utils "abcdefghij"
           (TFin 10) "none" None 0); reflexivity.
Defined.

(** ** Texts too short for a finite threshold *)

(** X13.  Under the 'hash' strategy a first text of at most [2 * ngram + 1]
    tokens is never flagged: [detect_watermark] returns [0], whatever the
    scores of its positions are. *)
Theorem detect_watermark_below_twice_ngram {N : Numeric} (utils : PFUtils)
    (t : string) (rest : list string) (alpha : F) (scoring_method : string)
    (ntoks_max : option Z) (g : Gen) :
  seeding (config utils) = "hash" →
  0 < ngram (config utils) →
  1 ≤ V utils →
  Z.of_nat (length (text_tokens utils ntoks_max t))
    ≤ 2 * ngram (config utils) + 1 →
  (detect_watermark utils (t :: rest) alpha scoring_method ntoks_max g).1
  = Ok 0.
Proof.
  intros Hhash Hngram HV Hlen.
  assert (0 ≤ V utils) as HV0 by lia.
  rewrite (detect_watermark_hash utils Hhash HV0 Hngram). cbn zeta.
  set (scores := text_scores utils "none" 0 (text_tokens utils ntoks_max t)).
  assert (get_threshold utils (Z.of_nat (length scores)) alpha = f_inf) as ->.
  { unfold get_threshold, cfg.
    assert (Z.of_nat (length scores) ≤ ngram (config utils)) as Hle.
    { unfold scores, text_scores.
      rewrite length_fmap, kept_none, py_range_length. lia. }
    destruct (Z.leb_spec (Z.of_nat (length scores)) (ngram (config utils)));
      [reflexivity | lia]. }
  destruct (decide_with_text_scores utils HV0 Hngram
              (text_tokens utils ntoks_max t) f_inf HV) as (d & _ & Hd).
  fold scores in Hd. rewrite Hd. f_equal.
  unfold decide_with in Hd. unfold mbind, res_mbind in Hd.
  destruct (if decide (length scores = 0%nat) then Ok (SInt 0)
            else py_sum scores (SInt 0)) as [[z|[|x [|]]]|]; simpl in Hd;
    try discriminate; rewrite fgtb_inf in Hd; by injection Hd.
Qed.

Lemma detect_watermark_below_twice_ngram_witness :
  seeding (config toy_utils) = "hash"
  ∧ 0 < ngram (config toy_utils)
  ∧ 1 ≤ V toy_utils
  ∧ Z.of_nat (length (text_tokens toy_utils None "abcdefghi"))
    ≤ 2 * ngram (config toy_utils) + 1
  ∧ (detect_watermark toy_utils ["abcdefghi"; "abcdefghij"] (TFin 10)
                      "none" None 0).1 = Ok 0.
Proof.
  split; [reflexivity|]. split; [reflexivity|].
  split; [vm_compute; discriminate|]. split; [vm_compute; discriminate|].
  apply (detect_watermark_below_twice_ngram (N:=toy_numeric) toy_utils
           "abcdefghi" ["abcdefghij"] (TFin 10) "none" None 0);
    [reflexivity | reflexivity | vm_compute; discriminate
    | vm_compute; discriminate].
Defined.

(** ** Generation *)

Lemma sample_next_zero {N : Numeric} (utils : PFUtils) (logits : list (list F))
    (ngram_tokens : list (list Z)) (top_p : F) (g : Gen) :
  sample_next utils logits ngram_tokens (f_of_Z 0) top_p g
  = (Ok (argmax <$> logits), g).
Proof. unfold sample_next. by rewrite fgtb_irrefl. Qed.

Lemma where_row_length (c : nat) (m : list bool) (row : list Z) (nx : Z) :
  length (where_row c m row nx) = length row.
Proof.
  unfold where_row. destruct (m !! c) as [[|]|]; by rewrite ?length_insert.
Qed.

Lemma where_row_masked (c : nat) (m : list bool) (row : list Z) (nx : Z)
    (p : nat) :
  m !! p = Some true → where_row c m row nx !! p = row !! p.
Proof.
  intros Hp. unfold where_row.
  destruct (decide (c = p)) as [->|Hne]; [by rewrite Hp|].
  destruct (m !! c) as [[|]|]; by rewrite ?list_lookup_insert_ne.
Qed.

Lemma rewritten_refl (mask : list (list bool)) (tokens : list (list Z)) :
  length mask = length tokens → rewritten mask tokens tokens.
Proof.
  intros Hlen. split; [done|]. intros i row Hi.
  destruct (lookup_lt_is_Some_2 mask i) as [m Hm].
  { rewrite Hlen. eapply lookup_lt_Some, Hi. }
  exists row, m. eauto.
Qed.

Lemma rewritten_trans (mask : list (list bool)) (t1 t2 t3 : list (list Z)) :
  rewritten mask t1 t2 → rewritten mask t2 t3 → rewritten mask t1 t3.
Proof.
  intros [Hl12 H12] [Hl23 H23]. split; [congruence|].
  intros i row3 H3.
  destruct (H23 i row3 H3) as (row2 & m & H2 & Hm & Hlen23 & Hp23).
  destruct (H12 i row2 H2) as (row1 & m' & H1 & Hm' & Hlen12 & Hp12).
  rewrite Hm in Hm'. injection Hm' as <-.
  exists row1, m. split; [done|]. split; [done|]. split; [congruence|].
  intros p Hp. by rewrite Hp23, Hp12.
Qed.

Lemma write_column_rewritten (mask : list (list bool))
    (tokens tokens' : list (list Z)) (cur_pos : Z) (next_toks : list Z) :
  length mask = length tokens →
  write_column mask tokens cur_pos next_toks = Ok tokens' →
  rewritten mask tokens tokens'.
Proof.
  intros Hlen. unfold write_column.
  destruct (decide (length next_toks = length tokens)) as [Hn|Hn].
  - intros [= <-]. split.
    + rewrite length_zip_with, length_zip_with. lia.
    + intros i row' Hi.
      apply lookup_zip_with_Some in Hi as ([m row] & nx & -> & Hz & _).
      apply lookup_zip_with_Some in Hz as (m0 & row0 & [= <- <-] & Hm & Hr).
      exists row, m. split; [done|]. split; [done|]. simpl.
      split; [apply where_row_length|]. intros p. apply where_row_masked.
  - destruct next_toks as [|nx [|]]; try discriminate.
    intros [= <-]. split.
    + rewrite length_zip_with. lia.
    + intros i row' Hi.
      apply lookup_zip_with_Some in Hi as (m & row & -> & Hm & Hr).
      exists row, m. split; [done|]. split; [done|].
      split; [apply where_row_length|]. intros p. apply where_row_masked.
Qed.

Section GenerationLoop.
Context `{Numeric} `{!Model}.
Variable utils : PFUtils.

Lemma decode_loop_rewritten (temperature top_p : F)
    (mask : list (list bool)) (positions : list Z)
    (tokens tokens' : list (list Z)) (outputs : option Cache) (prev_pos : Z)
    (g g' : Gen) :
  length mask = length tokens →
  decode_loop utils temperature top_p mask positions tokens outputs prev_pos g
    = (Ok tokens', g') →
  rewritten mask tokens tokens'.
Proof.
  revert tokens outputs prev_pos g.
  induction positions as [|cur_pos ps IH]; intros tokens outputs prev_pos g Hlen.
  - intros [= <- <-]. by apply rewritten_refl.
  - cbn [decode_loop]. unfold_M.
    destruct (sample_next utils _ _ temperature top_p g) as [[next|e] g1];
      [|discriminate].
    destruct (write_column mask tokens cur_pos next) as [tokens1|e] eqn:Hw;
      [|discriminate].
    intros Hloop.
    pose proof (write_column_rewritten mask tokens tokens1 cur_pos next
                  Hlen Hw) as Hstep.
    eapply rewritten_trans; [exact Hstep|].
    eapply IH; [|exact Hloop]. destruct Hstep as [-> _]. exact Hlen.
Qed.

(** At temperature [0] the loop leaves the generator alone, and neither the
    instance nor [top_p] enters its result. *)
Lemma decode_loop_greedy (utils' : PFUtils) (top_p top_p' : F)
    (mask : list (list bool)) (positions : list Z) (tokens : list (list Z))
    (outputs : option Cache) (prev_pos : Z) (g g' : Gen) :
  ∃ r,
    decode_loop utils (f_of_Z 0) top_p mask positions tokens outputs prev_pos g
      = (r, g)
    ∧ decode_loop utils' (f_of_Z 0) top_p' mask positions tokens outputs
                  prev_pos g'
      = (r, g').
Proof.
  revert tokens outputs prev_pos.
  induction positions as [|cur_pos ps IH]; intros tokens outputs prev_pos.
  - by exists (Ok tokens).
  - cbn [decode_loop]. unfold_M. rewrite !sample_next_zero.
    destruct (write_column mask tokens cur_pos _) as [tokens1|e].
    + apply IH.
    + by exists (Raise e).
Qed.

End GenerationLoop.

Lemma res_mapM_inv {A B} (f : A → Res B) (l : list A) (ys : list B) :
  res_mapM f l = Ok ys →
  length ys = length l
  ∧ ∀ (j : nat) (x : A), l !! j = Some x →
      ∃ y, f x = Ok y ∧ ys !! j = Some y.
Proof.
  revert ys. induction l as [|x l IH]; intros ys.
  - intros [= <-]. split; [done|]. intros j x Hx. by rewrite lookup_nil in Hx.
  - cbn [res_mapM]. unfold_res.
    destruct (f x) as [y|] eqn:Hx; [|discriminate]. cbn [res_bind].
    destruct (res_mapM f l) as [ys0|]; [|discriminate]. cbn [res_bind].
    intros [= <-]. destruct (IH ys0 eq_refl) as [Hlen Hlook].
    split; [simpl; congruence|].
    intros [|j] z Hz; simpl in *; [injection Hz as <-; eauto | by apply Hlook].
Qed.

Lemma write_prompt_spec (row t row0 : list Z) :
  write_prompt row t = Ok row0 →
  length row0 = length row
  ∧ ∀ (p : nat) (tok : Z),
      t !! p = Some tok → (p < length row0)%nat → row0 !! p = Some tok.
Proof.
  unfold write_prompt. rewrite py_slice_prefix_take, length_take.
  unfold clamp_index.
  assert ((Z.of_nat (length t) <? 0) = false) as ->
    by (apply Z.ltb_ge; lia).
  destruct (decide _) as [Hfit|Hfit].
  - intros [= <-]. split.
    + rewrite length_app, length_drop. lia.
    + intros p tok Hp _. by apply lookup_app_l_Some.
  - destruct (decide (length t = 1%nat)) as [Hone|]; [|discriminate].
    intros [= <-]. split; [done|]. intros p tok _ Hp. lia.
Qed.

Lemma init_tokens_spec (pad total_len : Z) (prompt_tokens tokens : list (list Z)) :
  init_tokens pad total_len prompt_tokens = Ok tokens →
  0 ≤ total_len
  ∧ length tokens = length prompt_tokens
  ∧ ∀ (i : nat) (t : list Z), prompt_tokens !! i = Some t →
      ∃ row, tokens !! i = Some row
             ∧ Z.of_nat (length row) = total_len
             ∧ ∀ (p : nat) (tok : Z),
                 t !! p = Some tok → (p < length row)%nat →
                 row !! p = Some tok.
Proof.
  unfold init_tokens. destruct (Z.ltb_spec total_len 0); [discriminate|].
  intros Hinit. apply res_mapM_inv in Hinit as [Hlen Hrows].
  split; [done|]. split; [done|].
  intros i t Hi. destruct (Hrows i t Hi) as (row & Hrow & Hlook).
  apply write_prompt_spec in Hrow as [Hsize Hkeep].
  exists row. split; [done|]. split; [|done].
  rewrite Hsize, length_replicate. lia.
Qed.

Lemma cut_row_spec (eos n : Z) (row : list Z) :
  (eos ∉ cut_row eos n row)
  ∧ cut_row eos n row `prefix_of` row
  ∧ (0 ≤ n → Z.of_nat (length (cut_row eos n row)) ≤ n)
  ∧ ∀ j : nat, Z.of_nat j ≤ n → (j ≤ length row)%nat → eos ∉ take j row →
      (j ≤ length (cut_row eos n row))%nat.
Proof.
  unfold cut_row. rewrite py_slice_prefix_take.
  set (k := Z.to_nat (clamp_index (Z.of_nat (length row)) n)).
  assert (0 ≤ n → Z.of_nat k ≤ n) as Hk.
  { intros Hn. unfold k, clamp_index.
    destruct (Z.ltb_spec n 0); lia. }
  assert (∀ j : nat, Z.of_nat j ≤ n → (j ≤ length row)%nat → (j ≤ k)%nat)
    as Hj.
  { intros j Hjn Hjl. unfold k, clamp_index.
    destruct (Z.ltb_spec n 0); lia. }
  destruct (list_find (λ x, x = eos) (take k row)) as [[i x]|] eqn:Hfind.
  - apply list_find_Some in Hfind as (Hi & -> & Hbefore).
    pose proof (lookup_lt_Some _ _ _ Hi) as Hik. rewrite length_take in Hik.
    rewrite take_take. replace (i `min` k)%nat with i by lia.
    split; [|split; [|split]].
    + intros (p & Hp)%list_elem_of_lookup_1.
      pose proof (lookup_lt_Some _ _ _ Hp) as Hpi. rewrite length_take in Hpi.
      rewrite lookup_take_lt in Hp by lia.
      apply (Hbefore p eos); [by rewrite lookup_take_lt by lia | lia | done].
    + apply prefix_take.
    + intros Hn. rewrite length_take. specialize (Hk Hn). lia.
    + intros j Hjn Hjl Hfree. rewrite length_take.
      destruct (decide (j ≤ i)%nat); [lia|]. exfalso. apply Hfree.
      apply (list_elem_of_lookup_2 _ i).
      rewrite lookup_take_lt by lia. by rewrite lookup_take_lt in Hi by lia.
  - apply list_find_None in Hfind. rewrite Forall_forall in Hfind.
    split; [|split; [|split]].
    + intros Hin. by apply (Hfind eos Hin).
    + apply prefix_take.
    + intros Hn. rewrite length_take. specialize (Hk Hn). lia.
    + intros j Hjn Hjl _. rewrite length_take. specialize (Hj j Hjn Hjl). lia.
Qed.

Lemma foldl_max_ge (n : Z) (sizes : list Z) : n ≤ foldl Z.max n sizes.
Proof.
  revert n. induction sizes as [|y sizes IH]; intros n; simpl; [lia|].
  etrans; [|apply IH]. lia.
Qed.

Lemma foldl_max_bound (n : Z) (sizes : list Z) (x : Z) :
  x ∈ n :: sizes → x ≤ foldl Z.max n sizes.
Proof.
  revert n. induction sizes as [|y sizes IH]; intros n Hx; simpl.
  - apply list_elem_of_singleton in Hx. lia.
  - apply elem_of_cons in Hx as [->|Hx].
    + etrans; [|apply foldl_max_ge]. lia.
    + apply elem_of_cons in Hx as [->|Hx].
      * etrans; [|apply foldl_max_ge]. lia.
      * apply IH. by right.
Qed.

Lemma foldl_min_nonneg (n : Z) (sizes : list Z) :
  Forall (λ x, 0 ≤ x) (n :: sizes) → 0 ≤ foldl Z.min n sizes.
Proof.
  revert n. induction sizes as [|y sizes IH]; intros n Hall; simpl.
  - by inversion Hall.
  - inversion Hall as [|? ? Hn Hrest]; subst.
    inversion Hrest as [|? ? Hy Hrest']; subst.
    apply IH. constructor; [lia|done].
Qed.

Lemma write_prompt_fits (row t : list Z) :
  (length t ≤ length row)%nat →
  write_prompt row t = Ok (t ++ drop (length t) row).
Proof.
  intros Hle. unfold write_prompt.
  rewrite py_slice_prefix_take, length_take. unfold clamp_index.
  assert ((Z.of_nat (length t) <? 0) = false) as ->
    by (apply Z.ltb_ge; lia).
  destruct (decide _) as [|Hne]; [done|]. lia.
Qed.

Lemma write_prompt_size (row t row0 : list Z) :
  write_prompt row t = Ok row0 →
  (length t ≤ length row)%nat ∨ (length t = 1%nat ∧ length row = 0%nat).
Proof.
  unfold write_prompt. rewrite py_slice_prefix_take, length_take.
  unfold clamp_index.
  assert ((Z.of_nat (length t) <? 0) = false) as ->
    by (apply Z.ltb_ge; lia).
  destruct (decide _) as [Hfit|Hfit]; [intros _; left; lia|].
  destruct (decide (length t = 1%nat)) as [Hone|]; [|discriminate].
  intros _. right. split; [done|]. lia.
Qed.

Section GenerationTotal.
Context `{Numeric} `{!Model}.
Variable utils : PFUtils.

Lemma decode_loop_greedy_returns (top_p : F) (mask : list (list bool))
    (positions : list Z) (tokens : list (list Z)) (outputs : option Cache)
    (prev_pos : Z) (g : Gen) :
  length mask = length tokens →
  ∃ tokens',
    decode_loop utils (f_of_Z 0) top_p mask positions tokens outputs prev_pos g
      = (Ok tokens', g)
    ∧ length tokens' = length tokens.
Proof.
  revert tokens outputs prev_pos.
  induction positions as [|cur_pos ps IH]; intros tokens outputs prev_pos Hlen.
  - by exists tokens.
  - cbn [decode_loop]. unfold_M. rewrite sample_next_zero.
    unfold write_column.
    destruct (decide _) as [Hn|Hn].
    + match goal with
      | |- context [decode_loop _ _ _ _ _ ?t _ _ _] =>
          destruct (IH t (Some (forward
            ((λ row, py_slice row (Some prev_pos) (Some cur_pos)) <$> tokens)
            (if 0 <? prev_pos then outputs else None)).2) cur_pos)
            as (tokens' & Hrun & Hsize)
      end.
      { rewrite length_zip_with, length_zip_with. lia. }
      exists tokens'. split; [exact Hrun|].
      rewrite Hsize, length_zip_with, length_zip_with. lia.
    + exfalso. apply Hn. by rewrite length_fmap, forward_rows, length_fmap.
Qed.

End GenerationTotal.

(** X14.  At temperature [0] [generate_watermarked_text] embeds no watermark:
    its outcome, the texts or the exception, is the same for two instances
    that share the tokenizer, [max_seq_len], the pad and the end-of-sequence
    tokens, whatever their key, seed, window size, payload, seeding strategy
    and table are, and whatever [top_p] and the state of the generator; and
    the generator is left as it was. *)
Theorem greedy_generation_independent {N : Numeric} {Mo : Model}
    (decode : list Z → string) (utils utils' : PFUtils)
    (prompts : list string) (max_gen_len : Z) (top_p top_p' : F)
    (g g' : Gen) :
  generation_tokenizer (config utils) = generation_tokenizer (config utils') →
  max_seq_len (config utils) = max_seq_len (config utils') →
  pad_id utils = pad_id utils' →
  eos_id utils = eos_id utils' →
  ∃ r,
    generate_watermarked_text decode utils prompts max_gen_len (f_of_Z 0)
                              top_p g = (r, g)
    ∧ generate_watermarked_text decode utils' prompts max_gen_len (f_of_Z 0)
                                top_p' g' = (r, g').
Proof.
  intros Htok Hmax Hpad Heos. unfold generate_watermarked_text.
  rewrite <- Htok, <- Hmax, <- Hpad, <- Heos.
  destruct (_ <$> (encode _ <$> prompts)) as [|n sizes];
    [by exists (inl ValueError)|].
  unfold_M.
  destruct (init_tokens _ _ _) as [tokens|e]; [|by exists (inl (Raised e))].
  match goal with
  | |- context [decode_loop utils _ top_p ?m ?ps ?t ?o ?pp g] =>
      destruct (decode_loop_greedy utils utils' top_p top_p' m ps t o pp g g')
        as (r & -> & ->)
  end.
  destruct r as [tokens'|e]; eauto.
Qed.

Lemma greedy_generation_independent_witness :
  generation_tokenizer (config toy_utils_gen)
    = generation_tokenizer (config toy_utils_gen_additive)
  ∧ max_seq_len (config toy_utils_gen)
    = max_seq_len (config toy_utils_gen_additive)
  ∧ pad_id toy_utils_gen = pad_id toy_utils_gen_additive
  ∧ eos_id toy_utils_gen = eos_id toy_utils_gen_additive
  ∧ ∃ r,
      generate_watermarked_text toy_decode toy_utils_gen ["abc"; "ab"] 6
                                (f_of_Z 0) (TFin 900) 5 = (r, 5)
      ∧ generate_watermarked_text toy_decode toy_utils_gen_additive
                                  ["abc"; "ab"] 6 (f_of_Z 0) (TFin 100) 9
        = (r, 9).
Proof.
  split; [reflexivity|]. split; [reflexivity|]. split; [reflexivity|].
  split; [reflexivity|].
  apply (greedy_generation_independent (N:=toy_numeric) (Mo:=toy_model)
           toy_decode toy_utils_gen toy_utils_gen_additive ["abc"; "ab"] 6
           (TFin 900) (TFin 100) 5 9); reflexivity.
Defined.

(** X15.  At temperature [0], for a non-empty batch of prompts of at least
    one and at most [max_seq_len] tokens each and [max_gen_len >= 0],
    [generate_watermarked_text] raises nothing and returns one text per
    prompt. *)
Theorem greedy_generation_returns {N : Numeric} {Mo : Model}
    (decode : list Z → string) (utils : PFUtils)
    (prompts : list string) (max_gen_len : Z) (top_p : F) (g : Gen) :
  prompts ≠ [] →
  prompts_fit utils prompts = true →
  0 ≤ max_gen_len →
  ∃ decoded,
    generate_watermarked_text decode utils prompts max_gen_len (f_of_Z 0)
                              top_p g = (inr decoded, g)
    ∧ length decoded = length prompts.
Proof.
  intros Hne Hfit Hgen. unfold generate_watermarked_text.
  set (tok := generation_tokenizer (config utils)).
  set (prompt_tokens := encode tok <$> prompts).
  assert (Forall (λ t : list Z,
            1 ≤ Z.of_nat (length t) ≤ max_seq_len (config utils))
          prompt_tokens) as Hsizes.
  { unfold prompt_tokens. apply Forall_fmap, Forall_forall. intros x Hx.
    unfold prompts_fit in Hfit. rewrite forallb_forall in Hfit.
    specialize (Hfit x). rewrite <- list_elem_of_In in Hfit.
    specialize (Hfit Hx). simpl in Hfit. fold tok in Hfit. simpl. lia. }
  destruct (_ <$> prompt_tokens) as [|n sizes] eqn:Hs.
  { apply fmap_nil_inv in Hs. unfold prompt_tokens in Hs.
    apply fmap_nil_inv in Hs. done. }
  set (total_len := Z.min _ _).
  assert (∀ t, t ∈ prompt_tokens → Z.of_nat (length t) ≤ total_len) as Hle.
  { intros t Ht. rewrite Forall_forall in Hsizes.
    pose proof (Hsizes t Ht) as Hb.
    assert (Z.of_nat (length t) ≤ foldl Z.max n sizes) as Hm.
    { apply foldl_max_bound. rewrite <- Hs.
      apply (list_elem_of_fmap_2 (λ t : list Z, Z.of_nat (length t))), Ht. }
    unfold total_len. lia. }
  assert (0 ≤ total_len) as Htot.
  { destruct prompt_tokens as [|t ?]; [done|].
    specialize (Hle t (list_elem_of_here _ _)). lia. }
  unfold_M. unfold init_tokens.
  assert ((total_len <? 0) = false) as -> by (apply Z.ltb_ge; lia).
  destruct (res_mapM_Ok
              (write_prompt (replicate (Z.to_nat total_len) (pad_id utils)))
              prompt_tokens) as (tokens & -> & Hlen & _).
  { intros t Ht. eexists. apply write_prompt_fits.
    rewrite length_replicate. specialize (Hle t Ht). lia. }
  match goal with
  | |- context [decode_loop utils _ top_p ?m ?ps ?t ?o ?pp g] =>
      destruct (decode_loop_greedy_returns utils top_p m ps t o pp g)
        as (tokens' & -> & Hlen')
  end.
  { by rewrite length_fmap. }
  eexists. split; [reflexivity|].
  rewrite length_zip_with. unfold prompt_tokens in *.
  rewrite length_fmap in *. lia.
Qed.

Lemma greedy_generation_returns_witness :
  ["abc"; "ab"] ≠ []
  ∧ prompts_fit toy_utils_gen ["abc"; "ab"] = true
  ∧ 0 ≤ 6
  ∧ ∃ decoded,
      generate_watermarked_text toy_decode toy_utils_gen ["abc"; "ab"] 6
                                (f_of_Z 0) (TFin 900) 5 = (inr decoded, 5)
      ∧ length decoded = length ["abc"; "ab"].
Proof.
  split; [discriminate|]. split; [vm_compute; reflexivity|]. split; [lia|].
  apply (greedy_generation_returns (N:=toy_numeric)
           (Mo:=toy_model) toy_decode toy_utils_gen ["abc"; "ab"] 6
           (TFin 900) 5); [discriminate | vm_compute; reflexivity | lia].
Defined.

Lemma init_tokens_sizes (pad total_len : Z)
    (prompt_tokens tokens : list (list Z)) (t : list Z) :
  init_tokens pad total_len prompt_tokens = Ok tokens →
  t ∈ prompt_tokens →
  Z.of_nat (length t) ≤ total_len ∨ (length t = 1%nat ∧ total_len = 0).
Proof.
  unfold init_tokens. destruct (Z.ltb_spec total_len 0); [discriminate|].
  intros Hinit (j & Hj)%list_elem_of_lookup_1.
  apply res_mapM_inv in Hinit as [_ Hrows].
  destruct (Hrows j t Hj) as (row & Hrow & _).
  apply write_prompt_size in Hrow. rewrite length_replicate in Hrow. lia.
Qed.

(** X16.  What [generate_watermarked_text] returns, at any temperature, for
    [max_gen_len >= 0] and [max_seq_len > 0]: one text per prompt, each the
    decoding of a list of tokens that does not hold [eos_id], has at most
    [len(prompt) + max_gen_len] and at most [max_seq_len] tokens, and agrees
    with the prompt at every position it covers where the token of the prompt
    is not [pad_id].  A prompt that holds neither [eos_id] nor [pad_id] is a
    prefix of it. *)
Theorem generate_watermarked_text_output {N : Numeric} {Mo : Model}
    (decode : list Z → string) (utils : PFUtils)
    (prompts : list string) (max_gen_len : Z) (temperature top_p : F)
    (g g' : Gen) (decoded : list string) :
  0 ≤ max_gen_len →
  0 < max_seq_len (config utils) →
  generate_watermarked_text decode utils prompts max_gen_len temperature
                            top_p g = (inr decoded, g') →
  length decoded = length prompts
  ∧ ∀ (i : nat) (x : string), prompts !! i = Some x →
      let t := encode (generation_tokenizer (config utils)) x in
      ∃ ts : list Z,
        decoded !! i = Some (decode ts)
        ∧ (eos_id utils ∉ ts)
        ∧ Z.of_nat (length ts) ≤ Z.of_nat (length t) + max_gen_len
        ∧ Z.of_nat (length ts) ≤ max_seq_len (config utils)
        ∧ (∀ (p : nat) (tok : Z),
             t !! p = Some tok → tok ≠ pad_id utils → (p < length ts)%nat →
             ts !! p = Some tok)
        ∧ (eos_id utils ∉ t → pad_id utils ∉ t → t `prefix_of` ts).
Proof.
  intros Hgen Hmax Hrun. unfold generate_watermarked_text in Hrun.
  set (tok := generation_tokenizer (config utils)) in *.
  set (prompt_tokens := encode tok <$> prompts) in *.
  destruct (_ <$> prompt_tokens) as [|n sizes] eqn:Hs; [discriminate|].
  set (total_len := Z.min _ _) in *.
  unfold mbind, M_bind, m_bind, mret, M_ret, m_ret, lift in Hrun.
  destruct (init_tokens _ _ _) as [tokens|e] eqn:Hinit; [|discriminate].
  match type of Hrun with
  | context [decode_loop utils ?a ?b ?m ?ps ?t ?o ?pp g] =>
      destruct (decode_loop utils a b m ps t o pp g) as [[tokens'|e] g1]
        eqn:Hloop; [|discriminate]
  end.
  injection Hrun as <- <-.
  assert (init_tokens (pad_id utils) total_len prompt_tokens = Ok tokens)
    as Hinit' by exact Hinit.
  apply init_tokens_spec in Hinit as (Htot & Hlen & Hrows).
  apply decode_loop_rewritten in Hloop as [Hlen' Hrw];
    [|by rewrite length_fmap].
  assert (length prompt_tokens = length prompts) as Hlp
    by apply length_fmap.
  split; [rewrite length_zip_with; lia|].
  intros i x Hx t.
  assert (prompt_tokens !! i = Some t) as Hpt.
  { unfold prompt_tokens. by rewrite list_lookup_fmap, Hx. }
  destruct (Hrows i t Hpt) as (row & Hrow & Hsize & Hkeep).
  destruct (lookup_lt_is_Some_2 tokens' i) as [row' Hrow'].
  { rewrite Hlen', Hlen. eapply lookup_lt_Some, Hpt. }
  destruct (Hrw i row' Hrow') as (row0 & m & Hrow0 & Hm & Hsize' & Hmask).
  rewrite Hrow in Hrow0. injection Hrow0 as <-.
  rewrite list_lookup_fmap, Hrow in Hm. injection Hm as <-.
  destruct (cut_row_spec (eos_id utils) (Z.of_nat (length t) + max_gen_len)
              row') as (Heos & Hpre & Hshort & Hlong).
  set (ts := cut_row (eos_id utils) (Z.of_nat (length t) + max_gen_len) row')
    in *.
  assert (∀ (p : nat) (tk : Z), t !! p = Some tk → tk ≠ pad_id utils →
            (p < length row)%nat → row' !! p = Some tk) as Hfixed.
  { intros p tk Hp Hnp Hlt. rewrite Hmask; [by apply Hkeep|].
    rewrite list_lookup_fmap, (Hkeep p tk Hp Hlt). simpl.
    by rewrite bool_decide_eq_true_2. }
  exists ts. split.
  { by rewrite lookup_zip_with, Hrow', Hpt. }
  split; [exact Heos|]. split; [apply Hshort; lia|].
  pose proof (prefix_length _ _ Hpre) as Hts.
  split; [unfold total_len in Hsize; lia|]. split.
  - intros p tk Hp Hnp Hlt.
    rewrite (prefix_lookup_lt _ _ _ Hlt Hpre).
    apply Hfixed; [done|done|lia].
  - intros Hne Hnp.
    assert (length t ≤ length row)%nat as Hfit.
    { destruct (init_tokens_sizes _ _ _ _ t Hinit') as [Hle|[Hone Hzero]];
        [by apply (list_elem_of_lookup_2 _ i) | lia |].
      assert (Z.of_nat (length t) ≤ foldl Z.max n sizes) as Hm.
      { apply foldl_max_bound. rewrite <- Hs.
        apply (list_elem_of_fmap_2 (λ t : list Z, Z.of_nat (length t))).
        by apply (list_elem_of_lookup_2 _ i). }
      unfold total_len in Hzero. lia. }
    assert (take (length t) row' = t) as Htake.
    { apply list_eq. intros p.
      destruct (decide (p < length t)%nat) as [Hlt|Hge].
      - rewrite lookup_take_lt by done.
        destruct (lookup_lt_is_Some_2 t p Hlt) as [tk Htk].
        rewrite Htk. apply Hfixed; [done| |lia].
        intros ->. apply Hnp. by apply (list_elem_of_lookup_2 _ p).
      - rewrite lookup_take_ge by lia. symmetry. apply lookup_ge_None. lia. }
    assert (length t ≤ length ts)%nat as Hlong'.
    { apply Hlong; [lia|lia|by rewrite Htake]. }
    destruct Hpre as [rest Hrest]. rewrite Hrest in Htake.
    rewrite take_app_le in Htake by done.
    exists (drop (length t) ts). by rewrite <- Htake at 1; rewrite take_drop.
Qed.

Lemma generate_watermarked_text_output_witness :
  0 ≤ 6
  ∧ 0 < max_seq_len (config toy_utils_gen)
  ∧ generate_watermarked_text toy_decode toy_utils_gen ["abc"; "ab"] 6
                              (TFin 1000) (TFin 1000000) 5
    = (inr ["abc76"; "ab764075"], 3732978070229549717)
  ∧ length ["abc76"; "ab764075"] = length ["abc"; "ab"]
  ∧ ∀ (i : nat) (x : string), ["abc"; "ab"] !! i = Some x →
      let t := encode (generation_tokenizer (config toy_utils_gen)) x in
      ∃ ts : list Z,
        ["abc76"; "ab764075"] !! i = Some (toy_decode ts)
        ∧ (eos_id toy_utils_gen ∉ ts)
        ∧ Z.of_nat (length ts) ≤ Z.of_nat (length t) + 6
        ∧ Z.of_nat (length ts) ≤ max_seq_len (config toy_utils_gen)
        ∧ (∀ (p : nat) (tok : Z),
             t !! p = Some tok → tok ≠ pad_id toy_utils_gen →
             (p < length ts)%nat → ts !! p = Some tok)
        ∧ (eos_id toy_utils_gen ∉ t → pad_id toy_utils_gen ∉ t →
           t `prefix_of` ts).
Proof.
  split; [lia|]. split; [vm_compute; reflexivity|].
  split; [vm_compute; reflexivity|].
  apply (generate_watermarked_text_output (N:=toy_numeric) (Mo:=toy_model)
           toy_decode toy_utils_gen ["abc"; "ab"] 6 (TFin 1000)
           (TFin 1000000) 5 3732978070229549717 ["abc76"; "ab764075"]);
    [lia | vm_compute; reflexivity | vm_compute; reflexivity].
Defined.

Lemma foldl_min_le (n : Z) (sizes : list Z) : foldl Z.min n sizes ≤ n.
Proof.
  revert n. induction sizes as [|y sizes IH]; intros n; simpl; [lia|].
  etrans; [apply IH|]. lia.
Qed.

Lemma foldl_min_bound (n : Z) (sizes : list Z) (x : Z) :
  x ∈ n :: sizes → foldl Z.min n sizes ≤ x.
Proof.
  revert n. induction sizes as [|y sizes IH]; intros n Hx; simpl.
  - apply list_elem_of_singleton in Hx. lia.
  - apply elem_of_cons in Hx as [->|Hx].
    + etrans; [apply foldl_min_le|]. lia.
    + apply elem_of_cons in Hx as [->|Hx].
      * etrans; [apply foldl_min_le|]. lia.
      * apply IH. by right.
Qed.

(** X17.  Under the 'additive' and 'skip' strategies generation fails at a
    positive temperature: for prompts of at least one and at most
    [max_seq_len] tokens, one of them shorter than [max_seq_len], and
    [max_gen_len > 0], the first step raises AttributeError (or IndexError,
    under 'skip' with an empty context), and the generator is left
    untouched. *)
Theorem generate_watermarked_text_raises_additive_skip
    {N : Numeric} {Mo : Model}
    (decode : list Z → string) (utils : PFUtils)
    (prompts : list string) (max_gen_len : Z) (temperature top_p : F)
    (g : Gen) :
  seeding (config utils) = "additive" ∨ seeding (config utils) = "skip" →
  fgtb temperature (f_of_Z 0) = true →
  prompts_fit utils prompts = true →
  prompts_leave_room utils prompts = true →
  0 < max_gen_len →
  ∃ e,
    generate_watermarked_text decode utils prompts max_gen_len temperature
                              top_p g = (inl (Raised e), g)
    ∧ (e = AttributeError ∨ e = IndexError).
Proof.
  intros Hseeding Htemp Hfit Hroom Hgen. unfold generate_watermarked_text.
  set (tok := generation_tokenizer (config utils)).
  set (prompt_tokens := encode tok <$> prompts).
  assert (Forall (λ t : list Z,
            1 ≤ Z.of_nat (length t) ≤ max_seq_len (config utils))
          prompt_tokens) as Hsizes.
  { unfold prompt_tokens. apply Forall_fmap, Forall_forall. intros x Hx.
    unfold prompts_fit in Hfit. rewrite forallb_forall in Hfit.
    specialize (Hfit x). rewrite <- list_elem_of_In in Hfit.
    specialize (Hfit Hx). simpl in Hfit. fold tok in Hfit. simpl. lia. }
  assert (∃ t, t ∈ prompt_tokens
               ∧ Z.of_nat (length t) < max_seq_len (config utils))
    as (t0 & Ht0 & Hshort).
  { unfold prompts_leave_room in Hroom. apply existsb_exists in Hroom.
    destruct Hroom as (x & Hx & Hlt). rewrite <- list_elem_of_In in Hx.
    exists (encode tok x). split; [by apply list_elem_of_fmap_2|].
    fold tok in Hlt. lia. }
  destruct (_ <$> prompt_tokens) as [|n sizes] eqn:Hs.
  { apply fmap_nil_inv in Hs. rewrite Hs in Ht0. by apply elem_of_nil in Ht0. }
  set (total_len := Z.min _ _).
  assert (∀ t, t ∈ prompt_tokens →
            foldl Z.min n sizes ≤ Z.of_nat (length t) ≤ foldl Z.max n sizes)
    as Hbounds.
  { intros t Ht.
    assert (Z.of_nat (length t) ∈ n :: sizes) as Hin.
    { rewrite <- Hs.
      apply (list_elem_of_fmap_2 (λ t : list Z, Z.of_nat (length t))), Ht. }
    split; [by apply foldl_min_bound | by apply foldl_max_bound]. }
  assert (∀ t, t ∈ prompt_tokens → Z.of_nat (length t) ≤ total_len) as Hle.
  { intros t Ht. rewrite Forall_forall in Hsizes.
    pose proof (Hsizes t Ht). pose proof (Hbounds t Ht).
    unfold total_len. lia. }
  assert (1 ≤ foldl Z.min n sizes < total_len) as Hstart.
  { pose proof (Hbounds t0 Ht0). split.
    - assert (Forall (λ x, 1 ≤ x) (n :: sizes)) as Hpos.
      { rewrite <- Hs. apply Forall_fmap. eapply Forall_impl; [exact Hsizes|].
        simpl. lia. }
      clear -Hpos. revert n Hpos.
      induction sizes as [|y sizes IH]; intros n Hpos; simpl.
      + by inversion Hpos.
      + inversion Hpos as [|? ? Hn Hrest]; subst.
        inversion Hrest as [|? ? Hy Hrest']; subst.
        apply IH. constructor; [lia|done].
    - unfold total_len. lia. }
  unfold_M. unfold init_tokens.
  assert ((total_len <? 0) = false) as -> by (apply Z.ltb_ge; lia).
  destruct (res_mapM_Ok
              (write_prompt (replicate (Z.to_nat total_len) (pad_id utils)))
              prompt_tokens) as (tokens & -> & Hlen & Hrows).
  { intros t Ht. eexists. apply write_prompt_fits.
    rewrite length_replicate. specialize (Hle t Ht). lia. }
  rewrite py_range_cons by lia. cbn [decode_loop]. unfold_M.
  destruct tokens as [|row tokens].
  { destruct prompt_tokens; [by apply elem_of_nil in Ht0 | done]. }
  rewrite !fmap_cons. unfold sample_next at 1. rewrite Htemp. cbn zeta.
  cbn [watermark_rows]. unfold_M.
  unfold get_seed_rng, cfg.
  destruct Hseeding as [-> | ->]; simpl String.eqb; cbv iota.
  - exists AttributeError. by split; [|left].
  - unfold_res. destruct (py_index _ 0) as [x|e] eqn:Hidx; cbn [res_bind].
    + exists AttributeError. by split; [|left].
    + exists e. split; [done|]. right.
      unfold py_index in Hidx. repeat case_match; congruence.
Qed.

Lemma generate_watermarked_text_raises_additive_skip_witness :
  (seeding (config toy_utils_gen_additive) = "additive"
   ∨ seeding (config toy_utils_gen_additive) = "skip")
  ∧ fgtb (TFin 1000) (f_of_Z 0) = true
  ∧ prompts_fit toy_utils_gen_additive ["abc"; "ab"] = true
  ∧ prompts_leave_room toy_utils_gen_additive ["abc"; "ab"] = true
  ∧ 0 < 6
  ∧ ∃ e,
      generate_watermarked_text toy_decode toy_utils_gen_additive
                                ["abc"; "ab"] 6 (TFin 1000) (TFin 1000000) 5
        = (inl (Raised e), 5)
      ∧ (e = AttributeError ∨ e = IndexError).
Proof.
  split; [left; reflexivity|]. split; [reflexivity|].
  split; [vm_compute; reflexivity|]. split; [vm_compute; reflexivity|].
  split; [lia|].
  apply (generate_watermarked_text_raises_additive_skip (N:=toy_numeric)
           (Mo:=toy_model) toy_decode toy_utils_gen_additive ["abc"; "ab"] 6
           (TFin 1000) (TFin 1000000) 5);
    [left; reflexivity | reflexivity | vm_compute; reflexivity
    | vm_compute; reflexivity | lia].
Defined.

Lemma context_slice {A} (row : list A) (cur_pos n : Z) :
  0 ≤ cur_pos ≤ Z.of_nat (length row) →
  0 < n ≤ Z.of_nat (length row) →
  py_slice row (Some (cur_pos - n)) (Some cur_pos)
  = if n <=? cur_pos
    then take (Z.to_nat n) (drop (Z.to_nat (cur_pos - n)) row)
    else [].
Proof.
  intros Hpos Hn. unfold py_slice, clamp_index. simpl.
  destruct (Z.leb_spec n cur_pos), (Z.ltb_spec (cur_pos - n) 0),
    (Z.ltb_spec cur_pos 0); try lia.
  - f_equal; [lia|]. f_equal; lia.
  - replace (Z.to_nat _) with 0%nat by lia. done.
Qed.

(** X18.  The contexts of a decoding step.  When every row of [tokens] has at
    least [ngram] and at least [cur_pos] entries, the step at [cur_pos] hands
    to [sample_next], for every row, the [ngram] tokens before [cur_pos] when
    [ngram <= cur_pos], and the empty context when [cur_pos < ngram]: the
    negative start of the slice [tokens[:, cur_pos - ngram : cur_pos]] counts
    from the end of the row. *)
Theorem decode_loop_context {N : Numeric} {Mo : Model} (utils : PFUtils)
    (temperature top_p : F) (mask : list (list bool)) (cur_pos : Z)
    (positions : list Z) (tokens : list (list Z)) (outputs : option Cache)
    (prev_pos : Z) (g : Gen) :
  0 ≤ cur_pos →
  0 < ngram (config utils) →
  Forall (λ row : list Z,
            cur_pos ≤ Z.of_nat (length row)
            ∧ ngram (config utils) ≤ Z.of_nat (length row)) tokens →
  decode_loop utils temperature top_p mask (cur_pos :: positions) tokens
              outputs prev_pos g
  = (let out :=
       forward ((λ row, py_slice row (Some prev_pos) (Some cur_pos))
                  <$> tokens)
               (if 0 <? prev_pos then outputs else None) in
     let contexts :=
       (λ row : list Z,
          if ngram (config utils) <=? cur_pos
          then take (Z.to_nat (ngram (config utils)))
                    (drop (Z.to_nat (cur_pos - ngram (config utils))) row)
          else []) <$> tokens in
     next_toks ← sample_next utils out.1 contexts temperature top_p;
     tokens' ← lift (write_column mask tokens cur_pos next_toks);
     decode_loop utils temperature top_p mask positions tokens'
                 (Some out.2) cur_pos) g.
Proof.
  intros Hpos Hngram Hrows. cbn [decode_loop]. cbn zeta.
  assert ((λ row : list Z,
             py_slice row (Some (cur_pos - ngram (config utils)))
                      (Some cur_pos)) <$> tokens
          = (λ row : list Z,
               if ngram (config utils) <=? cur_pos
               then take (Z.to_nat (ngram (config utils)))
                         (drop (Z.to_nat (cur_pos - ngram (config utils))) row)
               else []) <$> tokens) as ->; [|reflexivity].
  apply Forall_fmap_ext_1. eapply Forall_impl; [exact Hrows|].
  intros row [Hc Hn]. simpl. apply context_slice; lia.
Qed.

Lemma decode_loop_context_witness :
  0 ≤ 2
  ∧ 0 < ngram (config toy_utils_gen)
  ∧ Forall (λ row : list Z,
              2 ≤ Z.of_nat (length row)
              ∧ ngram (config toy_utils_gen) ≤ Z.of_nat (length row))
           [[97; 98; 99; 0; 0; 0]; [97; 98; 0; 0; 0; 0]]
  ∧ decode_loop toy_utils_gen (TFin 1000) (TFin 1000000)
                [[true; true; true; false; false; false];
                 [true; true; false; false; false; false]]
                (2 :: [3]) [[97; 98; 99; 0; 0; 0]; [97; 98; 0; 0; 0; 0]]
                None 0 5
    = (let out :=
         forward ((λ row, py_slice row (Some 0) (Some 2))
                    <$> [[97; 98; 99; 0; 0; 0]; [97; 98; 0; 0; 0; 0]])
                 (if 0 <? 0 then None else None) in
       let contexts :=
         (λ row : list Z,
            if ngram (config toy_utils_gen) <=? 2
            then take (Z.to_nat (ngram (config toy_utils_gen)))
                      (drop (Z.to_nat (2 - ngram (config toy_utils_gen))) row)
            else []) <$> [[97; 98; 99; 0; 0; 0]; [97; 98; 0; 0; 0; 0]] in
       next_toks ← sample_next toy_utils_gen out.1 contexts (TFin 1000)
                               (TFin 1000000);
       tokens' ← lift (write_column
                         [[true; true; true; false; false; false];
                          [true; true; false; false; false; false]]
                         [[97; 98; 99; 0; 0; 0]; [97; 98; 0; 0; 0; 0]]
                         2 next_toks);
       decode_loop toy_utils_gen (TFin 1000) (TFin 1000000)
                   [[true; true; true; false; false; false];
                    [true; true; false; false; false; false]]
                   [3] tokens' (Some out.2) 2) 5.
Proof.
  split; [lia|]. split; [vm_compute; reflexivity|].
  split; [repeat constructor; vm_compute; discriminate|].
  apply (decode_loop_context (N:=toy_numeric) (Mo:=toy_model) toy_utils_gen
           (TFin 1000) (TFin 1000000)
           [[true; true; true; false; false; false];
            [true; true; false; false; false; false]]
           2 [3] [[97; 98; 99; 0; 0; 0]; [97; 98; 0; 0; 0; 0]] None 0 5);
    [lia | vm_compute; reflexivity
    | repeat constructor; vm_compute; discriminate].
Defined.
